(** * Verification of the LKG graph-building scripts (scripts/graphutils.py, scripts/utils.py)

    Shallow embedding of the reference normaliser, the identifier allocator,
    the in-memory triple store and the inference passes that build the
    Lem Knowledge Graph. *)

From Stdlib Require Import Ascii String ZArith Lia DecimalString DecimalZ DecimalPos.
From stdpp Require Import base list gmap strings relations.



(* ===================================================================== *)
(** ** The triple store (rdflib [Graph]) *)
(* ===================================================================== *)

(** An rdflib graph is a set of triples.  We keep it as a duplicate-free
    list: [Graph.add] inserts a triple only when it is absent, so the list
    never holds the same triple twice.  Queries scan the list. *)
Section Store.
Context {V : Type} `{EqDecision V}.

Definition triple : Type := (V * V * V)%type.
Definition graph : Type := list triple.

Definition has (g : graph) (t : triple) : bool := bool_decide (t ∈ g).

(** [graph.add((s, p, o))] *)
Definition add (g : graph) (t : triple) : graph :=
  if has g t then g else g ++ [t].

(** [graph.remove((s, p, o))] *)
Definition remove (g : graph) (t : triple) : graph :=
  filter (fun u => u <> t) g.

(** [graph.objects(s, p)] *)
Definition objects (g : graph) (s p : V) : list V :=
  omap (fun '(s', p', o) => if bool_decide (s' = s /\ p' = p) then Some o else None) g.

(** [graph.subjects(p, o)] *)
Definition subjects (g : graph) (p o : V) : list V :=
  omap (fun '(s, p', o') => if bool_decide (p' = p /\ o' = o) then Some s else None) g.

(** [graph.predicates(s, o)] *)
Definition predicates (g : graph) (s o : V) : list V :=
  omap (fun '(s', p, o') => if bool_decide (s' = s /\ o' = o) then Some p else None) g.

(** [graph.value(s, p)]: one object of [s] along [p], or [None]. *)
Definition value (g : graph) (s p : V) : option V := head (objects g s p).

(** [(None, p, o) in graph]: rdflib reads [None] as a wildcard. *)
Definition has_any_subject (g : graph) (p o : V) : bool :=
  existsb (fun '(_, p', o') => bool_decide (p' = p /\ o' = o)) g.

(** Every term occurring in the graph. *)
Definition nodes (g : graph) : list V :=
  flat_map (fun '(s, p, o) => [s; p; o]) g.
End Store.

Arguments triple : clear implicits.
Arguments graph : clear implicits.

(* ===================================================================== *)
(** ** Hierarchy propagation: [propagate_through_prop] *)
(* ===================================================================== *)

(** Outcome of a call that may raise: [graph.add((None, p, o))] fails the
    assertion of rdflib's [Graph.add] (a subject must be an rdflib term). *)
Inductive outcome (V : Type) := Done (g : graph V) | Raised.
Arguments Done {V} g.
Arguments Raised {V}.

Section Propagate.
Context {V : Type} `{EqDecision V}.
Variables (hierarchy_prop predicate object : V) (neighbor_prop : option V).

(** The [while linked:] loop; [rec] is the recursive call. *)
Definition propagate_loop (rec : graph V -> V -> option (outcome V))
    : graph V -> list V -> option (outcome V) :=
  fix loop g linked :=
    match linked with
    | [] => Some (Done g)
    | node :: rest =>
        let obj := match neighbor_prop with
                   | None => Some node
                   | Some np => value g node np
                   end in
        match obj with
        | None =>
            if has_any_subject g predicate object then loop g rest
            else Some Raised
        | Some o =>
            if has g (o, predicate, object) then loop g rest
            else match rec (add g (o, predicate, object)) node with
                 | Some (Done g') => loop g' rest
                 | r => r
                 end
        end
    end.

(** [propagate_through_prop(graph, src_node, ...)].  [fuel] bounds the
    depth of the recursion; [None] means the bound was reached.
    [linked.pop()] takes the last element, hence the [rev]. *)
Fixpoint propagate_through_prop (fuel : nat) (g : graph V) (src_node : V)
    : option (outcome V) :=
  match fuel with
  | 0 => None
  | S fuel' =>
      propagate_loop (propagate_through_prop fuel') g
        (rev (objects g src_node hierarchy_prop))
  end.
End Propagate.

(** A recursion bound that the termination theorem shows sufficient. *)
Definition propagate_fuel {V} (g : graph V) : nat := S (S (S (length (nodes g)))).

(** Candidates [C] still lacking the target triple: the measure that
    decreases along the recursion of [propagate_through_prop]. *)
Definition missing_marks {V} `{EqDecision V} (predicate object : V) (C : list V) (g : graph V) : nat :=
  length (filter (fun s => (s, predicate, object) ∉ g) C).

(** What a finished call of [propagate_through_prop] guarantees: it ended
    (normally or by raising), and a normal end only added triples over the
    candidate terms [C]. *)
Definition prop_ok {V} (C : list V) (g : graph V) (r : option (outcome V)) : Prop :=
  match r with
  | None => False
  | Some Raised => True
  | Some (Done g') => (forall x, x ∈ nodes g' -> x ∈ C) /\ g ⊆ g'
  end.

(** [g'] is [g] followed by new, pairwise distinct [(_, predicate, object)]
    triples. *)
Definition appended {V} (predicate object : V) (g g' : graph V) : Prop :=
  exists Y, g' = g ++ Y /\ NoDup Y /\
    (forall t, t ∈ Y -> (t ∉ g) /\ snd (fst t) = predicate /\ snd t = object).

(** Nodes of a test hierarchy: a node is named by its path from the root;
    relation names are separate terms. *)
Inductive tnode := TNode (path : list nat) | TRel (name : string).

#[global] Instance tnode_eq_dec : EqDecision tnode.
Proof. solve_decision. Defined.

Definition has_component : tnode := TRel "R5_has_component"%string.

(** All paths of length [k] whose entries are below [b]. *)
Fixpoint paths (b k : nat) : list (list nat) :=
  match k with
  | 0 => [[]]
  | S k' => flat_map (fun p => map (fun i => p ++ [i]) (seq 0 b)) (paths b k')
  end.

(** The full [b]-ary tree of depth [d], as [has_component] edges. *)
Definition tree_graph (b d : nat) : graph tnode :=
  flat_map (fun k => flat_map (fun p => map (fun i => (TNode p, has_component, TNode (p ++ [i])))
                                            (seq 0 b)) (paths b k))
           (seq 0 d).

(** The descendants of the root: paths of length 1 to [d]. *)
Definition descendants (b d : nat) : list (list nat) :=
  flat_map (paths b) (seq 1 d).

(** [q] lies in the subtree of [c] (inclusive) of the [b]-ary tree of depth [d]. *)
Definition in_subtree (b d : nat) (c q : list nat) : Prop :=
  exists s, q = c ++ s /\ length q <= d /\ Forall (fun i => i < b) s.

(** [q] is a proper descendant of [p]. *)
Definition strict_descendant (b d : nat) (p q : list nat) : Prop :=
  exists s, s <> [] /\ q = p ++ s /\ length q <= d /\ Forall (fun i => i < b) s.

(** The [has_component] edges of [g] are exactly those of the tree. *)
Definition hierarchy_is_tree (b d : nat) (g : graph tnode) : Prop :=
  forall x z, (x, has_component, z) ∈ g <-> (x, has_component, z) ∈ tree_graph b d.

(* ===================================================================== *)
(** ** Python string operations *)
(* ===================================================================== *)

(** Strings are byte strings; the only non-ASCII character the scripts
    treat specially is the range sign "÷", the two UTF-8 bytes 195 183.
    Character classes are the ASCII ones ([str.isdigit], [\d] and
    [str.strip] agree with them on ASCII input). *)

Definition is_digit (a : ascii) : bool :=
  let n := nat_of_ascii a in (48 <=? n)%nat && (n <=? 57)%nat.
Definition is_letter (a : ascii) : bool :=
  let n := nat_of_ascii a in ((65 <=? n)%nat && (n <=? 90)%nat) || ((97 <=? n)%nat && (n <=? 122)%nat).
(** ASCII characters for which [str.isspace] holds. *)
Definition is_space (a : ascii) : bool :=
  let n := nat_of_ascii a in (n =? 32)%nat || ((9 <=? n)%nat && (n <=? 13)%nat) || ((28 <=? n)%nat && (n <=? 31)%nat).

Fixpoint lstrip_by (f : ascii -> bool) (s : string) : string :=
  match s with
  | EmptyString => EmptyString
  | String a s' => if f a then lstrip_by f s' else s
  end.

(** Drops the trailing characters satisfying [f]. *)
Fixpoint rstrip_by (f : ascii -> bool) (s : string) : string :=
  match s with
  | EmptyString => EmptyString
  | String a s' =>
    let r := rstrip_by f s' in
    if String.eqb r EmptyString && f a then EmptyString else String a r
  end.

Definition strip_by (f : ascii -> bool) (s : string) : string := rstrip_by f (lstrip_by f s).

(** [str.strip()] and [str.strip(":")]. *)
Definition py_strip (s : string) : string := strip_by is_space s.
Definition strip_colon (s : string) : string := strip_by (fun a => Ascii.eqb a ":"%char) s.

(** The longest prefix made of characters satisfying [f], and the rest. *)
Fixpoint span_by (f : ascii -> bool) (s : string) : string * string :=
  match s with
  | EmptyString => (EmptyString, EmptyString)
  | String a s' => if f a then let '(u, v) := span_by f s' in (String a u, v) else (EmptyString, s)
  end.

(** [re.match(r"[A-Za-z]+", s)] and [re.match(r"\d+", s)]: the matched text, if any. *)
Definition match_letters (s : string) : option string :=
  match fst (span_by is_letter s) with EmptyString => None | m => Some m end.
Definition match_digits (s : string) : option string :=
  match fst (span_by is_digit s) with EmptyString => None | m => Some m end.

(** [str.split(sep)] for a non-empty separator, scanning left to right.
    Each step consumes at least one character, so [length s + 1] steps suffice. *)
Fixpoint split_fuel (fuel : nat) (sep s : string) : list string :=
  match fuel with
  | O => [s]
  | S f =>
    match s with
    | EmptyString => [EmptyString]
    | String a s' =>
      if negb (String.eqb sep EmptyString) && String.prefix sep s
      then EmptyString :: split_fuel f sep (substring (String.length sep) (String.length s) s)
      else match split_fuel f sep s' with
           | w :: ws => String a w :: ws
           | [] => [String a EmptyString]
           end
    end
  end.
Definition py_split (sep s : string) : list string := split_fuel (S (String.length s)) sep s.

(** [str.split(sep, 1)] and [str.rsplit(sep, 1)] for a one-character separator. *)
Definition py_split1 (c : ascii) (s : string) : list string :=
  match py_split (String c EmptyString) s with
  | [] => [s]
  | [w] => [w]
  | w :: ws => [w; String.concat (String c EmptyString) ws]
  end.
Definition py_rsplit1 (c : ascii) (s : string) : list string :=
  match py_split (String c EmptyString) s with
  | [] | [_] => [s]
  | ws => [String.concat (String c EmptyString) (removelast ws); List.last ws EmptyString]
  end.

(** [sub in s]. *)
Fixpoint str_contains (sub s : string) : bool :=
  String.prefix sub s ||
  match s with EmptyString => false | String _ s' => str_contains sub s' end.

(** [s[-1]], the last character of a non-empty string. *)
Fixpoint last_char (s : string) : option ascii :=
  match s with
  | EmptyString => None
  | String a EmptyString => Some a
  | String _ s' => last_char s'
  end.

(** [s.endswith(c)] for a one-character string [c]. *)
Definition ends_with_char (c : ascii) (s : string) : bool :=
  match last_char s with Some a => Ascii.eqb a c | None => false end.

(** All characters of [s] satisfy [f]. *)
Fixpoint str_forallb (f : ascii -> bool) (s : string) : bool :=
  match s with
  | EmptyString => true
  | String a s' => f a && str_forallb f s'
  end.

(** Decimal value of a non-empty string of digits. *)
Fixpoint digits_value_acc (acc : Z) (s : string) : option Z :=
  match s with
  | EmptyString => Some acc
  | String a s' =>
    if is_digit a then digits_value_acc (10 * acc + Z.of_nat (nat_of_ascii a - 48))%Z s' else None
  end.
Definition digits_value (s : string) : option Z :=
  match s with EmptyString => None | _ => digits_value_acc 0%Z s end.

(** [int(s)] for a string without underscores: surrounding whitespace,
    an optional sign, then decimal digits; anything else raises ([None]). *)
Definition py_int (s : string) : option Z :=
  match py_strip s with
  | String "-"%char r => option_map Z.opp (digits_value r)
  | String "+"%char r => digits_value r
  | r => digits_value r
  end.

(** [str(n)] / f-string formatting of an integer. *)
Definition Z_to_string (z : Z) : string := NilZero.string_of_int (Z.to_int z).

(** [" ".join(ws)]. *)
Definition join_space (ws : list string) : string := String.concat " " ws.

(* ===================================================================== *)
(** ** Reference normaliser: [normalize_ref] (scripts/utils.py) *)
(* ===================================================================== *)

Definition range_sign : string := "÷".

(** [x in lang_prefixes]. *)
Definition str_in (x : string) (l : list string) : bool := existsb (String.eqb x) l.

(** [range(f, l + 1)]. *)
Definition z_range (f l : Z) : list Z :=
  map (fun i => (f + Z.of_nat i)%Z) (seq 0 (Z.to_nat (l + 1 - f))).

(** The prefixing step of the inner loop on a sub-token that is not blank:
    [None] when [re.match(...).group()] raises on a failed match,
    [Some None] for the [continue] of an unrecognised letter prefix,
    [Some (Some sref)] for the prefixed sub-token. *)
Definition prefix_sref (prefix_default prefix_nf : string) (lang_prefixes : list string)
    (prefix_other : string) (sref : string) : option (option string) :=
  match sref with
  | String a _ =>
    if is_digit a then
      let prefix := if str_in prefix_default lang_prefixes
                    then (prefix_nf ++ prefix_default)%string
                    else (prefix_other ++ prefix_default)%string in
      Some (Some (prefix ++ sref)%string)
    else
      match match_letters sref with
      | None => None
      | Some prefix =>
        let number := strip_colon (substring (String.length prefix) (String.length sref) sref) in
        if negb (str_in prefix lang_prefixes) then Some None
        else Some (Some (prefix_nf ++ prefix ++ number)%string)
      end
  | EmptyString => Some None
  end.

(** The expansion step of the inner loop on a prefixed sub-token: the IDs
    appended to [refs], [None] when the tuple unpacking of
    [sref.split(".", 1)] raises. *)
Definition expand_sref (sref : string) : option (list string) :=
  let parts := py_split range_sign sref in
  if (1 <? length parts)%nat then
    let idfirst := py_rsplit1 "."%char (hd EmptyString parts) in
    let idlast := py_rsplit1 "."%char (List.last parts EmptyString) in
    let lastid0 := List.last idlast EmptyString in
    let first0 := hd EmptyString idfirst in
    let '(lastid, extra) :=
      if str_contains ";" lastid0 then
        let allparts := py_split ";" lastid0 in
        (hd EmptyString allparts,
         omap (fun p => (fun d => first0 ++ "." ++ d)%string <$> match_digits p) (tl allparts))
      else (lastid0, []) in
    let range :=
      match match_digits (List.last idfirst EmptyString), match_digits lastid with
      | Some nf, Some nl =>
        match digits_value nf, digits_value nl with
        | Some f, Some l => map (fun x => first0 ++ "." ++ Z_to_string x)%string (z_range f l)
        | _, _ => []
        end
      | _, _ => []
      end in
    Some (extra ++ range)
  else if str_contains ";" sref then
    match py_split1 "."%char sref with
    | [mainid; subids] => Some (map (fun subid => mainid ++ "." ++ subid)%string (py_split ";" subids))
    | _ => None
    end
  else if ends_with_char "?"%char sref then Some []
  else Some [sref].

(** The body of the inner loop: the IDs one sub-token appends to [refs]. *)
Definition process_sref (prefix_default prefix_nf : string) (lang_prefixes : list string)
    (prefix_other : string) (sref : string) : option (list string) :=
  if String.eqb (py_strip sref) EmptyString then Some []
  else
    match prefix_sref prefix_default prefix_nf lang_prefixes prefix_other sref with
    | None => None
    | Some None => Some []
    | Some (Some sref') => expand_sref sref'
    end.

(** The sub-tokens, in order: [sourceref.split(", ")], each split on ["+"]. *)
Definition sub_tokens (sourceref : string) : list string :=
  List.concat (map (py_split "+") (py_split ", " sourceref)).

(** [normalize_ref]; [None] when it raises. *)
Definition normalize_ref (sourceref prefix_default prefix_nf : string) (lang_prefixes : list string)
    (prefix_other : string) : option string :=
  refs ← mapM (process_sref prefix_default prefix_nf lang_prefixes prefix_other) (sub_tokens sourceref);
  Some (join_space (List.concat refs)).

(* ===================================================================== *)
(** ** Identifier allocator: [make_autoinc_id] and [import_lkg] *)
(* ===================================================================== *)

(** The module-global dictionary [autoinc_id_counts]. *)
Abbreviation counts := (gmap string Z).

(** [make_autoinc_id prefix]: the identifier and the updated counters. *)
Definition make_autoinc_id (prefix : string) (c : counts) : string * counts :=
  let n := default 0%Z (c !! prefix) in
  ((prefix ++ "_" ++ Z_to_string n)%string, <[prefix := (n + 1)%Z]> c).

(** [k] successive calls [make_autoinc_id prefix]. *)
Fixpoint allocate_many (prefix : string) (k : nat) (c : counts) : list string * counts :=
  match k with
  | O => ([], c)
  | S k' =>
    let '(id, c1) := make_autoinc_id prefix c in
    let '(ids, c2) := allocate_many prefix k' c1 in (id :: ids, c2)
  end.

(** [get_id_from_uri] and [get_class_prefix]. *)
Definition get_id_from_uri (uri : string) : string :=
  match py_rsplit1 "/"%char uri with
  | [_; r] => r
  | _ => match py_rsplit1 "#"%char uri with [_; r] => r | _ => uri end
  end.
Definition get_class_prefix (id : string) : string := hd EmptyString (py_split "_" id).

(** The part of a loaded graph that [import_lkg] reads: its [rdf:type]
    triples (subject IRI, class IRI) and the values of its
    [ORDERLABEL] triples (XSD float literals, read through [dtype=int],
    kept here as their integer value), in graph order. *)
Record lkg_graph := {
  type_triples : list (string * string);
  order_labels : list (string * Z)
}.

Definition subjects_of_type (g : lkg_graph) (cls : string) : list string :=
  omap (fun '(s, c) => if String.eqb c cls then Some s else None) (type_triples g).

(** [g.value(entity, ORDERLABEL, None).value]; [None.value] raises. *)
Definition order_value (g : lkg_graph) (e : string) : option Z :=
  snd <$> List.find (fun '(s, _) => String.eqb s e) (order_labels g).

(** [numbers.max()]; numpy raises on an empty array. *)
Definition list_max (ns : list Z) : option Z :=
  match ns with [] => None | n :: ns' => Some (fold_left Z.max ns' n) end.

(** [int(np.char.lstrip(uri.rsplit("_", 1)[-1], ascii_letters))]. *)
Definition suffix_number (uri : string) : option Z :=
  py_int (lstrip_by is_letter (List.last (py_rsplit1 "_"%char uri) EmptyString)).

(** One iteration of the first loop of [import_lkg] (numbered kinds). *)
Definition resume_numbered (g : lkg_graph) (c : counts) (cls : string) : option counts :=
  ns ← mapM suffix_number (subjects_of_type g cls);
  m ← list_max ns;
  Some (<[get_class_prefix (get_id_from_uri cls) := (m + 1)%Z]> c).

(** One iteration of the second loop of [import_lkg] (kinds with an order key). *)
Definition resume_ordered (g : lkg_graph) (c : counts) (cls : string) : option counts :=
  ns ← mapM (order_value g) (subjects_of_type g cls);
  m ← list_max ns;
  Some (<[get_class_prefix (get_id_from_uri cls) := (m + 1)%Z]> c).

Fixpoint fold_opt {A B} (f : A -> B -> option A) (a : A) (l : list B) : option A :=
  match l with
  | [] => Some a
  | x :: l' => match f a x with Some a' => fold_opt f a' l' | None => None end
  end.

(** Class IRIs.  Only the local name matters: its part before the first
    underscore is the counter's prefix. *)
Definition cidoc (s : string) : string := ("http://www.cidoc-crm.org/cidoc-crm/" ++ s)%string.
Definition lrmoo (s : string) : string := ("http://iflastandards.info/ns/lrm/lrmoo/" ++ s)%string.
Definition lkg (s : string) : string := ("http://lkg.org.pl/ns/lkg-core/" ++ s)%string.

Definition simple_ids : list string :=
  [cidoc "E41_Appellation"; cidoc "E42_Identifier"; cidoc "E35_Title"; cidoc "E52_Time_Span"].
Definition order_ids : list string :=
  [lrmoo "F1_Work"; lrmoo "F2_Expression"; lrmoo "F3_Manifestation"].
Definition prefixed_ids : list string :=
  [cidoc "E21_Person"; cidoc "E53_Place"; lrmoo "F11_Corporate_Body"].

(** The counter updates of [import_lkg]; [None] when it raises. *)
Definition import_counts (g : lkg_graph) (c : counts) : option counts :=
  c1 ← fold_opt (resume_numbered g) c (simple_ids ++ prefixed_ids);
  fold_opt (resume_ordered g) c1 order_ids.

(** The persons [E21_P0] ... [E21_P7] as loaded from a persisted graph. *)
Definition persons_P0_P7 : list string :=
  map (fun i => lkg ("E21_P" ++ Z_to_string (Z.of_nat i)))%string (seq 0 8).

(** A persisted graph holding only the persons [E21_P0] ... [E21_P7]. *)
Definition persons_only_graph : lkg_graph :=
  {| type_triples := map (fun u => (u, cidoc "E21_Person")) persons_P0_P7; order_labels := [] |}.

(** A persisted graph holding the persons [E21_P0] ... [E21_P7] and one
    entity of every other kind [import_lkg] scans. *)
Definition persisted_graph : lkg_graph :=
  {| type_triples := map (fun u => (u, cidoc "E21_Person")) persons_P0_P7 ++
       [(lkg "E41_3", cidoc "E41_Appellation"); (lkg "E42_0", cidoc "E42_Identifier");
        (lkg "E35_12", cidoc "E35_Title"); (lkg "E52_1", cidoc "E52_Time_Span");
        (lkg "E53_GN5", cidoc "E53_Place"); (lkg "F11_C2", lrmoo "F11_Corporate_Body");
        (lkg "F1_1", lrmoo "F1_Work"); (lkg "F2_4", lrmoo "F2_Expression");
        (lkg "F3_1", lrmoo "F3_Manifestation")]%string;
     order_labels := [(lkg "F1_1", 4%Z); (lkg "F2_4", 9%Z); (lkg "F3_1", 2%Z)]%string |}.

(* ===================================================================== *)
(** ** Derivative inference: [infer_derivatives] and [_infer_derivative] *)
(* ===================================================================== *)

Section Derivative.
Context {V : Type} `{EqDecision V}.
Variables (has_component is_component_of : V) (derivoptions : list V).

(** [graph.subjects(p)]: the subject of every triple with predicate [p]. *)
Definition subjects_of (g : graph V) (p : V) : list V :=
  omap (fun '(s, p', _) => if bool_decide (p' = p) then Some s else None) g.

(** [set(graph.objects(s, R76 | S761 | ..., unique=True))]. *)
Definition deriv_objects (g : graph V) (s : V) : list V :=
  remove_dups (omap (fun '(s', p, o) =>
    if bool_decide (s' = s /\ p ∈ derivoptions) then Some o else None) g).

(** [set.intersection( *pss)] for a non-empty list of sets. *)
Definition intersect_all (pss : list (list V)) : list V :=
  match pss with
  | [] => []
  | ps :: rest => filter (fun p => Forall (fun qs => p ∈ qs) rest) ps
  end.

(** What a call returns: [None] or [(outputprops, target)]. *)
Definition derivinfo : Type := option (list V * V).

(** [derivinfo = [_infer_derivative(graph, child) for child in children]]:
    the calls run in order on the graph the previous one left. *)
Definition infer_children (rec : graph V -> V -> option (derivinfo * graph V))
    : graph V -> list V -> option (list derivinfo * graph V) :=
  fix loop g cs :=
    match cs with
    | [] => Some ([], g)
    | c :: cs' =>
        match rec g c with
        | None => None
        | Some (di, g1) =>
            match loop g1 cs' with
            | None => None
            | Some (dis, g2) => Some (di :: dis, g2)
            end
        end
    end.

(** [for p in sorted(outputprops): graph.add((sender_node, p, ref))].
    The order of the additions does not change the set of triples. *)
Definition add_all (g : graph V) (ts : list (triple V)) : graph V := foldl add g ts.

(** [_infer_derivative(graph, sender_node)]: the returned information and
    the graph after the call.  [fuel] bounds the depth of the recursion;
    [None] means the bound was reached. *)
Fixpoint infer_derivative (fuel : nat) (g : graph V) (sender_node : V)
    : option (derivinfo * graph V) :=
  match fuel with
  | 0 => None
  | S fuel' =>
      match objects g sender_node has_component with
      | [] =>
          match deriv_objects g sender_node with
          | [refnode] => Some (Some (remove_dups (predicates g sender_node refnode), refnode), g)
          | _ => Some (None, g)
          end
      | children =>
          match infer_children (infer_derivative fuel') g children with
          | None => None
          | Some (dis, g1) =>
              match mapM (fun di => di) dis with
              | Some ((ps0, t0) :: rest) =>
                  if bool_decide (Forall (fun di => di.2 = t0) rest) then
                    let outputprops := intersect_all (ps0 :: map fst rest) in
                    match value g1 t0 is_component_of with
                    | Some ref =>
                        Some (Some (outputprops, ref),
                              add_all g1 (map (fun p => (sender_node, p, ref)) outputprops))
                    | None => Some (None, g1)
                    end
                  else Some (None, g1)
              | _ => Some (None, g1)
              end
          end
      end
  end.

(** [infer_derivatives(graph)]: every subject of [R5_has_component]
    without a parent is a root.  The candidates are read once: the pass
    never adds an [R5_has_component] triple. *)
Definition infer_derivatives (fuel : nat) (g : graph V) : option (graph V) :=
  foldl (fun acc s =>
    gc ← acc;
    match value gc s is_component_of with
    | Some _ => Some gc
    | None => snd <$> infer_derivative fuel gc s
    end) (Some g) (subjects_of g has_component).

(** The component hierarchy is consistent: [R5i_is_component_of] is the
    converse of [R5_has_component], and a node has at most one parent. *)
Definition hierarchy_consistent (g : graph V) : Prop :=
  (forall x y, (x, is_component_of, y) ∈ g <-> (y, has_component, x) ∈ g) /\
  (forall x y y', (x, is_component_of, y) ∈ g -> (x, is_component_of, y') ∈ g -> y = y').

(** No entity is its own derivative. *)
Definition deriv_irreflexive (g : graph V) : Prop :=
  forall x p, p ∈ derivoptions -> (x, p, x) ∉ g.

(** No two entities are derivatives of each other by the same relation. *)
Definition deriv_asymmetric (g : graph V) : Prop :=
  forall x y p, p ∈ derivoptions -> (x, p, y) ∈ g -> (y, p, x) ∉ g.

(** Boolean checks of the two input conditions, for concrete graphs. *)
Definition hierarchy_consistentb (g : graph V) : bool :=
  forallb (fun '(s, p, o) =>
    bool_decide (p = is_component_of -> (o, has_component, s) ∈ g) &&
    bool_decide (p = has_component -> (o, is_component_of, s) ∈ g) &&
    forallb (fun '(s', p', o') =>
      bool_decide (p = is_component_of -> p' = is_component_of -> s' = s -> o' = o)) g) g.
Definition deriv_irreflexiveb (g : graph V) : bool :=
  forallb (fun '(s, p, o) => bool_decide (p ∈ derivoptions -> s <> o)) g.
Definition deriv_asymmetricb (g : graph V) : bool :=
  forallb (fun '(s, p, o) => bool_decide (p ∈ derivoptions -> (o, p, s) ∉ g)) g.
(** What the pass keeps true of the graph [gc] it works on, for the input [g0]. *)
Definition deriv_inv (g0 gc : graph V) : Prop :=
  g0 ⊆ gc /\
  (forall x y, (x, has_component, y) ∈ gc <-> (x, has_component, y) ∈ g0) /\
  (forall x y, (x, is_component_of, y) ∈ gc <-> (x, is_component_of, y) ∈ g0) /\
  (forall x p y, (x, p, y) ∈ gc -> (x, p, y) ∉ g0 -> x <> y).

(** What a call on [s] returns: a target other than [s], with
    [has_component] never among the properties, and [is_component_of]
    among them only when [s] is a component of the target already. *)
Definition info_ok (g0 : graph V) (s : V) (di : derivinfo) : Prop :=
  match di with
  | None => True
  | Some (ps, t) =>
    t <> s /\ (has_component ∉ ps) /\ (is_component_of ∈ ps -> (s, is_component_of, t) ∈ g0)
  end.

End Derivative.

(** The LRMoo / LKG properties the pass reads. *)
Definition R5_has_component : string := lrmoo "R5_has_component".
Definition R5i_is_component_of : string := lrmoo "R5i_is_component_of".
Definition R76_is_derivative_of : string := lrmoo "R76_is_derivative_of".
Definition S761_is_translation_of : string := lkg "S761_is_translation_of".
Definition S762_is_altered_form_of : string := lkg "S762_is_altered_form_of".
Definition S763_is_reduced_form_of : string := lkg "S763_is_reduced_form_of".
Definition S764_is_extended_form_of : string := lkg "S764_is_extended_form_of".
Definition derivrels : list string :=
  [R76_is_derivative_of; S761_is_translation_of; S762_is_altered_form_of;
   S763_is_reduced_form_of; S764_is_extended_form_of].

(** [infer_derivatives] on graphs over IRIs. *)
Definition infer_derivatives_lkg (fuel : nat) (g : graph string) : option (graph string) :=
  infer_derivatives R5_has_component R5i_is_component_of derivrels fuel g.

(** Two parents whose components are translations of the components of
    another parent, pairwise: [a1 S761 b1] and [a2 S761 b2]. *)
Definition parallel_parents : graph string :=
  [("A", R5_has_component, "a1"); ("A", R5_has_component, "a2");
   ("a1", R5i_is_component_of, "A"); ("a2", R5i_is_component_of, "A");
   ("B", R5_has_component, "b1"); ("B", R5_has_component, "b2");
   ("b1", R5i_is_component_of, "B"); ("b2", R5i_is_component_of, "B");
   ("a1", S761_is_translation_of, "b1"); ("a2", S761_is_translation_of, "b2")]%string.

(** A parent whose only component is a translation of a component of [B],
    while [B] is a translation of [A]. *)
Definition reverse_parents : graph string :=
  [("A", R5_has_component, "a1"); ("a1", R5i_is_component_of, "A");
   ("B", R5_has_component, "b1"); ("b1", R5i_is_component_of, "B");
   ("a1", S761_is_translation_of, "b1"); ("B", S761_is_translation_of, "A")]%string.

(** [t] names [S] as its parent, but [S] does not list [t] as a component. *)
Definition stray_parent : graph string :=
  [("S", R5_has_component, "c"); ("c", R5i_is_component_of, "S");
   ("c", S761_is_translation_of, "t"); ("t", R5i_is_component_of, "S")]%string.

(* ===================================================================== *)
(** ** Work inference: [infer_works], and [remove_tempflags] *)
(* ===================================================================== *)

(** RDF terms: IRIs, plain literals and typed literals. *)
Inductive term := Iri (s : string) | Lit (s : string) | TypedLit (s dt : string).

#[global] Instance term_eq_dec : EqDecision term.
Proof. solve_decision. Defined.

(** [str(t)] *)
Definition term_str (t : term) : string :=
  match t with Iri s | Lit s | TypedLit s _ => s end.

Definition rdf (s : string) : string := ("http://www.w3.org/1999/02/22-rdf-syntax-ns#" ++ s)%string.
Definition rdfs (s : string) : string := ("http://www.w3.org/2000/01/rdf-schema#" ++ s)%string.
Definition skos (s : string) : string := ("http://www.w3.org/2004/02/skos/core#" ++ s)%string.
Definition xsd (s : string) : string := ("http://www.w3.org/2001/XMLSchema#" ++ s)%string.

Definition RDF_type : term := Iri (rdf "type").
Definition RDFS_label : term := Iri (rdfs "label").
Definition UILABEL : term := Iri (skos "prefLabel").
Definition ORDERLABEL : term := Iri (skos "hiddenLabel").
Definition SEARCHLABEL : term := Iri (skos "altLabel").
Definition XSD_float : string := xsd "float".

Definition F1_Work : term := Iri (lrmoo "F1_Work").
Definition F2_Expression : term := Iri (lrmoo "F2_Expression").
Definition F27_Work_Creation : term := Iri (lrmoo "F27_Work_Creation").
Definition R3_is_realised_in : term := Iri (lrmoo "R3_is_realised_in").
Definition R3i_realises : term := Iri (lrmoo "R3i_realises").
Definition R16_created : term := Iri (lrmoo "R16_created").
Definition R16i_was_created_by : term := Iri (lrmoo "R16i_was_created_by").
Definition R17i_was_created_by : term := Iri (lrmoo "R17i_was_created_by").
Definition R19_created_a_realisation_of : term := Iri (lrmoo "R19_created_a_realisation_of").
Definition R19i_was_realised_through : term := Iri (lrmoo "R19i_was_realised_through").

(** [LKG["SKIP"]]: the mark [add_nonfic] puts on an Expression cited with "-". *)
Definition SKIP : term := Iri (lkg "SKIP").

(** The alternatives of [derivpath]. *)
Definition derivpath_rels : list term := Iri <$> derivrels.

Definition authorprops : list term :=
  (fun s => Iri (lkg s)) <$>
    ["S141_composed_by"; "S142_written_by"; "S143_translated_by";
     "S144_edited_by"; "S146_performed_by"; "S147_directed_by"]%string.

Definition copyprops : list term :=
  [Iri (cidoc "P102_has_title"); Iri (cidoc "P1_is_identified_by");
   Iri (cidoc "P72_has_language"); SEARCHLABEL; UILABEL].

(** [s.replace(old, new, 1)] *)
Fixpoint replace1 (old new s : string) : string :=
  if String.prefix old s then (new ++ substring (String.length old) (String.length s - String.length old) s)%string
  else match s with
       | EmptyString => EmptyString
       | String a s' => String a (replace1 old new s')
       end.

(** [graph.predicate_objects(s)] *)
Definition predicate_objects (g : graph term) (s : term) : list (term * term) :=
  omap (fun '(s', p, o) => if bool_decide (s' = s) then Some (p, o) else None) g.

(** [dict(pairs)]: a later pair overrides an earlier one with the same key. *)
Definition dict_of (ps : list (term * term)) (k : term) : option term :=
  foldl (fun acc '(p, v) => if bool_decide (p = k) then Some v else acc) None ps.

(** Evaluation of a one-or-more property path: the nodes reachable in
    one step or more, each once, visited breadth first.  The fuel bounds
    the queue pushes: every step reads one triple of the graph. *)
Fixpoint reach (fuel : nat) (step : term -> list term) (todo seen : list term) : list term :=
  match fuel with
  | O => seen
  | S f =>
    match todo with
    | [] => seen
    | x :: rest =>
      if bool_decide (x ∈ seen) then reach f step rest seen
      else reach f step (rest ++ step x) (seen ++ [x])
    end
  end.

Definition deriv_step_fwd (g : graph term) (x : term) : list term :=
  omap (fun '(s, p, o) => if bool_decide (s = x /\ p ∈ derivpath_rels) then Some o else None) g.
Definition deriv_step_bwd (g : graph term) (x : term) : list term :=
  omap (fun '(s, p, o) => if bool_decide (o = x /\ p ∈ derivpath_rels) then Some s else None) g.
Definition path_fuel (g : graph term) : nat := S (2 * length g).

(** [graph.objects(x, derivpath, unique=True)] and
    [graph.subjects(derivpath, x, unique=True)] *)
Definition path_objects (g : graph term) (x : term) : list term :=
  reach (path_fuel g) (deriv_step_fwd g) (deriv_step_fwd g x) [].
Definition path_subjects (g : graph term) (x : term) : list term :=
  reach (path_fuel g) (deriv_step_bwd g) (deriv_step_bwd g x) [].

(** The Python heap, as far as [infer_works] uses it: the graphs, at their
    locations, and the module-global counters of [make_autoinc_id].  An
    action runs on the heap and either returns or raises ([None]); a
    raise keeps the heap as it was when it was raised. *)
Record wstate := mk_wstate { heap : list (graph term); autoinc : counts }.

Definition M (A : Type) : Type := wstate -> wstate * option A.

#[global] Instance M_ret : MRet M := fun A a st => (st, Some a).
#[global] Instance M_bind : MBind M := fun A B k m st =>
  match m st with
  | (st', Some a) => k a st'
  | (st', None) => (st', None)
  end.

Definition raise {A} : M A := fun st => (st, None).

(** Reading the graph at a location. *)
Definition get_graph (l : nat) : M (graph term) := fun st => (st, Some (heap st !!! l)).

(** [make_base_graph()]: a new, empty graph object. *)
Definition new_graph : M nat := fun st =>
  (mk_wstate (heap st ++ [[]]) (autoinc st), Some (length (heap st))).

(** [g.add(t)] on the graph at location [l]. *)
Definition gadd (l : nat) (t : triple term) : M unit := fun st =>
  (mk_wstate (<[l := add (heap st !!! l) t]> (heap st)) (autoinc st), Some tt).

(** [make_autoinc_id(prefix)] on the global counters. *)
Definition autoinc_id (prefix : string) : M string := fun st =>
  let '(id, c) := make_autoinc_id prefix (autoinc st) in (mk_wstate (heap st) c, Some id).

(** [d[k]]: [KeyError] when [k] is missing. *)
Definition dict_get (ps : list (term * term)) (k : term) : M term :=
  match dict_of ps k with Some v => mret v | None => raise end.

Fixpoint mfor {A} (l : list A) (f : A -> M unit) : M unit :=
  match l with
  | [] => mret tt
  | x :: l' => f x;; mfor l' f
  end.

(** The body of the loop of [infer_works] for one Expression [exp]. *)
Definition infer_work (lin lout : nat) (exp : term) : M unit :=
  graph ← get_graph lin;
  let sources := path_objects graph exp in
  if bool_decide (sources = []) && bool_decide (value graph exp R3i_realises = None) then
    let skip := objects graph exp SKIP in
    if bool_decide (skip <> []) then mret tt else
    let propsdict := predicate_objects graph exp in
    let f2_id := get_id_from_uri (term_str exp) in
    f2_label ← dict_get propsdict RDFS_label;
    let f1_id := replace1 "F2_" "F1_" f2_id in
    let f1_label := replace1 "F2" "F1" (term_str f2_label) in
    let f27_id := replace1 "F2_" "F27_" f2_id in
    let f27_label := replace1 "F2" "F27" (term_str f2_label) in
    let f28_id := replace1 "F2_" "F28_" f2_id in
    let f1 := Iri (lkg f1_id) in
    let f2 := Iri (lkg f2_id) in
    let f27 := Iri (lkg f27_id) in
    let f28 := Iri (lkg f28_id) in
    gadd lout (f1, RDF_type, F1_Work);;
    gadd lout (f1, RDFS_label, Lit f1_label);;
    mfor copyprops (fun p => v ← dict_get propsdict p; gadd lout (f1, p, v));;
    n ← autoinc_id "F1";
    gadd lout (f1, ORDERLABEL, TypedLit (default EmptyString (last (py_split "_" n))) XSD_float);;
    gadd lout (f1, R3_is_realised_in, f2);;
    gadd lout (f2, R3i_realises, f1);;
    gadd lout (f28, R19_created_a_realisation_of, f1);;
    gadd lout (f1, R19i_was_realised_through, f28);;
    gadd lout (f27, RDF_type, F27_Work_Creation);;
    gadd lout (f27, RDFS_label, Lit f27_label);;
    gadd lout (f27, R16_created, f1);;
    gadd lout (f1, R16i_was_created_by, f27);;
    mfor (predicate_objects graph f28) (fun '(p, v) =>
      if bool_decide (p ∈ authorprops) then gadd lout (f27, p, v) else mret tt);;
    let derivatives := path_subjects graph exp in
    mfor derivatives (fun d =>
      gadd lout (f1, R3_is_realised_in, d);;
      gadd lout (d, R3i_realises, f1);;
      (* [g.add((None, ...))] fails rdflib's assertion on the subject *)
      match value graph d R17i_was_created_by with
      | None => raise
      | Some d_f28 =>
        gadd lout (d_f28, R19_created_a_realisation_of, f1);;
        gadd lout (f1, R19i_was_realised_through, d_f28)
      end)
  else mret tt.

(** [infer_works(graph)] with [graph] at location [lin]: the loop reads
    the subjects of [rdf:type F2_Expression] of [graph], which the loop
    does not write. *)
Definition infer_works (lin : nat) : M nat :=
  lout ← new_graph;
  graph ← get_graph lin;
  mfor (subjects graph RDF_type F2_Expression) (infer_work lin lout);;
  mret lout.

(** [graph += gw] *)
Definition graph_iadd (l r : nat) : M unit := fun st =>
  (mk_wstate (<[l := add_all (heap st !!! l) (heap st !!! r)]> (heap st)) (autoinc st), Some tt).

(** [gw = infer_works(graph); graph += gw], as in [build_graph]. *)
Definition infer_and_merge (lin : nat) : M nat :=
  lout ← infer_works lin;
  graph_iadd lin lout;;
  mret lout.

(** [remove_tempflags(graph)]: rdflib's memory store iterates over a copy
    of the matching triples, so the loop removes each [SKIP] triple
    present when it starts. *)
Definition remove_tempflags (g : graph term) : graph term :=
  foldl remove g (filter (fun t : triple term => t.1.2 = SKIP) g).

(** Reasoning about heap actions.  [spec_M P m]: every run of [m], raising
    or not, relates its start and end states by [P].  [hoare P m Q]: a run
    from a state satisfying [P] that returns ends in a state satisfying [Q]. *)
Definition spec_M {A} (P : wstate -> wstate -> Prop) (m : M A) : Prop :=
  forall st st' r, m st = (st', r) -> P st st'.
Definition hoare {A} (P : wstate -> Prop) (m : M A) (Q : wstate -> Prop) : Prop :=
  forall st st' a, P st -> m st = (st', Some a) -> Q st'.

(** A triple that does not give a node the type [F2_Expression]. *)
Definition not_f2_type (t : triple term) : Prop :=
  t.1.2 = RDF_type -> t.2 <> F2_Expression.

(** Only the graph at [lout] changes; it only grows, by triples that type
    no node as an Expression. *)
Definition writes_only (lout : nat) (st st' : wstate) : Prop :=
  length (heap st') = length (heap st) /\
  (forall l, l <> lout -> heap st' !! l = heap st !! l) /\
  heap st !!! lout ⊆ heap st' !!! lout /\
  (forall t, t ∈ heap st' !!! lout -> t ∈ heap st !!! lout \/ not_f2_type t).

(** The loop body of [infer_works] leaves [e] alone on graph [g]: [e] has
    a source, realises a Work already, or carries the [SKIP] mark. *)
Definition work_skipped (g : graph term) (e : term) : Prop :=
  path_objects g e <> [] \/ value g e R3i_realises <> None \/ objects g e SKIP <> [].

(** Every Expression of [g] is an IRI that [LKG[get_id_from_uri(e)]]
    gives back. *)
Definition lkg_expressionsb (g : graph term) : bool :=
  forallb (fun e => match e with
                    | Iri u => bool_decide (lkg (get_id_from_uri u) = u)
                    | _ => false
                    end) (subjects g RDF_type F2_Expression).

(** Expressions [F2_n] with a label and every copied property. *)
Definition expr (n : string) : term := Iri (lkg ("F2_" ++ n)).
Definition expr_props (n : string) : graph term :=
  [(expr n, RDF_type, F2_Expression); (expr n, RDFS_label, Lit ("F2 " ++ n))] ++
  ((fun p => (expr n, p, Lit ("v" ++ n))) <$> copyprops).

(** [F2_3] is a translation of [F2_1] and a derivative of [F2_2], both
    roots; [F2_3] has its creation [F28_3]. *)
Definition two_sources : graph term :=
  expr_props "1" ++ expr_props "2" ++ expr_props "3" ++
  [(expr "3", Iri S761_is_translation_of, expr "1");
   (expr "3", Iri R76_is_derivative_of, expr "2");
   (expr "3", R17i_was_created_by, Iri (lkg "F28_3"))]%string.

(** The state with [two_sources] at location 0 and fresh counters. *)
Definition two_sources_state : wstate := mk_wstate [two_sources] ∅.

(** Authorship propagation as in [add_authorship]: [S142_written_by] a person. *)
Definition written_by : tnode := TRel "S142_written_by"%string.
Definition person_P7 : tnode := TRel "E21_P7"%string.

(** The chain root -> [0] -> [0;0], where [0] already carries the mark. *)
Definition premarked_chain : graph tnode :=
  tree_graph 1 2 ++ [(TNode [0], written_by, person_P7)].

Example tree_graph_2_2 :
  tree_graph 2 2 =
  [(TNode [], has_component, TNode [0]); (TNode [], has_component, TNode [1]);
   (TNode [0], has_component, TNode [0; 0]); (TNode [0], has_component, TNode [0; 1]);
   (TNode [1], has_component, TNode [1; 0]); (TNode [1], has_component, TNode [1; 1])].
Proof. reflexivity. Qed.

Example propagate_tree_2_2 :
  propagate_through_prop has_component (TRel "S142"%string) (TRel "P0"%string) None 10
    (tree_graph 2 2) (TNode []) =
  Some (Done (tree_graph 2 2 ++
    [(TNode [1], TRel "S142"%string, TRel "P0"%string); (TNode [1; 1], TRel "S142"%string, TRel "P0"%string);
     (TNode [1; 0], TRel "S142"%string, TRel "P0"%string); (TNode [0], TRel "S142"%string, TRel "P0"%string);
     (TNode [0; 1], TRel "S142"%string, TRel "P0"%string); (TNode [0; 0], TRel "S142"%string, TRel "P0"%string)])).
Proof. reflexivity. Qed.


(* ===================================================================== *)
(** ** Name and range helpers of scripts/utils.py *)
(* ===================================================================== *)

(** [str.split(sep, 1)] for a separator of any length. *)
Definition py_split_once (sep s : string) : list string :=
  match py_split sep s with
  | [] => [s]
  | [w] => [w]
  | w :: ws => [w; String.concat sep ws]
  end.

(** [str.upper()] and [str.lower()] on ASCII letters; other characters
    are kept. *)
Definition ascii_upper (a : ascii) : ascii :=
  let n := nat_of_ascii a in
  if (97 <=? n)%nat && (n <=? 122)%nat then ascii_of_nat (n - 32) else a.
Definition ascii_lower (a : ascii) : ascii :=
  let n := nat_of_ascii a in
  if (65 <=? n)%nat && (n <=? 90)%nat then ascii_of_nat (n + 32) else a.
Fixpoint py_upper (s : string) : string :=
  match s with EmptyString => EmptyString | String a s' => String (ascii_upper a) (py_upper s') end.
Fixpoint py_lower (s : string) : string :=
  match s with EmptyString => EmptyString | String a s' => String (ascii_lower a) (py_lower s') end.

(** [expand_range(src)]; [None] when it raises: the tuple unpacking of
    [bounds[0].rsplit(".", 1)], the index [[1]] of
    [bounds[1].rsplit(".", 1)], or [int()]. *)
Definition expand_range (src : string) : option (list string) :=
  if negb (str_contains range_sign src) then Some [src] else
  let bounds := py_split_once range_sign src in
  match py_rsplit1 "."%char (hd EmptyString bounds) with
  | [mainid; firstpart] =>
    match py_rsplit1 "."%char (nth 1 bounds EmptyString) with
    | [_; lastpart] =>
      f ← py_int firstpart;
      l ← py_int lastpart;
      Some (map (fun subid => (mainid ++ "." ++ Z_to_string subid)%string) (z_range f l))
    | _ => None
    end
  | _ => None
  end.

(** [is_same_name(a, b)]. *)
Definition is_same_name (a b : string) : bool :=
  let anorm := py_strip (py_upper a) in
  let bnorm := py_strip (py_upper b) in
  if String.eqb anorm bnorm then true else
  if negb (xorb (ends_with_char "."%char anorm) (ends_with_char "."%char bnorm)) then false else
  let ini := if ends_with_char "."%char anorm then anorm else bnorm in
  let full := if ends_with_char "."%char anorm then bnorm else anorm in
  if (String.length full <? String.length ini)%nat then false else
  String.eqb (substring 0 (String.length ini - 1) ini) (substring 0 (String.length ini - 1) full).

(** [langmap: dict[str, str | None]]. *)
Abbreviation langmap := (gmap string (option string)).

(** [verify_lang(lang, langmap)]: [None] for the [KeyError]. *)
Definition verify_lang (lang : string) (lm : langmap) : option (option string) := lm !! lang.

(** The dictionary built by [make_namedict]: keys [str | None] with their
    lists, in insertion order. *)
Definition namedict : Type := list (option string * list (list string)).

(** [result[k].append(x)] when [k in result.keys()], else [result[k] = [x]]. *)
Definition nd_add (r : namedict) (k : option string) (x : list string) : namedict :=
  if bool_decide (k ∈ r.*1)
  then (fun '(k', v) => if bool_decide (k' = k) then (k', v ++ [x]) else (k', v)) <$> r
  else r ++ [(k, [x])].

(** [split = re.split(r" \(", y)]: [alias = split[0]], and the codes [langs]. *)
Definition name_alias (y : string) : string := hd EmptyString (py_split " (" y).
Definition name_langs (y : string) : list string :=
  match py_split " (" y with
  | _ :: s1 :: _ => py_split "," (rstrip_by (fun a => Ascii.eqb a ")"%char) s1)
  | _ => []
  end.

(** [make_namedict(person_names, langmap)]; [None] for the [KeyError] of
    [verify_lang]. *)
Definition make_namedict (person_names : list string) (lm : langmap) : option namedict :=
  let result : namedict := [(Some "NOLANG"%string, [])] in
  match person_names with
  | [] => Some result
  | _ =>
    fold_opt (fun result y =>
      let alias := name_alias y in
      let langs := name_langs y in
      result ← fold_opt (fun result l =>
                 l' ← verify_lang l lm; Some (nd_add result l' [alias])) result langs;
      Some (if bool_decide (langs = []) then nd_add result (Some "NOLANG"%string) [alias] else result))
      result person_names
  end.

(** [namedict[k]], or [[]] for a missing key. *)
Definition nd_lookup (r : namedict) (k : option string) : list (list string) :=
  default [] (snd <$> List.find (fun '(k', _) => bool_decide (k' = k)) r).

(* ===================================================================== *)
(** ** Reference links of [add_nonfic] *)
(* ===================================================================== *)

(** The values of [REFCHARS]: the string ["SKIP"] or a relation. *)
Inductive refchar := RSkip | RRel (p : term).

(** [REFCHARS.get(c)]. *)
Definition REFCHARS (c : ascii) : option refchar :=
  if Ascii.eqb c "-"%char then Some RSkip
  else if Ascii.eqb c ">"%char then Some (RRel (Iri S763_is_reduced_form_of))
  else if Ascii.eqb c "<"%char then Some (RRel (Iri S764_is_extended_form_of))
  else if Ascii.eqb c "!"%char then Some (RRel (Iri S762_is_altered_form_of))
  else None.

(** [s[:-1]]. *)
Definition drop_last (s : string) : string := substring 0 (String.length s - 1) s.

(** The loop [while not ref[-1].isdigit():].  [None] for the [IndexError]
    of [ref[-1]] once [ref] is empty, [Some None] for the [break] on a
    ["SKIP"] character, otherwise the relations collected and what is left
    of [ref].  Each turn shortens [ref]: [length ref + 1] turns suffice. *)
Fixpoint strip_refchars (fuel : nat) (ref : string) (preciserels : list term)
    : option (option (list term * string)) :=
  match fuel with
  | O => None
  | S f =>
    match last_char ref with
    | None => None
    | Some c =>
      if is_digit c then Some (Some (preciserels, ref))
      else match REFCHARS c with
           | Some RSkip => Some None
           | Some (RRel pr) => strip_refchars f (drop_last ref) (preciserels ++ [pr])
           | None => strip_refchars f (drop_last ref) preciserels
           end
    end
  end.

(** [Literal(True)]. *)
Definition Literal_true : term := TypedLit "true" (xsd "boolean").

(** The body of [for ref in row["refs_normal"].split():] in [add_nonfic]
    for the Expression [f2_uri]: the triples it adds, in order, or [None]
    when it raises ([ref[-1]] on an empty string, or [.group()] on a failed
    [re.match]). *)
Definition ref_links (f2_uri nfprefix lang ref : string) : option (list (triple term)) :=
  match strip_refchars (S (String.length ref)) ref [] with
  | None => None
  | Some None => Some [(Iri (lkg f2_uri), SKIP, Literal_true)]
  | Some (Some (preciserels, ref)) =>
    preciserels ←
      (if String.prefix nfprefix ref then
         nextprefix ← match_letters (substring (String.length nfprefix) (String.length ref) ref);
         Some (if String.eqb nextprefix lang then preciserels
               else preciserels ++ [Iri S761_is_translation_of])
       else Some preciserels);
    let src_uri := ("F2_" ++ ref)%string in
    Some (map (fun pr => (Iri (lkg f2_uri), pr, Iri (lkg src_uri))) preciserels ++
          if bool_decide (preciserels = []) then
            [(Iri (lkg f2_uri), Iri R76_is_derivative_of, Iri (lkg src_uri))]
          else [])
  end.

(* ===================================================================== *)
(** ** Appellations, time spans and person names: [add_appellation],
       [add_timespan], [add_people] *)
(* ===================================================================== *)

Definition E41_Appellation : term := Iri (cidoc "E41_Appellation").
Definition E42_Identifier : term := Iri (cidoc "E42_Identifier").
Definition E35_Title : term := Iri (cidoc "E35_Title").
Definition E52_Time_Span : term := Iri (cidoc "E52_Time_Span").
Definition P1_is_identified_by : term := Iri (cidoc "P1_is_identified_by").
Definition P1i_identifies : term := Iri (cidoc "P1i_identifies").
Definition P102_has_title : term := Iri (cidoc "P102_has_title").
Definition P102i_is_title_of : term := Iri (cidoc "P102i_is_title_of").
Definition P190_has_symbolic_content : term := Iri (cidoc "P190_has_symbolic_content").
Definition P2_has_type : term := Iri (cidoc "P2_has_type").
Definition P72_has_language : term := Iri (cidoc "P72_has_language").
Definition P139_has_alternative_form : term := Iri (cidoc "P139_has_alternative_form").
Definition P4_has_time_span : term := Iri (cidoc "P4_has_time_span").
Definition P82a_begin_of_the_begin : term := Iri (cidoc "P82a_begin_of_the_begin").
Definition P82b_end_of_the_end : term := Iri (cidoc "P82b_end_of_the_end").
Definition XSD_gYear : string := xsd "gYear".

(** [APPMAP_PREDICATE[c]] and [APPMAP_INVERSE_PREDICATE[c]]; [None] for
    the [KeyError]. *)
Definition APPMAP_PREDICATE (c : term) : option term :=
  if bool_decide (c = E41_Appellation) then Some P1_is_identified_by
  else if bool_decide (c = E42_Identifier) then Some P1_is_identified_by
  else if bool_decide (c = E35_Title) then Some P102_has_title
  else None.
Definition APPMAP_INVERSE_PREDICATE (c : term) : option term :=
  if bool_decide (c = E41_Appellation) then Some P1i_identifies
  else if bool_decide (c = E42_Identifier) then Some P1i_identifies
  else if bool_decide (c = E35_Title) then Some P102i_is_title_of
  else None.

(** An argument typed [URIRef | str]: a full IRI, or a local ID that the
    code places in the LKG namespace ([LKG[id]]). *)
Inductive uref := URef (u : string) | LocalId (id : string).

Definition uref_term (r : uref) : term :=
  match r with URef u => Iri u | LocalId id => Iri (lkg id) end.

(** The truth value of such an argument: both are strings. *)
Definition uref_truthy (r : uref) : bool :=
  match r with URef u | LocalId u => negb (String.eqb u EmptyString) end.

(** The truth value of a label read from a graph ([if tlab:]): the labels
    of this code are string literals, false when empty. *)
Definition term_truthy (t : term) : bool := negb (String.eqb (term_str t) EmptyString).

(** [s.replace(c, d)] for characters. *)
Fixpoint replace_char (c d : ascii) (s : string) : string :=
  match s with
  | EmptyString => EmptyString
  | String a s' => String (if Ascii.eqb a c then d else a) (replace_char c d s')
  end.

(** [x if x else y] for an optional string argument. *)
Definition or_str (x : option string) (y : string) : string :=
  match x with Some s => if String.eqb s EmptyString then y else s | None => y end.

(** Raising on [None]. *)
Definition of_option {A} (o : option A) : M A :=
  match o with Some a => mret a | None => raise end.

(** [add_appellation(graph, subject, appel_value, ...)] on the graph at
    location [lg]; [refgraph] is a location as well.  [lang_detector] maps
    a text to the [iso_code_639_3.name] of the language it detects, if
    any.  The warning printed for a type without label is not modelled. *)
Definition add_appellation (lg : nat) (subject appel_value : string)
    (appel_type appel_label : option string) (appel_class : term)
    (has_types : list uref) (has_language : option uref)
    (lang_detector : option (string -> option string)) (refgraph : option nat) : M string :=
  uri ← autoinc_id (get_class_prefix (get_id_from_uri (term_str appel_class)));
  let label := (hd EmptyString (py_split "_" uri) ++ " " ++ or_str appel_label appel_value)%string in
  graph ← get_graph lg;
  refg ← match refgraph with Some lr => get_graph lr | None => mret graph end;
  (* [refgraph = refgraph or graph]: a graph without triples is false *)
  let refgraph := match refg with [] => graph | _ => refg end in
  let objs_type := uref_term <$> has_types in
  let typelabels := (fun i =>
        match value refgraph i UILABEL with
        | Some tlab => if term_truthy tlab then term_str tlab
                       else replace_char "_" " " (get_id_from_uri (term_str i))
        | None => replace_char "_" " " (get_id_from_uri (term_str i))
        end) <$> objs_type in
  let label := (label ++ if bool_decide (has_types = []) then EmptyString
                         else " [" ++ String.concat ", " typelabels ++ "]")%string in
  let detect :=
    match lang_detector with
    | Some d =>
        if negb (default false (uref_truthy <$> has_language)) &&
           bool_decide (appel_class = E41_Appellation) then Some d else None
    | None => None
    end in
  let label := match detect with
               | Some _ => (label ++ " # LANGUAGE AUTO-DETECTED")%string
               | None => label end in
  let has_language := match detect with
                      | Some d => (fun n => LocalId ("E56_" ++ py_lower n)) <$> d appel_value
                      | None => has_language end in
  gadd lg (Iri (lkg uri), RDF_type, appel_class);;
  gadd lg (Iri (lkg uri), RDFS_label, Lit label);;
  inv ← of_option (APPMAP_INVERSE_PREDICATE appel_class);
  gadd lg (Iri (lkg uri), inv, Iri (lkg subject));;
  let val := match appel_type with
             | Some dt => TypedLit appel_value dt
             | None => Lit appel_value end in
  gadd lg (Iri (lkg uri), P190_has_symbolic_content, val);;
  pred ← of_option (APPMAP_PREDICATE appel_class);
  gadd lg (Iri (lkg subject), pred, Iri (lkg uri));;
  mfor objs_type (fun i => gadd lg (Iri (lkg uri), P2_has_type, i));;
  match has_language with
  | Some l => if uref_truthy l then gadd lg (Iri (lkg uri), P72_has_language, uref_term l)
              else mret tt
  | None => mret tt
  end;;
  mret uri.

(** [add_timespan(graph, subject, subject_label, date, yid)] on the graph
    at location [lg].  [Literal(date, datatype=XSD.gYear)] of the integer
    [date] has the lexical form [str(date)]. *)
Definition add_timespan (lg : nat) (subject subject_label date : string) (yid : option string)
    : M string :=
  uri ← autoinc_id "E52";
  date ← of_option (py_int date);
  gadd lg (Iri (lkg uri), RDF_type, E52_Time_Span);;
  gadd lg (Iri (lkg uri), RDFS_label,
    Lit ("E52 " ++ subject_label ++
         match yid with
         | Some y => if String.eqb y EmptyString then EmptyString else " (YID: " ++ y ++ ")"
         | None => EmptyString
         end)%string);;
  gadd lg (Iri (lkg uri), P82a_begin_of_the_begin, TypedLit (Z_to_string date) XSD_gYear);;
  gadd lg (Iri (lkg uri), P82b_end_of_the_end, TypedLit (Z_to_string date) XSD_gYear);;
  gadd lg (Iri (lkg subject), P4_has_time_span, Iri (lkg uri));;
  mret uri.

(** [[f(x) for x in l]] with an action [f]. *)
Fixpoint mmap {A B} (f : A -> M B) (l : list A) : M (list B) :=
  match l with
  | [] => mret []
  | x :: l' => b ← f x; bs ← mmap f l'; mret (b :: bs)
  end.

(** [enumerate(l)]. *)
Definition enumerate {A} (l : list A) : list (nat * A) := zip (seq 0 (length l)) l.

(** The body of [for variants in variantslist:] in [add_people] for the
    person [uri] with YID [yid] and language [lang_uri]; it returns the
    list [appellations] it builds. *)
Definition add_variants (lg : nat) (uri yid : string) (lang_uri : option string)
    (lang_detector : option (string -> option string)) (variants : list string)
    : M (list string) :=
  appellations ← mmap (fun variant =>
      gadd lg (Iri (lkg uri), SEARCHLABEL, Lit variant);;
      add_appellation lg uri variant None (Some (variant ++ " (YID: " ++ yid ++ ")")%string)
        E41_Appellation [] (LocalId <$> lang_uri) lang_detector None) variants;
  mfor (enumerate appellations) (fun '(i, ai) =>
    mfor (enumerate appellations) (fun '(j, aj) =>
      if bool_decide (i <> j) then
        gadd lg (Iri (lkg ai), P139_has_alternative_form, Iri (lkg aj));;
        gadd lg (Iri (lkg aj), P139_has_alternative_form, Iri (lkg ai))
      else mret tt));;
  mret appellations.

(* ===================================================================== *)
(** ** Authorships: [add_authorships] *)
(* ===================================================================== *)

Definition R5_has_component_t : term := Iri R5_has_component.
Definition R5i_is_component_of_t : term := Iri R5i_is_component_of.
Definition S142_written_by : term := Iri (lkg "S142_written_by").
Definition S143_translated_by : term := Iri (lkg "S143_translated_by").

(** [graph.predicates(subject=s)]. *)
Definition predicates_of (g : graph term) (s : term) : list term :=
  omap (fun '(s', p, _) => if bool_decide (s' = s) then Some p else None) g.

(** The body of [for ref in refs:] in [add_authorships] for the person
    [uri]: [Done] with the graph after it, or [Raised].  The bound on the
    recursion of [propagate_through_prop] is the one shown sufficient. *)
Definition add_authorship (g : graph term) (uri ref : string) : option (outcome term) :=
  let f2 := Iri (lkg ("F2_" ++ ref)) in
  let f28 := Iri (lkg ("F28_" ++ ref)) in
  let person := Iri (lkg uri) in
  let prop := if bool_decide (Iri S761_is_translation_of ∈ predicates_of g f2) &&
                 negb (String.eqb uri "E21_P0")
              then S143_translated_by else S142_written_by in
  (* [if not (f28, prop, person) in graph: graph.add(...)] *)
  let g := add g (f28, prop, person) in
  match propagate_through_prop R5i_is_component_of_t prop person (Some R17i_was_created_by)
          (propagate_fuel g) g f2 with
  | Some (Done g1) =>
      propagate_through_prop R5_has_component_t prop person (Some R17i_was_created_by)
        (propagate_fuel g1) g1 f2
  | r => r
  end.

(** [add_authorships(graph, df)] with the rows [(yid_lkg, refs_normal)]
    of [df]. *)
Definition add_authorships (g : graph term) (rows : list (string * list string))
    : option (outcome term) :=
  foldl (fun acc '(yid, refs) =>
    foldl (fun acc ref =>
      match acc with
      | Some (Done g) => add_authorship g ("E21_" ++ yid) ref
      | r => r
      end) acc refs) (Some (Done g)) rows.

(* ===================================================================== *)
(** ** Derivative propagation along the component tree:
       [gather_up_derivatives] and [gather_down_derivatives] *)
(* ===================================================================== *)

(** [graph.subject_objects(p, unique=True)]. *)
Definition subject_objects (g : graph term) (p : term) : list (term * term) :=
  remove_dups (omap (fun '(s, p', o) => if bool_decide (p' = p) then Some (s, o) else None) g).

(** [graph.objects(s, R5_has_component * OneOrMore, unique=True)]. *)
Definition component_descendants (g : graph term) (s : term) : list term :=
  reach (path_fuel g) (fun x => objects g x R5_has_component_t) (objects g s R5_has_component_t) [].

(** [gather_down_derivatives(graph)]: the new graph it returns. *)
Definition gather_down_derivatives (g : graph term) : graph term :=
  foldl (fun rg drel =>
    foldl (fun rg '(s, o) =>
      foldl (fun rg c => add (add rg (c, drel, o)) (c, Iri S763_is_reduced_form_of, o))
        rg (component_descendants g s))
      rg (subject_objects g drel))
    [] derivpath_rels.

(** [_gather_up_derivatives(graph, sender_node, resultGraph)]: the returned
    [relations] and [resultGraph] after the call.  [fuel] bounds the depth
    of the recursion; [None] means the bound was reached. *)
Fixpoint gather_up_rec (fuel : nat) (g : graph term) (sender_node : term) (rg : graph term)
    : option (list (triple term) * graph term) :=
  match fuel with
  | O => None
  | S f =>
    rg ← fold_opt (fun rg child =>
           '(child_relations, rg) ← gather_up_rec f g child rg;
           Some (foldl (fun rg '(_, p, o) =>
                   let obj := match value g o R5i_is_component_of_t with
                              | Some x => x | None => o end in
                   add rg (sender_node, p, obj)) rg child_relations))
         rg (objects g sender_node R5_has_component_t);
    Some (List.concat ((fun drel =>
            filter (fun t : triple term => t.1.1 = sender_node /\ t.1.2 = drel) g) <$> derivpath_rels),
          rg)
  end.

(** [gather_up_derivatives(graph)]: the new graph it returns. *)
Definition gather_up_derivatives (fuel : nat) (g : graph term) : option (graph term) :=
  fold_opt (fun rg s =>
    match value g s R5i_is_component_of_t with
    | Some _ => Some rg
    | None => snd <$> gather_up_rec fuel g s rg
    end) [] (subjects_of g R5_has_component_t).



(* ===================================================================== *)
(** ** Predicates used by the lemmas on these scripts *)
(* ===================================================================== *)

(** [c] does not occur in [s]. *)
Definition no_char (c : ascii) (s : string) : bool := str_forallb (fun a => negb (Ascii.eqb a c)) s.

(** The list stored under the key [k] of a [namedict], if any. *)
Definition nd_find (r : namedict) (k : option string) : option (list (list string)) :=
  snd <$> List.find (fun '(k', _) => bool_decide (k' = k)) r.

(** Characters a reference may end with besides its digits: no digit and no '-'. *)
Definition ref_suffix_char (a : ascii) : bool := negb (is_digit a) && negb (Ascii.eqb a "-").

(** The relations [REFCHARS] maps characters to. *)
Definition refchar_rels : list term :=
  [Iri S763_is_reduced_form_of; Iri S764_is_extended_form_of; Iri S762_is_altered_form_of].

(** The graph at [lg] grows by the triples [ts], added in order. *)
Definition adds (lg : nat) (ts : list (triple term)) (st st' : wstate) : Prop :=
  heap st' = <[lg := foldl add (heap st !!! lg) ts]> (heap st) /\ autoinc st' = autoinc st.

(** Only the graph at [lg] changes, and it keeps its triples. *)
Definition grows (lg : nat) (st st' : wstate) : Prop :=
  length (heap st') = length (heap st) /\
  (forall l, l <> lg -> heap st' !! l = heap st !! l) /\
  heap st !!! lg ⊆ heap st' !!! lg.

(** The body of [for variant in variants:] in [add_people]. *)
Definition variant_step (lg : nat) (uri yid : string) (lang_uri : option string)
    (lang_detector : option (string -> option string)) (variant : string) : M string :=
  gadd lg (Iri (lkg uri), SEARCHLABEL, Lit variant);;
  add_appellation lg uri variant None (Some (variant ++ " (YID: " ++ yid ++ ")")%string)
    E41_Appellation [] (LocalId <$> lang_uri) lang_detector None.

(** The triples the inner loop of the [P139_has_alternative_form] links
    adds for the appellation [ai] at index [i]. *)
Definition p139_pairs (apps : list string) (x : nat * string) : list (triple term) :=
  let '(i, ai) := x in
  List.concat ((fun '(j, aj) =>
      if bool_decide (i <> j)
      then [(Iri (lkg ai), P139_has_alternative_form, Iri (lkg aj));
            (Iri (lkg aj), P139_has_alternative_form, Iri (lkg ai))]
      else []) <$> enumerate apps).

(** The triples an authorship run may append for the person [person]. *)
Definition authorship_triple (person : term) (t : triple term) : Prop :=
  (t.1.2 = S142_written_by \/ t.1.2 = S143_translated_by) /\ t.2 = person.

(** The state of [add_authorships] after some of the rows: it has not run
    out of fuel, and a normal state extends [g] by authorship triples. *)
Definition authorships_inv (g : graph term) (rows : list (string * list string))
    (acc : option (outcome term)) : Prop :=
  exists g', acc = Some (Done g') /\
    exists Y, g' = g ++ Y /\
      forall t, t ∈ Y -> exists yid refs ref, (yid, refs) ∈ rows /\ ref ∈ refs /\
        authorship_triple (Iri (lkg ("E21_" ++ yid))) t.

(** One step down the component tree. *)
Definition component_edge (g : graph term) (a b : term) : Prop := (a, R5_has_component_t, b) ∈ g.

(** A triple [gather_up_derivatives] may produce: the parent [t.1.1] of a
    component [child] takes over a derivative relation of [child], aimed
    at the parent of its object when that object has one. *)
Definition up_sound (g : graph term) (t : triple term) : Prop :=
  exists child o, (t.1.1, R5_has_component_t, child) ∈ g /\ t.1.2 ∈ derivpath_rels /\
    (child, t.1.2, o) ∈ g /\ t.2 = default o (value g o R5i_is_component_of_t).

(** Every triple of [rg'] is in [rg] or is such a triple. *)
Definition up_frame (g : graph term) (rg rg' : graph term) : Prop :=
  forall t, t ∈ rg' -> t ∈ rg \/ up_sound g t.

(** One empty graph at location 0 and fresh counters. *)
Definition one_graph_state : wstate := mk_wstate [[]] ∅.

(** [F2_A] has the component [F2_A1], itself with the component [F2_A2];
    [F2_A1] derives from [F2_B1], a component of [F2_B]. *)
Definition component_test_graph : graph term :=
  [(Iri (lkg "F2_A"), R5_has_component_t, Iri (lkg "F2_A1"));
   (Iri (lkg "F2_A1"), R5_has_component_t, Iri (lkg "F2_A2"));
   (Iri (lkg "F2_A"), Iri R76_is_derivative_of, Iri (lkg "F2_B"));
   (Iri (lkg "F2_A1"), Iri R76_is_derivative_of, Iri (lkg "F2_B1"));
   (Iri (lkg "F2_B"), R5_has_component_t, Iri (lkg "F2_B1"));
   (Iri (lkg "F2_B1"), R5i_is_component_of_t, Iri (lkg "F2_B"))].


(* ===================================================================== *)
(** ** Lemmas on the store *)
(* ===================================================================== *)

Section StoreLemmas.
Context {V : Type} `{EqDecision V}.
Implicit Types (g : graph V) (s p o : V).

Lemma elem_of_objects g s p o : o ∈ objects g s p <-> (s, p, o) ∈ g.
Proof.
  unfold objects. rewrite list_elem_of_omap. split.
  - intros [[[s' p'] o'] [Hin Heq]]. case_bool_decide as Hc; [|done].
    destruct Hc as [-> ->]. by injection Heq as ->.
  - intros Hin. exists (s, p, o). split; [done|]. by rewrite bool_decide_true.
Qed.

Lemma value_elem g s p o : value g s p = Some o -> (s, p, o) ∈ g.
Proof.
  unfold value. intros H. apply elem_of_objects.
  destruct (objects g s p) as [|x l]; simpl in H; [done|]. injection H as ->. left.
Qed.

Lemma elem_of_nodes g x : x ∈ nodes g <-> exists s p o, (s, p, o) ∈ g /\ (x = s \/ x = p \/ x = o).
Proof.
  unfold nodes. rewrite list_elem_of_In, in_flat_map. setoid_rewrite <- list_elem_of_In. split.
  - intros [[[s p] o] [Hin Hx]]. exists s, p, o. split; [done|].
    revert Hx. simpl. rewrite !elem_of_cons, elem_of_nil. intuition.
  - intros (s & p & o & Hin & Hx). exists (s, p, o). split; [done|].
    simpl. rewrite !elem_of_cons. intuition.
Qed.

Lemma add_subseteq g t : g ⊆ add g t.
Proof. unfold add, has. case_bool_decide; [done|]. intros x Hx. set_solver. Qed.

Lemma elem_of_add g t u : u ∈ add g t <-> u ∈ g \/ u = t.
Proof.
  unfold add, has. case_bool_decide as Hc.
  - split; [auto|]. intros [H| ->]; done.
  - rewrite elem_of_app, list_elem_of_singleton. done.
Qed.
End StoreLemmas.

(* ===================================================================== *)
(** ** Termination of [propagate_through_prop] *)
(* ===================================================================== *)

Section PropagateTermination.
Context {V : Type} `{EqDecision V}.
Variables (hp pred obj : V) (nb : option V) (C : list V).

Lemma missing_marks_mono (g g' : graph V) :
  g ⊆ g' -> missing_marks pred obj C g' <= missing_marks pred obj C g.
Proof.
  intros Hsub. unfold missing_marks. induction C as [|c C' IH]; [done|].
  rewrite !filter_cons. case_decide as H1; case_decide as H2; simpl; try lia.
  exfalso. apply H1, Hsub. destruct (decide ((c, pred, obj) ∈ g)); [done|]. contradiction.
Qed.

Lemma missing_marks_add (g : graph V) (o : V) :
  o ∈ C -> (o, pred, obj) ∉ g ->
  missing_marks pred obj C (add g (o, pred, obj)) < missing_marks pred obj C g.
Proof.
  unfold missing_marks. intros HoC Hnot. induction C as [|c C' IH].
  - by apply elem_of_nil in HoC.
  - rewrite !filter_cons. apply elem_of_cons in HoC as [<-|HoC].
    + rewrite (decide_False (P := (o, pred, obj) ∉ add g (o, pred, obj))).
      2:{ intros H. apply H, elem_of_add. by right. }
      rewrite decide_True by done. simpl.
      pose proof (missing_marks_mono g (add g (o, pred, obj)) (add_subseteq _ _)) as Hm.
      unfold missing_marks in Hm.
      (* the tail measure cannot grow *)
      assert (length (filter (fun s => (s, pred, obj) ∉ add g (o, pred, obj)) C')
              <= length (filter (fun s => (s, pred, obj) ∉ g) C')).
      { clear IH Hm. induction C' as [|c' C'' IH']; [done|].
        rewrite !filter_cons. case_decide as H1; case_decide as H2; simpl; try lia.
        exfalso. apply H1, elem_of_add. left.
        destruct (decide ((c', pred, obj) ∈ g)); [done|]. contradiction. }
      lia.
    + specialize (IH HoC).
      case_decide as H1; case_decide as H2; simpl; try lia.
      exfalso. apply H1, elem_of_add. left.
      destruct (decide ((c, pred, obj) ∈ g)); [done|]. contradiction.
Qed.

Lemma nodes_add (g : graph V) (t : triple V) x :
  x ∈ nodes (add g t) -> x ∈ nodes g \/ x = t.1.1 \/ x = t.1.2 \/ x = t.2.
Proof.
  rewrite elem_of_nodes. intros (s & p & o & Hin & Hx).
  apply elem_of_add in Hin as [Hin| <-].
  - left. apply elem_of_nodes. eauto 10.
  - simpl. intuition.
Qed.

Lemma prop_ok_weaken (g g' : graph V) r :
  g ⊆ g' -> prop_ok C g' r -> prop_ok C g r.
Proof.
  intros Hsub. destruct r as [[g''|]|]; simpl; [|done|done].
  intros [HC Hs]. split; [done|]. by transitivity g'.
Qed.

Lemma propagate_loop_ok (rec : graph V -> V -> option (outcome V)) (n : nat) :
  pred ∈ C -> obj ∈ C ->
  (forall g s, (forall x, x ∈ nodes g -> x ∈ C) ->
     missing_marks pred obj C g < n -> prop_ok C g (rec g s)) ->
  forall linked g, (forall x, x ∈ linked -> x ∈ C) ->
    (forall x, x ∈ nodes g -> x ∈ C) -> missing_marks pred obj C g <= n ->
    prop_ok C g (propagate_loop pred obj nb rec g linked).
Proof.
  intros Hp Ho Hrec linked. induction linked as [|node rest IH]; intros g Hl HI Hm.
  - simpl. split; [done|]. reflexivity.
  - simpl.
    assert (Hnode : node ∈ C) by (apply Hl; left).
    assert (Hrest : forall x, x ∈ rest -> x ∈ C) by (intros x Hx; apply Hl; by right).
    destruct (match nb with None => Some node | Some np => value g node np end)
      as [o|] eqn:Hobj.
    + assert (HoC : o ∈ C).
      { destruct nb as [np|]; [|by injection Hobj as <-].
        apply value_elem in Hobj. apply HI, elem_of_nodes. eauto 10. }
      unfold has at 1. case_bool_decide as Hin; [by apply IH|].
      assert (HIadd : forall x, x ∈ nodes (add g (o, pred, obj)) -> x ∈ C).
      { intros x Hx. apply nodes_add in Hx as [Hx|[->|[->| ->]]]; auto. }
      pose proof (missing_marks_add g o HoC Hin) as Hlt.
      specialize (Hrec (add g (o, pred, obj)) node HIadd ltac:(lia)).
      destruct (rec (add g (o, pred, obj)) node) as [[g'|]|] eqn:Hr; simpl in Hrec |- *;
        [|done|done].
      destruct Hrec as [HI' Hsub].
      apply (prop_ok_weaken _ g'); [by transitivity (add g (o, pred, obj)); [apply add_subseteq|]|].
      apply IH; [done|done|].
      pose proof (missing_marks_mono _ _ Hsub). lia.
    + destruct (has_any_subject g pred obj); [by apply IH|done].
Qed.

Lemma propagate_ok (n : nat) :
  pred ∈ C -> obj ∈ C ->
  forall g s, (forall x, x ∈ nodes g -> x ∈ C) -> missing_marks pred obj C g < n ->
    prop_ok C g (propagate_through_prop hp pred obj nb n g s).
Proof.
  intros Hp Ho. induction n as [|n IH]; intros g s HI Hm; [lia|].
  simpl. apply (propagate_loop_ok _ n); [done|done| | |done|lia].
  - intros g' s' HI' Hm'. by apply IH.
  - intros x Hx. rewrite list_elem_of_In, <- in_rev, <- list_elem_of_In, elem_of_objects in Hx.
    apply HI, elem_of_nodes. eauto 10.
Qed.
End PropagateTermination.

(** [propagate_through_prop] returns (normally or by raising) within
    [propagate_fuel g] nested calls, on every finite graph. *)
Lemma propagate_terminates {V} `{EqDecision V} (hp pred obj : V) (nb : option V)
    (g : graph V) (src : V) :
  propagate_through_prop hp pred obj nb (propagate_fuel g) g src <> None.
Proof.
  set (C := pred :: obj :: nodes g).
  assert (Hok : prop_ok C g (propagate_through_prop hp pred obj nb (propagate_fuel g) g src)).
  { apply propagate_ok.
    - left.
    - right. left.
    - intros x Hx. by right; right.
    - unfold missing_marks, propagate_fuel.
      pose proof (length_filter (fun s => (s, pred, obj) ∉ g) C) as Hl.
      subst C. simpl in *. lia. }
  intros Hnone. by rewrite Hnone in Hok.
Qed.

(* ===================================================================== *)
(** ** [propagate_through_prop] only appends fresh target triples *)
(* ===================================================================== *)

Section PropagateAppends.
Context {V : Type} `{EqDecision V}.
Variables (hp pred obj : V) (nb : option V).

Lemma appended_refl (g : graph V) : appended pred obj g g.
Proof.
  exists []. rewrite app_nil_r. split; [done|]. split; [constructor|]. set_solver.
Qed.

Lemma appended_trans (g1 g2 g3 : graph V) :
  appended pred obj g1 g2 -> appended pred obj g2 g3 -> appended pred obj g1 g3.
Proof.
  intros (Y1 & -> & HN1 & H1) (Y2 & -> & HN2 & H2). exists (Y1 ++ Y2).
  rewrite app_assoc. split; [done|]. split.
  - apply NoDup_app. split; [done|]. split; [|done].
    intros t Ht1 Ht2. apply (H2 t Ht2). apply elem_of_app. by right.
  - intros t Ht. apply elem_of_app in Ht as [Ht|Ht]; [by apply H1|].
    destruct (H2 t Ht) as (Hn & Hp & Ho). split; [|done].
    intros Hin. apply Hn, elem_of_app. by left.
Qed.

Lemma appended_add (g : graph V) (o : V) :
  (o, pred, obj) ∉ g -> appended pred obj g (add g (o, pred, obj)).
Proof.
  intros Hn. unfold add, has. rewrite bool_decide_false by done.
  exists [(o, pred, obj)]. split; [done|]. split; [apply NoDup_singleton|].
  intros t Ht. apply list_elem_of_singleton in Ht as ->. done.
Qed.

Lemma propagate_loop_appends (rec : graph V -> V -> option (outcome V)) :
  (forall g s g', rec g s = Some (Done g') -> appended pred obj g g') ->
  forall linked g g', propagate_loop pred obj nb rec g linked = Some (Done g') ->
    appended pred obj g g'.
Proof.
  intros Hrec linked. induction linked as [|node rest IH]; intros g g' Hrun; simpl in Hrun.
  - injection Hrun as <-. apply appended_refl.
  - destruct (match nb with None => Some node | Some np => value g node np end) as [o|].
    + unfold has at 1 in Hrun. case_bool_decide as Hin; [by apply IH|].
      destruct (rec (add g (o, pred, obj)) node) as [[g1|]|] eqn:Hr; [|done|done].
      eapply appended_trans; [apply appended_add; exact Hin|].
      eapply appended_trans; [exact (Hrec _ _ _ Hr)|]. by apply IH.
    + destruct (has_any_subject g pred obj); [by apply IH|done].
Qed.

Lemma propagate_appends (n : nat) (g : graph V) (s : V) (g' : graph V) :
  propagate_through_prop hp pred obj nb n g s = Some (Done g') -> appended pred obj g g'.
Proof.
  revert g s g'. induction n as [|n IH]; intros g s g' Hrun; simpl in Hrun; [done|].
  eapply propagate_loop_appends; [|exact Hrun]. exact IH.
Qed.
End PropagateAppends.

(* ===================================================================== *)
(** ** Coverage of [propagate_through_prop] on a full tree *)
(* ===================================================================== *)

Lemma elem_of_paths (b k : nat) (p : list nat) :
  p ∈ paths b k <-> length p = k /\ Forall (fun i => i < b) p.
Proof.
  revert p. induction k as [|k IH]; intros p; simpl.
  - rewrite list_elem_of_singleton. split.
    + intros ->. done.
    + intros [Hl _]. by destruct p.
  - rewrite list_elem_of_In, in_flat_map. split.
    + intros (p' & Hp' & Hin). apply in_map_iff in Hin as (i & <- & Hi).
      apply in_seq in Hi. apply list_elem_of_In, IH in Hp' as [Hl HF].
      rewrite length_app. simpl. split; [lia|]. apply Forall_app. split; [done|].
      constructor; [lia|constructor].
    + intros [Hl HF]. destruct p as [|x p _] using rev_ind; [done|].
      rewrite length_app in Hl. simpl in Hl. apply Forall_app in HF as [HF Hx].
      inversion Hx; subst. exists p. split.
      * apply list_elem_of_In, IH. split; [lia|done].
      * apply in_map_iff. exists x. split; [done|]. apply in_seq. lia.
Qed.

Lemma elem_of_tree_graph (b d : nat) (x y z : tnode) :
  (x, y, z) ∈ tree_graph b d <->
  y = has_component /\ exists p i, x = TNode p /\ z = TNode (p ++ [i]) /\
    length p < d /\ Forall (fun j => j < b) p /\ i < b.
Proof.
  unfold tree_graph. rewrite list_elem_of_In, in_flat_map. split.
  - intros (k & Hk & Hin). apply in_seq in Hk. apply in_flat_map in Hin as (p & Hp & Hin).
    apply in_map_iff in Hin as (i & Heq & Hi). injection Heq as <- <- <-.
    apply in_seq in Hi. apply list_elem_of_In, elem_of_paths in Hp as [Hl HF].
    split; [done|]. exists p, i. repeat split; try done; lia.
  - intros (-> & p & i & -> & -> & Hl & HF & Hi). exists (length p). split.
    + apply in_seq. lia.
    + apply in_flat_map. exists p. split.
      * apply list_elem_of_In, elem_of_paths. done.
      * apply in_map_iff. exists i. split; [done|]. apply in_seq. lia.
Qed.

Section TreeCover.
Variables (b d : nat) (pred val : tnode).
Hypothesis Hpred : pred <> has_component.

Lemma mark_inj q q' : (TNode q, pred, val) = (TNode q', pred, val) -> q = q'.
Proof. by intros [= ->]. Qed.

Lemma elem_of_add_t (g : graph tnode) (t u : tnode * tnode * tnode) :
  u ∈ add g t <-> u ∈ g \/ u = t.
Proof. apply elem_of_add. Qed.

Lemma subtree_trans c q r : in_subtree b d c q -> in_subtree b d q r -> in_subtree b d c r.
Proof.
  intros (s & -> & Hl & HF) (s' & -> & Hl' & HF'). exists (s ++ s').
  rewrite app_assoc. split; [done|]. split; [done|]. by apply Forall_app.
Qed.

Lemma strict_subtree c q : strict_descendant b d c q -> in_subtree b d c q.
Proof. intros (s & _ & Hq & Hl & HF). by exists s. Qed.

Lemma hierarchy_add_mark g q :
  hierarchy_is_tree b d g -> hierarchy_is_tree b d (add g (TNode q, pred, val)).
Proof.
  intros Hh x z. etransitivity; [apply elem_of_add|]. split.
  - intros [H|H]; [by apply Hh|]. injection H as _ Hc _. by subst.
  - intros H. left. by apply Hh.
Qed.

Lemma hierarchy_marks g g' (P : list nat -> Prop) :
  hierarchy_is_tree b d g ->
  (forall t, t ∈ g' <-> t ∈ g \/ exists q, P q /\ t = (TNode q, pred, val)) ->
  hierarchy_is_tree b d g'.
Proof.
  intros Hh Hc x z. etransitivity; [apply Hc|]. split.
  - intros [H|(q & _ & Heq)]; [by apply Hh|]. injection Heq as _ Hc' _. by subst.
  - intros H. left. by apply Hh.
Qed.

Lemma cover_loop (p : list nat) (rec : graph tnode -> tnode -> option (outcome tnode)) :
  (forall c g, length p < d -> (exists i, i < b /\ c = p ++ [i]) ->
     hierarchy_is_tree b d g ->
     (forall q, strict_descendant b d c q -> (TNode q, pred, val) ∈ g ->
        forall r, in_subtree b d q r -> (TNode r, pred, val) ∈ g) ->
     exists g', rec g (TNode c) = Some (Done g') /\
       forall t, t ∈ g' <-> t ∈ g \/ exists q, strict_descendant b d c q /\ t = (TNode q, pred, val)) ->
  forall L g,
    (forall x, x ∈ L -> exists c, x = TNode c /\ length p < d /\ exists i, i < b /\ c = p ++ [i]) ->
    hierarchy_is_tree b d g ->
    (forall c q, TNode c ∈ L -> in_subtree b d c q -> (TNode q, pred, val) ∈ g ->
       forall r, in_subtree b d q r -> (TNode r, pred, val) ∈ g) ->
    exists g', propagate_loop pred val None rec g L = Some (Done g') /\
      forall t, t ∈ g' <-> t ∈ g \/
        exists c q, TNode c ∈ L /\ in_subtree b d c q /\ t = (TNode q, pred, val).
Proof.
  intros Hrec L. induction L as [|x L IH]; intros g HL Hh Hpre.
  - exists g. split; [done|]. intros t. split; [by left|].
    intros [H|(c & q & Hc & _)]; [done|]. by apply elem_of_nil in Hc.
  - destruct (HL x ltac:(left)) as (c & -> & Hpd & i & Hi & ->).
    assert (HL' : forall x, x ∈ L -> exists c, x = TNode c /\ length p < d /\
                    exists i, i < b /\ c = p ++ [i]) by (intros y Hy; apply HL; by right).
    assert (Hcself : in_subtree b d (p ++ [i]) (p ++ [i])).
    { exists []. rewrite app_nil_r, length_app. simpl. split; [done|]. split; [lia|constructor]. }
    simpl. unfold has at 1. case_bool_decide as Hin.
    + (* already marked: the whole subtree is marked, skip it *)
      destruct (IH g HL' Hh) as (g' & Hrun & Hchar).
      { intros c' q Hc' . apply Hpre. by right. }
      exists g'. split; [done|]. intros t. rewrite Hchar. split.
      * intros [H|(c' & q & Hc' & Hq & ->)]; [by left|]. right. exists c', q.
        split; [by right|done].
      * intros [H|(c' & q & Hc' & Hq & ->)]; [by left|].
        apply elem_of_cons in Hc' as [Hc'|Hc'].
        -- injection Hc' as ->. left. by apply (Hpre (p ++ [i]) (p ++ [i]) ltac:(left)).
        -- right. exists c', q. done.
    + set (g1 := add g (TNode (p ++ [i]), pred, val)).
      destruct (Hrec (p ++ [i]) g1 Hpd (ex_intro _ i (conj Hi eq_refl))
                  (hierarchy_add_mark g _ Hh)) as (g2 & Hrg & Hc2).
      { intros q Hq Hm r Hr. subst g1. apply elem_of_add_t in Hm as [Hm|Hm].
        - apply elem_of_add_t. left. apply (Hpre (p ++ [i]) q ltac:(left)); [|done|done].
          by apply strict_subtree.
        - apply mark_inj in Hm as ->. destruct Hq as (s & Hs & Hq & _).
          exfalso. apply Hs. rewrite <- (app_nil_r (p ++ [i])) in Hq at 1.
          symmetry. by apply app_inv_head in Hq. }
      rewrite Hrg.
      assert (Hh2 : hierarchy_is_tree b d g2).
      { eapply hierarchy_marks; [|exact Hc2]. apply hierarchy_add_mark, Hh. }
      assert (Hc2' : forall t, t ∈ g2 <-> t ∈ g \/
                 exists q, in_subtree b d (p ++ [i]) q /\ t = (TNode q, pred, val)).
      { intros t. rewrite Hc2. subst g1. rewrite elem_of_add_t. split.
        - intros [[H| ->]|(q & Hq & ->)]; [by left| |].
          + right. by exists (p ++ [i]).
          + right. exists q. split; [by apply strict_subtree|done].
        - intros [H|(q & (s & -> & Hl & HF) & ->)]; [by left; left|].
          destruct s as [|j s].
          + left. right. by rewrite app_nil_r.
          + right. exists ((p ++ [i]) ++ j :: s). split; [|done].
            exists (j :: s). done. }
      destruct (IH g2 HL' Hh2) as (g3 & Hrun & Hc3).
      { intros c' q Hc' Hq Hm r Hr. apply Hc2' in Hm as [Hm|(q' & Hq' & Heq)].
        - apply Hc2'. left. apply (Hpre c' q); [by right|done|done|done].
        - apply mark_inj in Heq as <-. apply Hc2'. right. exists r. split; [|done].
          by apply (subtree_trans _ q). }
      exists g3. split; [done|]. intros t. rewrite Hc3, Hc2'. split.
      * intros [[H|(q & Hq & ->)]|(c' & q & Hc' & Hq & ->)]; [by left| |].
        -- right. exists (p ++ [i]), q. split; [left|done].
        -- right. exists c', q. split; [by right|done].
      * intros [H|(c' & q & Hc' & Hq & ->)]; [by left; left|].
        apply elem_of_cons in Hc' as [Hc'|Hc'].
        -- injection Hc' as ->. left. right. by exists q.
        -- right. exists c', q. done.
Qed.

Lemma children_in_tree g p x :
  hierarchy_is_tree b d g ->
  x ∈ rev (objects g (TNode p) has_component) <->
  exists i, x = TNode (p ++ [i]) /\ length p < d /\ Forall (fun j => j < b) p /\ i < b.
Proof.
  intros Hh. unfold hierarchy_is_tree in Hh. rewrite list_elem_of_In, <- in_rev, <- list_elem_of_In, elem_of_objects, Hh,
    elem_of_tree_graph. split.
  - intros (_ & p' & i & Heq & -> & Hl & HF & Hi). injection Heq as <-. by exists i.
  - intros (i & -> & Hl & HF & Hi). split; [done|]. by exists p, i.
Qed.

Lemma propagate_covers f : forall p g,
  Forall (fun i => i < b) p -> d - length p < f ->
  hierarchy_is_tree b d g ->
  (forall q, strict_descendant b d p q -> (TNode q, pred, val) ∈ g ->
     forall r, in_subtree b d q r -> (TNode r, pred, val) ∈ g) ->
  exists g', propagate_through_prop has_component pred val None f g (TNode p) = Some (Done g') /\
    forall t, t ∈ g' <-> t ∈ g \/ exists q, strict_descendant b d p q /\ t = (TNode q, pred, val).
Proof.
  induction f as [|f IH]; intros p g HF Hf Hh Hpre; [lia|].
  change (propagate_through_prop has_component pred val None (S f) g (TNode p)) with
    (propagate_loop pred val None (propagate_through_prop has_component pred val None f) g
       (rev (objects g (TNode p) has_component))).
  assert (HL : forall x, x ∈ rev (objects g (TNode p) has_component) ->
            exists c, x = TNode c /\ length p < d /\ exists i, i < b /\ c = p ++ [i]).
  { intros x Hx. apply children_in_tree in Hx as (i & -> & Hl & _ & Hi); [|done].
    exists (p ++ [i]). split; [done|]. split; [done|]. by exists i. }
  destruct (cover_loop p (propagate_through_prop has_component pred val None f))
    with (L := rev (objects g (TNode p) has_component)) (g := g) as (g' & Hrun & Hc).
  - intros c g0 Hpd (i & Hi & ->) Hh0 Hpre0. apply IH; [| |done|done].
    + apply Forall_app. split; [done|]. by constructor.
    + rewrite length_app. simpl. lia.
  - done.
  - done.
  - intros c q Hc Hq Hm r Hr. destruct (HL _ Hc) as (c' & Heq & _ & i & Hi & ->).
    injection Heq as ->. apply (Hpre q); [|done|done].
    destruct Hq as (s & -> & Hl & HFs). exists (i :: s).
    split; [done|]. split; [by rewrite <- app_assoc|]. split; [done|]. by constructor.
  - exists g'. split; [done|]. intros t. rewrite Hc. split.
    + intros [H|(c & q & Hcin & Hq & ->)]; [by left|]. right. exists q. split; [|done].
      destruct (HL _ Hcin) as (c' & Heq & _ & i & Hi & ->). injection Heq as ->.
      destruct Hq as (s & -> & Hl & HFs). exists (i :: s).
      split; [done|]. split; [by rewrite <- app_assoc|]. split; [done|]. by constructor.
    + intros [H|(q & (s & Hs & -> & Hl & HFs) & ->)]; [by left|].
      destruct s as [|i s]; [done|]. apply Forall_cons in HFs as [Hi HFs].
      right. exists (p ++ [i]), (p ++ i :: s). split; [|split; [|done]].
      * apply children_in_tree; [done|]. exists i. rewrite length_app in Hl. simpl in Hl.
        split; [done|]. split; [lia|]. done.
      * exists s. rewrite <- app_assoc. split; [done|]. done.
Qed.
End TreeCover.

Lemma NoDup_flat_map {A B} (f : A -> list B) (l : list A) :
  NoDup l -> (forall x, x ∈ l -> NoDup (f x)) ->
  (forall x y z, x ∈ l -> y ∈ l -> z ∈ f x -> z ∈ f y -> x = y) ->
  NoDup (flat_map f l).
Proof.
  induction l as [|x l IH]; intros Hl Hf Hdis; simpl; [constructor|].
  apply NoDup_cons in Hl as [Hx Hl]. apply NoDup_app. split; [apply Hf; left|]. split.
  - intros z Hz Hz'. apply list_elem_of_In, in_flat_map in Hz' as (y & Hy & Hzy).
    apply list_elem_of_In in Hy, Hzy. assert (x = y) as <- by (apply (Hdis x y z); [left|right|..]; done).
    done.
  - apply IH; [done|intros y Hy; apply Hf; by right|].
    intros y y' z Hy Hy'. apply Hdis; by right.
Qed.

Lemma length_flat_map_sum {A B} (f : A -> list B) (l : list A) :
  length (flat_map f l) = list_sum (map (fun x => length (f x)) l).
Proof. induction l as [|x l IH]; simpl; [done|]. rewrite length_app. lia. Qed.

Lemma length_paths b k : length (paths b k) = b ^ k.
Proof.
  induction k as [|k IH]; simpl; [done|]. rewrite length_flat_map_sum.
  rewrite (map_ext_in _ (fun _ => b)).
  2:{ intros p _. by rewrite length_map, length_seq. }
  rewrite <- IH. clear IH. induction (paths b k) as [|p l IHl]; simpl; [done|]. lia.
Qed.

Lemma NoDup_paths b k : NoDup (paths b k).
Proof.
  induction k as [|k IH]; simpl; [apply NoDup_singleton|]. apply NoDup_flat_map; [done| |].
  - intros p _. apply NoDup_fmap_2; [|apply NoDup_seq]. intros i j Hij. by apply app_inj_tail in Hij as [_ ?].
  - intros p p' z _ _ Hz Hz'. apply list_elem_of_In, in_map_iff in Hz as (i & <- & _), Hz' as (j & Hj & _).
    by apply app_inj_tail in Hj as [-> _].
Qed.

Lemma elem_of_descendants b d q :
  q ∈ descendants b d <-> 1 <= length q <= d /\ Forall (fun i => i < b) q.
Proof.
  unfold descendants. rewrite list_elem_of_In, in_flat_map. split.
  - intros (k & Hk & Hq). apply in_seq in Hk. apply list_elem_of_In, elem_of_paths in Hq as [<- HF].
    split; [lia|done].
  - intros [Hl HF]. exists (length q). split; [apply in_seq; lia|].
    apply list_elem_of_In, elem_of_paths. done.
Qed.

Lemma NoDup_descendants b d : NoDup (descendants b d).
Proof.
  apply NoDup_flat_map; [apply NoDup_seq|intros; apply NoDup_paths|].
  intros k k' q _ _ Hq Hq'. apply elem_of_paths in Hq as [<- _], Hq' as [<- _]. done.
Qed.

Lemma length_descendants b d : length (descendants b d) = list_sum (map (Nat.pow b) (seq 1 d)).
Proof.
  unfold descendants. rewrite length_flat_map_sum. f_equal. apply map_ext. apply length_paths.
Qed.

Lemma propagate_tree_marks (b d n : nat) (pred val : tnode) :
  pred <> has_component -> d < n ->
  exists X : graph tnode,
    propagate_through_prop has_component pred val None n (tree_graph b d) (TNode []) =
      Some (Done (tree_graph b d ++ X)) /\
    NoDup X /\ X ≡ₚ (fun q => (TNode q, pred, val)) <$> descendants b d.
Proof.
  intros Hp Hn.
  destruct (propagate_covers b d pred val Hp n [] (tree_graph b d)) as (g' & Hrun & Hc).
  - constructor.
  - simpl. lia.
  - intros x z. done.
  - intros q _ Hm. apply elem_of_tree_graph in Hm as [? _]. contradiction.
  - destruct (propagate_appends has_component pred val None n _ _ _ Hrun)
      as (Y & -> & HY & Hfresh).
    exists Y. split; [done|]. split; [done|]. apply NoDup_Permutation; [done| |].
    + apply NoDup_fmap_2; [|apply NoDup_descendants]. intros q q' Hq. by injection Hq.
    + intros t. rewrite list_elem_of_fmap. split.
      * intros Ht. destruct (Hfresh t Ht) as (Hnt & _ & _).
        assert (Ht' : t ∈ tree_graph b d ++ Y) by (apply elem_of_app; by right).
        apply Hc in Ht' as [Ht'|(q & (sq & Hs & Hq & Hl & HF) & ->)]; [done|].
        exists q. split; [done|]. simpl in Hq. subst q. apply elem_of_descendants.
        split; [|done]. destruct sq; [done|]. simpl in *. lia.
      * intros (q & -> & Hq). apply elem_of_descendants in Hq as [Hl HF].
        assert (Hm : (TNode q, pred, val) ∈ tree_graph b d ++ Y).
        { apply Hc. right. exists q. split; [|done]. exists q.
          split; [by destruct q; simpl in Hl; [lia|]|]. split; [done|]. split; [lia|done]. }
        apply elem_of_app in Hm as [Hm|Hm]; [|done].
        apply elem_of_tree_graph in Hm as [? _]. contradiction.
Qed.

(* ===================================================================== *)
(** * Claims *)
(* ===================================================================== *)

Module C4.

(** C4 (amended): [propagate_through_prop] terminates on every finite graph,
    whatever its hierarchy (shared sub-nodes and cycles included): with fuel
    three more than the number of node occurrences the run never runs out.
    On the [b]-ary tree of depth [d] in which no node carries the target
    triple yet, a run from the root with any fuel above [d] appends exactly
    one triple [(q, predicate, object)] per descendant [q], i.e.
    [b^1 + ... + b^d] triples, each once. *)
Theorem propagate_terminates_and_covers (b d n : nat) (pred val : tnode)
    (Hp : pred <> has_component) (Hn : d < n) :
  (forall (V : Type) (EqV : EqDecision V) (hp pr ob : V) (nb : option V) (g : graph V) (src : V),
     propagate_through_prop hp pr ob nb (propagate_fuel g) g src <> None) /\
  exists X : graph tnode,
    propagate_through_prop has_component pred val None n (tree_graph b d) (TNode []) =
      Some (Done (tree_graph b d ++ X)) /\
    NoDup X /\ X ≡ₚ (fun q => (TNode q, pred, val)) <$> descendants b d /\
    length X = list_sum (map (Nat.pow b) (seq 1 d)).
Proof.
  split.
  - intros V EqV hp pr ob nb g src. apply propagate_terminates.
  - destruct (propagate_tree_marks b d n pred val Hp Hn) as (X & Hrun & HX & Hperm).
    exists X. split; [done|]. split; [done|]. split; [done|].
    rewrite Hperm, length_fmap. apply length_descendants.
Qed.

Lemma propagate_terminates_and_covers_witness :
  written_by <> has_component /\ 2 < 3 /\
  exists X : graph tnode,
    propagate_through_prop has_component written_by person_P7 None 3 (tree_graph 2 2) (TNode []) =
      Some (Done (tree_graph 2 2 ++ X)) /\
    NoDup X /\ X ≡ₚ (fun q => (TNode q, written_by, person_P7)) <$> descendants 2 2 /\
    length X = list_sum (map (Nat.pow 2) (seq 1 2)).
Proof.
  assert (Hp : written_by <> has_component) by discriminate.
  split; [exact Hp|]. split; [lia|].
  exact (proj2 (propagate_terminates_and_covers 2 2 3 written_by person_P7 Hp ltac:(lia))).
Defined.

(** C4 counterexample: in the chain root -> [0] -> [0;0] where [0] already
    carries the mark, the already-present check skips [0] and its subtree,
    the run (with the fuel that always suffices) adds nothing, and the
    descendant [0;0] never receives the target relation. *)
Lemma premarked_descendant_missed :
  propagate_through_prop has_component written_by person_P7 None
    (propagate_fuel premarked_chain) premarked_chain (TNode []) = Some (Done premarked_chain) /\
  ((TNode [0; 0], written_by, person_P7) ∉ premarked_chain) /\
  [0; 0] ∈ descendants 1 2.
Proof.
  split; [vm_compute; reflexivity|]. split.
  - unfold premarked_chain. vm_compute. intros H. repeat (apply elem_of_cons in H as [H|H]; [discriminate|]).
    by apply elem_of_nil in H.
  - vm_compute. right. left.
Qed.

End C4.

(* ===================================================================== *)
(** ** Allocator lemmas *)
(* ===================================================================== *)

Lemma Z_to_int_nonnil z : Z.to_int z <> Decimal.Pos Decimal.Nil /\ Z.to_int z <> Decimal.Neg Decimal.Nil.
Proof.
  destruct z as [|q|q]; simpl; split; try discriminate;
    intros [= H]; by apply (DecimalPos.Unsigned.to_uint_nonnil q).
Qed.

Lemma Z_to_string_inj x y : Z_to_string x = Z_to_string y -> x = y.
Proof.
  unfold Z_to_string. intros H. apply (f_equal NilZero.int_of_string) in H.
  destruct (Z_to_int_nonnil x) as [Hx1 Hx2], (Z_to_int_nonnil y) as [Hy1 Hy2].
  rewrite !NilZero.isi in H by done. injection H as H. by apply DecimalZ.to_int_inj.
Qed.

Lemma autoinc_name_inj p x y :
  (p ++ "_" ++ Z_to_string x)%string = (p ++ "_" ++ Z_to_string y)%string -> x = y.
Proof.
  intros H. apply Z_to_string_inj.
  induction p as [|a p IH]; simpl in H; [by injection H|]. injection H as H. by apply IH.
Qed.

Lemma allocate_many_spec p k c :
  fst (allocate_many p k c) =
    map (fun i => (p ++ "_" ++ Z_to_string (default 0%Z (c !! p) + Z.of_nat i))%string) (seq 0 k) /\
  (k <> 0 -> snd (allocate_many p k c) !! p = Some (default 0%Z (c !! p) + Z.of_nat k)%Z) /\
  (forall q, q <> p -> snd (allocate_many p k c) !! q = c !! q).
Proof.
  revert c. induction k as [|k IH]; intros c; [done|].
  destruct (IH (<[p:=(default 0%Z (c !! p) + 1)%Z]> c)) as (Hids & Hp & Hq).
  rewrite lookup_insert_eq in Hp. setoid_rewrite lookup_insert_eq in Hids.
  change (allocate_many p (S k) c) with
    (let '(ids, c2) := allocate_many p k (<[p:=(default 0%Z (c !! p) + 1)%Z]> c) in
     ((p ++ "_" ++ Z_to_string (default 0%Z (c !! p)))%string :: ids, c2)).
  destruct (allocate_many p k (<[p:=(default 0%Z (c !! p) + 1)%Z]> c)) as [ids c2] eqn:Hrest.
  cbn [fst snd] in Hids, Hp, Hq |- *. set (n0 := default 0%Z (c !! p)) in *.
  change (default 0%Z (Some (n0 + 1)%Z)) with (n0 + 1)%Z in Hids, Hp.
  split; [|split].
  - cbn [seq map]. replace (n0 + Z.of_nat 0)%Z with n0 by lia.
    f_equal. rewrite Hids, <- seq_shift, map_map. apply map_ext.
    intros i. by replace (n0 + Z.of_nat (S i))%Z with (n0 + 1 + Z.of_nat i)%Z by lia.
  - intros _. destruct k as [|k].
    + simpl in Hrest. injection Hrest as _ <-. by rewrite lookup_insert_eq.
    + rewrite Hp by done. f_equal. lia.
  - intros q Hqp. rewrite Hq by done. by rewrite lookup_insert_ne by congruence.
Qed.

Lemma allocate_many_NoDup p k c : NoDup (fst (allocate_many p k c)).
Proof.
  rewrite (proj1 (allocate_many_spec p k c)). apply NoDup_fmap_2; [|apply NoDup_seq].
  intros i j H. apply autoinc_name_inj in H. lia.
Qed.

Lemma list_max_spec ns m :
  list_max ns = Some m -> m ∈ ns /\ forall x, x ∈ ns -> (x <= m)%Z.
Proof.
  destruct ns as [|n ns]; simpl; [done|]. intros [= <-].
  revert n. induction ns as [|y ns IH]; intros n; simpl.
  - split; [left|]. intros x Hx. apply elem_of_cons in Hx as [->|Hx]; [lia|by apply elem_of_nil in Hx].
  - destruct (IH (Z.max n y)) as [Hin Hle]. split.
    + apply elem_of_cons in Hin as [Hin|Hin].
      * rewrite Hin. destruct (Z.max_spec n y) as [[_ ->]|[_ ->]]; [right; left|left].
      * by right; right.
    + intros x Hx. apply elem_of_cons in Hx as [->|Hx].
      * specialize (Hle (Z.max n y) ltac:(left)). lia.
      * apply elem_of_cons in Hx as [->|Hx].
        -- specialize (Hle (Z.max n y) ltac:(left)). lia.
        -- apply Hle. by right.
Qed.

Lemma fold_opt_app {A B} (f : A -> B -> option A) a l1 l2 :
  fold_opt f a (l1 ++ l2) = fold_opt f a l1 ≫= fun b => fold_opt f b l2.
Proof.
  revert a. induction l1 as [|x l1 IH]; intros a; simpl; [done|].
  destruct (f a x); [apply IH|done].
Qed.

Lemma fold_opt_frame {A B} (f : A -> B -> option A) (P : A -> A -> Prop) a l a' :
  (forall x, P x x) -> (forall x y z, P x y -> P y z -> P x z) ->
  (forall x b y, b ∈ l -> f x b = Some y -> P x y) ->
  fold_opt f a l = Some a' -> P a a'.
Proof.
  intros Hrefl Htrans Hstep. revert a. induction l as [|b l IH]; intros a; simpl.
  - by intros [= <-].
  - destruct (f a b) as [a1|] eqn:Hf; [|done]. intros Hrun.
    apply (Htrans _ a1); [apply (Hstep _ b); [left|done]|].
    apply IH; [|done]. intros x b' y Hb'. apply Hstep. by right.
Qed.

Lemma resume_numbered_spec g c cls c' :
  resume_numbered g c cls = Some c' ->
  exists ns m, mapM suffix_number (subjects_of_type g cls) = Some ns /\ list_max ns = Some m /\
    c' = <[get_class_prefix (get_id_from_uri cls) := (m + 1)%Z]> c.
Proof.
  unfold resume_numbered. destruct (mapM suffix_number _) as [ns|]; simpl; [|done].
  destruct (list_max ns) as [m|] eqn:Hm; simpl; [|done]. intros [= <-]. exists ns, m. by repeat split.
Qed.

Lemma resume_ordered_spec g c cls c' :
  resume_ordered g c cls = Some c' ->
  exists m, c' = <[get_class_prefix (get_id_from_uri cls) := (m + 1)%Z]> c.
Proof.
  unfold resume_ordered. destruct (mapM (order_value g) _) as [ns|]; simpl; [|done].
  destruct (list_max ns) as [m|]; simpl; [|done]. intros [= <-]. by exists m.
Qed.

(** After a successful [import_lkg] the person counter is one above the
    largest person number. *)
Lemma import_counts_E21 g c c' :
  import_counts g c = Some c' ->
  exists ns m, mapM suffix_number (subjects_of_type g (cidoc "E21_Person")) = Some ns /\
    list_max ns = Some m /\ c' !! "E21"%string = Some (m + 1)%Z.
Proof.
  unfold import_counts. intros H. apply bind_Some in H as (c3 & H3 & H4).
  change (simple_ids ++ prefixed_ids) with
    ((simple_ids ++ [cidoc "E21_Person"]) ++ [cidoc "E53_Place"; lrmoo "F11_Corporate_Body"]) in H3.
  rewrite !fold_opt_app in H3. apply bind_Some in H3 as (c2 & H2 & H3).
  apply bind_Some in H2 as (c1 & _ & H2). simpl in H2.
  destruct (resume_numbered g c1 (cidoc "E21_Person")) as [c2'|] eqn:H2'; [|done].
  injection H2 as ->.
  apply resume_numbered_spec in H2' as (ns & m & Hns & Hm & Hc2).
  exists ns, m. split; [done|]. split; [done|].
  set (P := fun x y : counts => y !! "E21"%string = x !! "E21"%string).
  assert (HP : forall l, fold_opt (resume_numbered g) c2 l = Some c3 ->
                 (forall b, b ∈ l -> get_class_prefix (get_id_from_uri b) <> "E21"%string) ->
                 P c2 c3).
  { intros l Hl Hpre. eapply (fold_opt_frame _ P); [done|unfold P; congruence| |exact Hl].
    intros x b y Hb Hy. apply resume_numbered_spec in Hy as (_ & m' & _ & _ & ->). unfold P.
    apply lookup_insert_ne. by apply Hpre. }
  assert (P c2 c3) as Hc3.
  { apply (HP _ H3). intros b Hb. repeat (apply elem_of_cons in Hb as [->|Hb]; [vm_compute; discriminate|]).
    by apply elem_of_nil in Hb. }
  assert (P c3 c') as Hc'.
  { eapply (fold_opt_frame _ P); [done|unfold P; congruence| |exact H4].
    intros x b y Hb Hy. apply resume_ordered_spec in Hy as (m' & ->). unfold P.
    apply lookup_insert_ne. unfold order_ids in Hb.
    repeat (apply elem_of_cons in Hb as [->|Hb]; [vm_compute; discriminate|]).
    by apply elem_of_nil in Hb. }
  unfold P in *. rewrite Hc', Hc3, Hc2.
  replace (get_class_prefix (get_id_from_uri (cidoc "E21_Person"))) with "E21"%string
    by (vm_compute; reflexivity).
  apply lookup_insert_eq.
Qed.

Lemma fold_opt_each {A B} (f : A -> B -> option A) a l a' :
  fold_opt f a l = Some a' -> forall b, b ∈ l -> exists x y, f x b = Some y.
Proof.
  revert a. induction l as [|b0 l IH]; intros a Hrun b Hb; [by apply elem_of_nil in Hb|].
  simpl in Hrun. destruct (f a b0) as [a1|] eqn:Hf; [|done].
  apply elem_of_cons in Hb as [->|Hb]; [by exists a, a1|]. by apply (IH a1).
Qed.

Lemma mapM_elem {A B} (f : A -> option B) l ns :
  mapM f l = Some ns ->
  (forall u, u ∈ l -> exists n, f u = Some n /\ n ∈ ns) /\
  (forall n, n ∈ ns -> exists u, u ∈ l /\ f u = Some n).
Proof.
  revert ns. induction l as [|a l IH]; intros ns; simpl.
  - intros [= <-]. split; intros ? H; by apply elem_of_nil in H.
  - destruct (f a) as [x|] eqn:Hfa; simpl; [|done].
    destruct (mapM f l) as [xs|]; simpl; [|done]. intros [= <-].
    destruct (IH xs eq_refl) as [H1 H2]. split.
    + intros u Hu. apply elem_of_cons in Hu as [->|Hu]; [exists x; split; [done|left]|].
      destruct (H1 u Hu) as (n & Hn & Hin). exists n. split; [done|by right].
    + intros n Hn. apply elem_of_cons in Hn as [->|Hn]; [exists a; split; [left|done]|].
      destruct (H2 n Hn) as (u & Hu & Hfu). exists u. split; [by right|done].
Qed.

(** [import_lkg] raises when a scanned kind has no entity. *)
Lemma import_counts_empty_kind g c cls :
  cls ∈ simple_ids ++ prefixed_ids ++ order_ids -> subjects_of_type g cls = [] ->
  import_counts g c = None.
Proof.
  intros Hcls Hempty. destruct (import_counts g c) as [c'|] eqn:Hrun; [exfalso|done].
  unfold import_counts in Hrun. apply bind_Some in Hrun as (c1 & H1 & H2).
  rewrite app_assoc in Hcls. apply elem_of_app in Hcls as [Hcls|Hcls].
  - destruct (fold_opt_each _ _ _ _ H1 cls Hcls) as (x & y & Hy).
    unfold resume_numbered in Hy. by rewrite Hempty in Hy.
  - destruct (fold_opt_each _ _ _ _ H2 cls Hcls) as (x & y & Hy).
    unfold resume_ordered in Hy. by rewrite Hempty in Hy.
Qed.

Lemma persons_P0_P7_numbers :
  mapM suffix_number persons_P0_P7 = Some [0; 1; 2; 3; 4; 5; 6; 7]%Z.
Proof. vm_compute. reflexivity. Qed.

(** Resuming from a graph whose persons are [E21_P0] ... [E21_P7] sets
    the person counter to 8. *)
Lemma import_counts_persons_P0_P7 g c c' :
  (forall u, u ∈ subjects_of_type g (cidoc "E21_Person") <-> u ∈ persons_P0_P7) ->
  import_counts g c = Some c' -> c' !! "E21"%string = Some 8%Z.
Proof.
  intros Hpers Hrun. destruct (import_counts_E21 g c c' Hrun) as (ns & m & Hns & Hm & ->).
  do 2 f_equal. apply list_max_spec in Hm as [Hmin Hmax].
  destruct (mapM_elem _ _ _ Hns) as [Hto Hfrom].
  destruct (mapM_elem _ _ _ persons_P0_P7_numbers) as [Pto Pfrom].
  assert (Hle : (m <= 7)%Z).
  { destruct (Hfrom m Hmin) as (u & Hu & Hsu). apply Hpers in Hu.
    destruct (Pto u Hu) as (n & Hn & Hin). rewrite Hsu in Hn. injection Hn as <-.
    repeat (apply elem_of_cons in Hin as [->|Hin]; [lia|]). by apply elem_of_nil in Hin. }
  assert (H7 : lkg "E21_P7" ∈ subjects_of_type g (cidoc "E21_Person")).
  { apply Hpers. unfold persons_P0_P7. vm_compute. do 7 right. left. }
  destruct (Hto _ H7) as (n & Hn & Hin). vm_compute in Hn. injection Hn as <-.
  specialize (Hmax 7%Z Hin). lia.
Qed.

Module C5.

(** C5 (amended): the counter of a prefix not yet in the dictionary starts
    at 0; [k] successive allocations for a prefix return the identifiers
    [prefix_n0], ..., [prefix_(n0+k-1)] where [n0] is the counter before,
    pairwise distinct, leave the counter at [n0 + k] and touch no other
    prefix.  When [import_lkg] succeeds on a graph whose persons are
    [E21_P0] ... [E21_P7], the person counter is 8 and the next person
    identifier is [E21_8]; but [import_lkg] succeeds only if every kind it
    scans has at least one entity: with any of them empty it raises. *)
Theorem allocator_and_resume :
  (forall p k (c : counts), c !! p = None ->
     fst (allocate_many p k c) = map (fun i => (p ++ "_" ++ Z_to_string (Z.of_nat i))%string) (seq 0 k)) /\
  (forall p k (c : counts),
     fst (allocate_many p k c) =
       map (fun i => (p ++ "_" ++ Z_to_string (default 0%Z (c !! p) + Z.of_nat i))%string) (seq 0 k) /\
     NoDup (fst (allocate_many p k c)) /\
     (k <> 0 -> snd (allocate_many p k c) !! p = Some (default 0%Z (c !! p) + Z.of_nat k)%Z) /\
     (forall q, q <> p -> snd (allocate_many p k c) !! q = c !! q)) /\
  (forall g (c c' : counts),
     (forall u, u ∈ subjects_of_type g (cidoc "E21_Person") <-> u ∈ persons_P0_P7) ->
     import_counts g c = Some c' ->
     c' !! "E21"%string = Some 8%Z /\ fst (make_autoinc_id "E21" c') = "E21_8"%string) /\
  (forall g (c : counts) cls,
     cls ∈ simple_ids ++ prefixed_ids ++ order_ids -> subjects_of_type g cls = [] ->
     import_counts g c = None).
Proof.
  split; [|split; [|split]].
  - intros p k c Hc. rewrite (proj1 (allocate_many_spec p k c)), Hc. done.
  - intros p k c. destruct (allocate_many_spec p k c) as (H1 & H2 & H3).
    split; [done|]. split; [apply allocate_many_NoDup|]. done.
  - intros g c c' Hpers Hrun. pose proof (import_counts_persons_P0_P7 g c c' Hpers Hrun) as H8.
    split; [done|]. unfold make_autoinc_id. rewrite H8. reflexivity.
  - apply import_counts_empty_kind.
Qed.

Lemma allocator_and_resume_witness :
  fst (allocate_many "E42" 2 ∅) = ["E42_0"; "E42_1"]%string /\
  exists c', import_counts persisted_graph ∅ = Some c' /\
    c' !! "E21"%string = Some 8%Z /\ fst (make_autoinc_id "E21" c') = "E21_8"%string.
Proof.
  split.
  - rewrite (proj1 allocator_and_resume "E42"%string 2 ∅ (lookup_empty _)). reflexivity.
  - destruct (import_counts persisted_graph ∅) as [c'|] eqn:Hrun; [|vm_compute in Hrun; discriminate].
    exists c'. split; [reflexivity|].
    apply (proj1 (proj2 (proj2 allocator_and_resume)) persisted_graph ∅ c'); [|exact Hrun].
    intros u. assert (Hs : subjects_of_type persisted_graph (cidoc "E21_Person") = persons_P0_P7)
      by (vm_compute; reflexivity).
    by rewrite Hs.
Defined.

(** C5 counterexample: resuming from a persisted graph that contains the
    persons [E21_P0] ... [E21_P7] and nothing else raises (the first scanned
    kind, [E41], is empty), so no person counter is set. *)
Lemma resume_persons_only_raises :
  (forall u, u ∈ subjects_of_type persons_only_graph (cidoc "E21_Person") <-> u ∈ persons_P0_P7) /\
  import_counts persons_only_graph ∅ = None.
Proof.
  split; [|vm_compute; reflexivity].
  intros u. assert (Hs : subjects_of_type persons_only_graph (cidoc "E21_Person") = persons_P0_P7)
    by (vm_compute; reflexivity).
  by rewrite Hs.
Qed.

End C5.

(* ===================================================================== *)
(** ** String lemmas *)
(* ===================================================================== *)

Lemma str_app_cons a u v : (String a u ++ v)%string = String a (u ++ v).
Proof. reflexivity. Qed.

Lemma str_app_nil_l v : ("" ++ v)%string = v.
Proof. reflexivity. Qed.

Lemma str_app_nil_r s : (s ++ "")%string = s.
Proof. induction s as [|a s IH]; [done|]. by rewrite str_app_cons, IH. Qed.

Lemma str_app_assoc u v w : ((u ++ v) ++ w)%string = (u ++ (v ++ w))%string.
Proof. induction u as [|a u IH]; [done|]. by rewrite !str_app_cons, IH. Qed.

Lemma str_length_app u v : String.length (u ++ v) = String.length u + String.length v.
Proof. induction u as [|a u IH]; [done|]. rewrite str_app_cons. simpl. by rewrite IH. Qed.

Lemma substring_0_ge m s : String.length s <= m -> substring 0 m s = s.
Proof.
  revert m. induction s as [|a s IH]; intros [|m] Hm; simpl in *; try done; try lia.
  rewrite IH; [done|lia].
Qed.

Lemma substring_app u v m : String.length v <= m -> substring (String.length u) m (u ++ v) = v.
Proof.
  intros Hm. induction u as [|a u IH]; [by apply substring_0_ge|].
  rewrite str_app_cons. exact IH.
Qed.

Lemma length_substring_le n m s : String.length (substring n m s) <= String.length s - n.
Proof.
  revert n m. induction s as [|a s IH]; intros [|n] [|m]; simpl; try lia.
  - specialize (IH 0 m). lia.
  - apply IH.
  - apply IH.
Qed.

Lemma prefix_split sep s :
  String.prefix sep s = true -> s = (sep ++ substring (String.length sep) (String.length s) s)%string.
Proof.
  intros H. assert (Hs : exists r, s = (sep ++ r)%string).
  { revert s H. induction sep as [|c sep IH]; intros s H; [by exists s|].
    destruct s as [|a s]; simpl in H; [done|]. destruct (ascii_dec c a) as [<-|]; [|done].
    destruct (IH s H) as [r ->]. by exists r. }
  destruct Hs as [r ->]. rewrite substring_app; [done|]. rewrite str_length_app. lia.
Qed.

Lemma concat_cons_char sep a w ws :
  String.concat sep (String a w :: ws) = String a (String.concat sep (w :: ws)).
Proof. destruct ws; [done|]. simpl. by rewrite str_app_cons. Qed.

Lemma concat_snoc sep ws w :
  String.concat sep (ws ++ [w]) =
  match ws with [] => w | _ => (String.concat sep ws ++ sep ++ w)%string end.
Proof.
  induction ws as [|x ws IH]; [done|].
  destruct ws as [|y ws]; [done|]. simpl in IH |- *. rewrite IH.
  by rewrite !str_app_assoc.
Qed.

Lemma split_fuel_nonnil f sep s : split_fuel f sep s <> [].
Proof.
  revert s. induction f as [|f IH]; intros [|a s]; simpl; try done.
  destruct (_ && _); [done|]. by destruct (split_fuel f sep s).
Qed.

Lemma split_fuel_concat f sep s :
  sep <> EmptyString -> String.length s < f -> String.concat sep (split_fuel f sep s) = s.
Proof.
  intros Hsep. revert s. induction f as [|f IH]; intros [|a s] Hl;
    [simpl in Hl; lia|simpl in Hl; lia|done|].
  change (split_fuel (S f) sep (String a s)) with
    (if negb (String.eqb sep "") && String.prefix sep (String a s)
     then "" :: split_fuel f sep (substring (String.length sep) (String.length (String a s)) (String a s))
     else match split_fuel f sep s with w :: ws => String a w :: ws | [] => [String a ""] end).
  simpl String.length at 1 in Hl.
  destruct (negb (String.eqb sep "") && String.prefix sep (String a s)) eqn:E.
  - apply andb_true_iff in E as [_ E].
    pose proof (prefix_split _ _ E) as Hs.
    assert (Hr : String.length (substring (String.length sep) (String.length (String a s)) (String a s)) < f).
    { pose proof (length_substring_le (String.length sep) (String.length (String a s)) (String a s)) as Hle.
      assert (1 <= String.length sep) by (destruct sep; [done|simpl; lia]).
      simpl String.length at 2 4 in Hle. lia. }
    set (r := substring (String.length sep) (String.length (String a s)) (String a s)) in *.
    pose proof (split_fuel_nonnil f sep r) as Hn.
    destruct (split_fuel f sep r) as [|w ws] eqn:Ew; [done|].
    transitivity ("" ++ sep ++ String.concat sep (w :: ws))%string; [done|].
    rewrite <- Ew, IH by done. rewrite str_app_nil_l. by symmetry.
  - pose proof (split_fuel_nonnil f sep s) as Hn.
    destruct (split_fuel f sep s) as [|w ws] eqn:Ew; [done|].
    rewrite concat_cons_char, <- Ew, IH; [done|lia].
Qed.

Lemma split_fuel_no_sep f sep s :
  str_contains sep s = false -> split_fuel f sep s = [s].
Proof.
  revert s. induction f as [|f IH]; intros [|a s] H; simpl; try done.
  simpl in H. apply orb_false_iff in H as [H1 H2].
  rewrite H1, andb_false_r, IH by done. done.
Qed.

Lemma split_fuel_has_sep f sep s :
  sep <> EmptyString -> str_contains sep s = true -> String.length s < f ->
  2 <= length (split_fuel f sep s).
Proof.
  intros Hsep. revert s. induction f as [|f IH]; intros [|a s] H Hl.
  - simpl in Hl; lia.
  - simpl in Hl; lia.
  - destruct sep; [done|]. discriminate.
  - change (split_fuel (S f) sep (String a s)) with
      (if negb (String.eqb sep "") && String.prefix sep (String a s)
       then "" :: split_fuel f sep (substring (String.length sep) (String.length (String a s)) (String a s))
       else match split_fuel f sep s with w :: ws => String a w :: ws | [] => [String a ""] end).
    simpl String.length at 1 in Hl.
    destruct (String.eqb_spec sep "") as [->|_]; [done|]. cbn [negb andb].
    destruct (String.prefix sep (String a s)) eqn:E.
    + match goal with |- context [split_fuel f sep ?r] =>
        pose proof (split_fuel_nonnil f sep r); destruct (split_fuel f sep r) end; [done|].
      simpl. lia.
    + change (str_contains sep (String a s)) with (String.prefix sep (String a s) || str_contains sep s) in H.
      rewrite E in H. simpl in H. specialize (IH s H ltac:(lia)).
      destruct (split_fuel f sep s) as [|w ws]; simpl in *; lia.
Qed.

Lemma py_split_concat sep s : sep <> EmptyString -> String.concat sep (py_split sep s) = s.
Proof. intros. apply split_fuel_concat; [done|lia]. Qed.

Lemma py_split_nonnil sep s : py_split sep s <> [].
Proof. apply split_fuel_nonnil. Qed.

Lemma py_split_no_sep sep s : str_contains sep s = false -> py_split sep s = [s].
Proof. apply split_fuel_no_sep. Qed.

Lemma py_split_has_sep sep s :
  sep <> EmptyString -> str_contains sep s = true -> 2 <= length (py_split sep s).
Proof. intros. apply split_fuel_has_sep; [done|done|lia]. Qed.

Lemma py_split1_app c s w r :
  py_split1 c s = [w; r] -> s = (w ++ String c r)%string.
Proof.
  unfold py_split1. pose proof (py_split_concat (String c "") s ltac:(done)) as Hc.
  destruct (py_split _ s) as [|x [|y ys]] eqn:E; try by inversion 1.
  intros [= <- <-]. rewrite <- Hc. done.
Qed.

Lemma last_char_None s : last_char s = None <-> s = EmptyString.
Proof.
  split; [|by intros ->]. induction s as [|a s IH]; [done|].
  destruct s as [|b t]; [done|]. intros H. by specialize (IH H).
Qed.

Lemma last_char_cons a s :
  last_char (String a s) = match last_char s with None => Some a | Some b => Some b end.
Proof.
  destruct s as [|b t]; [done|].
  change (last_char (String a (String b t))) with (last_char (String b t)).
  destruct (last_char (String b t)) eqn:E; [done|]. by apply last_char_None in E.
Qed.

Lemma last_char_app u v :
  last_char (u ++ v) = match last_char v with None => last_char u | Some b => Some b end.
Proof.
  induction u as [|a u IH].
  - rewrite str_app_nil_l. by destruct (last_char v).
  - rewrite str_app_cons, !last_char_cons, IH. by destruct (last_char v).
Qed.

Lemma str_forallb_app f u v : str_forallb f (u ++ v) = str_forallb f u && str_forallb f v.
Proof.
  induction u as [|a u IH]; [done|]. rewrite str_app_cons. simpl. rewrite IH. by destruct (f a).
Qed.

Lemma last_char_forallb f s a : str_forallb f s = true -> last_char s = Some a -> f a = true.
Proof.
  induction s as [|b s IH]; [done|]. cbn [str_forallb]. intros [Hb Hs]%andb_true_iff.
  rewrite last_char_cons. destruct (last_char s); [by intros; apply IH|]. by intros [= <-].
Qed.

Lemma span_by_app f s : s = (fst (span_by f s) ++ snd (span_by f s))%string.
Proof.
  induction s as [|a s IH]; [done|]. simpl. destruct (f a); [|done].
  destruct (span_by f s) as [u v]. simpl in *. rewrite str_app_cons. by f_equal.
Qed.

Lemma span_by_forallb f s : str_forallb f (fst (span_by f s)) = true.
Proof.
  induction s as [|a s IH]; [done|]. simpl. destruct (f a) eqn:E; [|done].
  destruct (span_by f s) as [u v]. simpl in *. by rewrite E, IH.
Qed.

Lemma span_by_letters f u rest :
  str_forallb f u = true ->
  match rest with String b _ => f b = false | EmptyString => True end ->
  span_by f (u ++ rest) = (u, rest).
Proof.
  intros Hu Hr. induction u as [|a u IH].
  - rewrite str_app_nil_l. destruct rest as [|b r]; [done|]. simpl. by rewrite Hr.
  - simpl in Hu. apply andb_true_iff in Hu as [Ha Hu].
    rewrite str_app_cons. simpl. by rewrite Ha, IH.
Qed.

Lemma match_digits_spec s m : match_digits s = Some m -> str_forallb is_digit m = true /\ m <> EmptyString.
Proof.
  unfold match_digits. pose proof (span_by_forallb is_digit s) as H.
  destruct (fst (span_by is_digit s)); [done|]. by intros [= <-].
Qed.

Lemma digit_string_last s :
  str_forallb is_digit s = true -> s <> EmptyString -> exists a, last_char s = Some a /\ is_digit a = true.
Proof.
  intros H Hne. destruct (last_char s) as [a|] eqn:E.
  - exists a. split; [done|]. by apply (last_char_forallb is_digit s).
  - by apply last_char_None in E.
Qed.

Lemma string_of_uint_digits d : str_forallb is_digit (NilEmpty.string_of_uint d) = true.
Proof. induction d; simpl; rewrite ?IHd; done. Qed.

Lemma Z_to_string_last z : exists a, last_char (Z_to_string z) = Some a /\ is_digit a = true.
Proof.
  unfold Z_to_string. destruct (Z.to_int z) as [d|d]; unfold NilZero.string_of_int.
  - apply digit_string_last; destruct d; simpl; rewrite ?string_of_uint_digits; done.
  - rewrite last_char_cons.
    destruct (digit_string_last (NilZero.string_of_uint d)) as [a [-> Ha]];
      [destruct d; simpl; rewrite ?string_of_uint_digits; done|by destruct d|].
    by exists a.
Qed.

Lemma lstrip_by_split f s : exists z, s = (z ++ lstrip_by f s)%string /\ str_forallb f z = true.
Proof.
  induction s as [|a s IH]; [by exists ""|]. simpl. destruct (f a) eqn:E.
  - destruct IH as [z [Hz Hf]]. exists (String a z). rewrite str_app_cons, <- Hz. simpl. by rewrite E.
  - by exists "".
Qed.

Lemma rstrip_by_split f s : exists z, s = (rstrip_by f s ++ z)%string /\ str_forallb f z = true.
Proof.
  induction s as [|a s IH]; [by exists ""|]. destruct IH as [z [Hz Hf]].
  change (rstrip_by f (String a s)) with
    (if String.eqb (rstrip_by f s) "" && f a then EmptyString else String a (rstrip_by f s)).
  destruct (String.eqb_spec (rstrip_by f s) "") as [E|E]; destruct (f a) eqn:Fa; cbn [andb].
  - exists (String a z). rewrite str_app_nil_l. split.
    + by rewrite Hz at 1; rewrite E, str_app_nil_l.
    + simpl. by rewrite Fa.
  - exists z; split; [|done]; rewrite str_app_cons; by f_equal.
  - exists z; split; [|done]; rewrite str_app_cons; by f_equal.
  - exists z; split; [|done]; rewrite str_app_cons; by f_equal.
Qed.

Lemma rstrip_by_last f s a : last_char s = Some a -> f a = false -> rstrip_by f s = s.
Proof.
  induction s as [|b s IH]; [done|]. rewrite last_char_cons. intros Hl Fa.
  destruct (last_char s) as [a'|] eqn:E.
  - injection Hl as ->. simpl. rewrite IH by done.
    destruct (String.eqb_spec s "") as [->|]; [done|]. done.
  - injection Hl as ->. apply last_char_None in E as ->. simpl. by rewrite Fa.
Qed.

Lemma rstrip_by_head f a s : f a = false -> rstrip_by f (String a s) <> EmptyString.
Proof. intros Fa. simpl. by rewrite Fa, andb_false_r. Qed.

Lemma prefix_nil s : String.prefix "" s = true.
Proof. by destruct s. Qed.

Lemma prefix_app_r f sep y z :
  str_forallb f z = true -> str_forallb (fun a => negb (f a)) sep = true -> sep <> EmptyString ->
  String.prefix sep (y ++ z) = String.prefix sep y.
Proof.
  revert y. induction sep as [|b sep IH]; intros y Hz Hs Hne; [done|].
  cbn [str_forallb] in Hs. apply andb_true_iff in Hs as [Hb Hs].
  destruct y as [|a y].
  - rewrite str_app_nil_l. destruct z as [|c z]; [done|]. cbn [str_forallb] in Hz.
    apply andb_true_iff in Hz as [Hc _]. simpl.
    destruct (ascii_dec b c) as [->|]; [|done]. by rewrite Hc in Hb.
  - rewrite str_app_cons. simpl. destruct (ascii_dec b a); [|done].
    destruct sep as [|b' sep]; [by rewrite !prefix_nil|]. by apply IH.
Qed.

Lemma str_contains_app_l f sep u s :
  str_forallb f u = true -> match sep with String b _ => f b = false | EmptyString => True end ->
  str_contains sep (u ++ s) = str_contains sep s.
Proof.
  intros Hu Hs. induction u as [|a u IH]; [done|].
  cbn [str_forallb] in Hu. apply andb_true_iff in Hu as [Ha Hu].
  rewrite str_app_cons. simpl. rewrite IH by done.
  destruct sep as [|b sep]; [by destruct s|].
  simpl. destruct (ascii_dec b a) as [->|]; [by rewrite Ha in Hs|done].
Qed.

Lemma str_contains_app_r f sep y z :
  str_forallb f z = true -> str_forallb (fun a => negb (f a)) sep = true -> sep <> EmptyString ->
  str_contains sep (y ++ z) = str_contains sep y.
Proof.
  intros Hz Hs Hne. induction y as [|a y IH].
  - rewrite str_app_nil_l. induction z as [|c z IHz]; [by destruct sep|].
    cbn [str_forallb] in Hz. apply andb_true_iff in Hz as [Hc Hz].
    change (str_contains sep (String c z)) with (String.prefix sep (String c z) || str_contains sep z).
    rewrite IHz by done. destruct sep as [|b sep]; [done|].
    cbn [str_forallb] in Hs. apply andb_true_iff in Hs as [Hb _]. simpl.
    destruct (ascii_dec b c) as [->|]; [by rewrite Hc in Hb|done].
  - rewrite str_app_cons.
    change (str_contains sep (String a (y ++ z))) with
      (String.prefix sep (String a (y ++ z)) || str_contains sep (y ++ z)).
    change (str_contains sep (String a y)) with (String.prefix sep (String a y) || str_contains sep y).
    rewrite IH, <- str_app_cons. by rewrite (prefix_app_r f).
Qed.

Lemma letter_not_space a : is_letter a = true -> is_space a = false.
Proof. destruct a as [[|] [|] [|] [|] [|] [|] [|] [|]]; by vm_compute. Qed.

Lemma letter_not_digit a : is_letter a = true -> is_digit a = false.
Proof. destruct a as [[|] [|] [|] [|] [|] [|] [|] [|]]; by vm_compute. Qed.

Lemma last_char_dot u w a : last_char w = Some a -> last_char (u ++ "." ++ w)%string = Some a.
Proof.
  intros H. rewrite last_char_app.
  change ("." ++ w)%string with (String "." w). by rewrite last_char_cons, H.
Qed.

Lemma last_char_snoc s a : last_char s = Some a -> exists p, s = (p ++ String a "")%string.
Proof.
  induction s as [|b s IH]; [done|]. rewrite last_char_cons.
  destruct (last_char s) as [a'|] eqn:E.
  - intros H. destruct (IH H) as [p ->]. by exists (String b p).
  - intros [= ->]. apply last_char_None in E as ->. by exists "".
Qed.

Lemma str_contains_app_left sep x y :
  str_contains sep y = true -> str_contains sep (x ++ y) = true.
Proof.
  intros H. induction x as [|a x IH]; [done|].
  rewrite str_app_cons.
  change (str_contains sep (String a (x ++ y))) with
    (String.prefix sep (String a (x ++ y)) || str_contains sep (x ++ y)).
  rewrite IH. apply orb_true_r.
Qed.

Lemma prefix_app_mono sep y z :
  String.prefix sep y = true -> String.prefix sep (y ++ z) = true.
Proof.
  revert y. induction sep as [|b sep IH]; intros y H; [by rewrite prefix_nil|].
  destruct y as [|a y]; [done|]. rewrite str_app_cons. simpl in H |- *.
  destruct (ascii_dec b a); [by apply IH|done].
Qed.

Lemma str_contains_app_right sep y z :
  str_contains sep y = true -> str_contains sep (y ++ z) = true.
Proof.
  induction y as [|a y IH]; intros H.
  - destruct sep; [by rewrite str_app_nil_l; destruct z|done].
  - rewrite str_app_cons.
    change (str_contains sep (String a (y ++ z))) with
      (String.prefix sep (String a (y ++ z)) || str_contains sep (y ++ z)).
    change (str_contains sep (String a y)) with
      (String.prefix sep (String a y) || str_contains sep y) in H.
    apply orb_true_iff in H as [H|H].
    + rewrite <- str_app_cons. by rewrite (prefix_app_mono sep (String a y) z H).
    + rewrite IH by done. apply orb_true_r.
Qed.

(** A piece of a [";"]-joined list ending in [c], other than the last, puts
    ["c;"] into the joined string. *)
Lemma concat_semi_piece c init w p :
  p ∈ init -> last_char p = Some c ->
  str_contains (String c (String ";" "")) (String.concat ";" (init ++ [w])) = true.
Proof.
  intros Hp Hc. induction init as [|x xs IH]; [by apply elem_of_nil in Hp|].
  change ((x :: xs) ++ [w]) with (x :: (xs ++ [w])).
  assert (Hcons : String.concat ";" (x :: xs ++ [w]) = (x ++ ";" ++ String.concat ";" (xs ++ [w]))%string).
  { destruct xs; reflexivity. }
  rewrite Hcons. apply elem_of_cons in Hp as [<-|Hp].
  - destruct (last_char_snoc p c Hc) as [q ->]. rewrite str_app_assoc.
    apply str_contains_app_left. simpl. destruct (ascii_dec c c) as [_|]; [|congruence]. by rewrite prefix_nil.
  - rewrite <- str_app_assoc. apply str_contains_app_left. by apply IH.
Qed.

Lemma prefix_sref_shape pd pnf langs pother sref sref' :
  str_forallb is_letter pd = true -> str_forallb is_letter pnf = true ->
  str_forallb is_letter pother = true ->
  prefix_sref pd pnf langs pother sref = Some (Some sref') ->
  exists pre body, sref' = (pre ++ body)%string /\ str_forallb is_letter pre = true /\
    str_contains range_sign body = str_contains range_sign sref /\
    (forall c, last_char sref = Some c -> is_letter c = false -> c <> ":"%char ->
               last_char body = Some c).
Proof.
  intros Hd Hn Ho. unfold prefix_sref. destruct sref as [|a r] eqn:Es; [done|].
  destruct (is_digit a).
  - intros [= <-].
    exists (if str_in pd langs then pnf ++ pd else pother ++ pd)%string, (String a r).
    split; [by destruct (str_in pd langs)|].
    split; [destruct (str_in pd langs); by rewrite str_forallb_app, ?Hn, ?Ho, Hd|].
    split; [done|]. by intros c ->.
  - rewrite <- Es. unfold match_letters.
    pose proof (span_by_app is_letter sref) as Hsp. pose proof (span_by_forallb is_letter sref) as Hfl.
    destruct (span_by is_letter sref) as [pf rest]. simpl in Hsp, Hfl |- *.
    clear Es. subst sref. destruct pf as [|l ls]; [done|].
    destruct (negb (str_in (String l ls) langs)); [done|]. intros [= <-].
    rewrite substring_app by (rewrite str_length_app; lia).
    set (colon := fun a => Ascii.eqb a ":"%char).
    destruct (lstrip_by_split colon rest) as [z1 [E1 F1]].
    destruct (rstrip_by_split colon (lstrip_by colon rest)) as [z2 [E2 F2]].
    exists (pnf ++ String l ls)%string, (strip_colon rest).
    split; [by rewrite str_app_assoc|].
    split; [by rewrite str_forallb_app, Hn, Hfl|].
    split.
    + rewrite (str_contains_app_l is_letter) by (done || by vm_compute).
      unfold strip_colon, strip_by. fold colon.
      transitivity (str_contains range_sign (lstrip_by colon rest)).
      * rewrite E2 at 2. symmetry. apply (str_contains_app_r colon); [done|by vm_compute|done].
      * rewrite E1 at 2. symmetry. apply (str_contains_app_l colon); [done|by vm_compute].
    + intros c Hc Hl Hcol. rewrite last_char_app in Hc.
      destruct (last_char rest) as [c'|] eqn:Er.
      2:{ by rewrite (last_char_forallb is_letter _ c Hfl Hc) in Hl. }
      injection Hc as ->.
      assert (Hcc : colon c = false).
      { unfold colon. destruct (Ascii.eqb_spec c ":"); done. }
      rewrite E1, last_char_app in Er.
      destruct (last_char (lstrip_by colon rest)) as [c'|] eqn:El.
      * injection Er as ->. unfold strip_colon, strip_by. fold colon.
        by rewrite (rstrip_by_last colon _ c).
      * by rewrite (last_char_forallb colon _ c F1 Er) in Hcc.
Qed.

(** The prefixing step only adds letters in front and strips colons, so a
    pattern starting with a non-letter found in its result was already in
    the sub-token. *)
Lemma prefix_sref_contains pd pnf langs pother sref sref' sep :
  str_forallb is_letter pd = true -> str_forallb is_letter pnf = true ->
  str_forallb is_letter pother = true ->
  match sep with String b _ => is_letter b = false | EmptyString => True end ->
  prefix_sref pd pnf langs pother sref = Some (Some sref') ->
  str_contains sep sref' = true -> str_contains sep sref = true.
Proof.
  intros Hd Hn Ho Hsep. unfold prefix_sref. destruct sref as [|a r] eqn:Es; [done|].
  destruct (is_digit a).
  - intros [= <-]. rewrite (str_contains_app_l is_letter); [done| |done].
    destruct (str_in pd langs); by rewrite str_forallb_app, ?Hn, ?Ho, Hd.
  - rewrite <- Es. unfold match_letters.
    pose proof (span_by_app is_letter sref) as Hsp. pose proof (span_by_forallb is_letter sref) as Hfl.
    destruct (span_by is_letter sref) as [pf rest]. simpl in Hsp, Hfl |- *.
    clear Es. subst sref. destruct pf as [|l ls]; [done|].
    destruct (negb (str_in (String l ls) langs)); [done|]. intros [= <-].
    rewrite substring_app by (rewrite str_length_app; lia).
    rewrite (str_contains_app_l is_letter) by done.
    rewrite (str_contains_app_l is_letter) by done.
    rewrite (str_contains_app_l is_letter) by done.
    set (colon := fun a => Ascii.eqb a ":"%char).
    destruct (lstrip_by_split colon rest) as [z1 [E1 _]].
    destruct (rstrip_by_split colon (lstrip_by colon rest)) as [z2 [E2 _]].
    unfold strip_colon, strip_by. fold colon. intros H.
    rewrite E1, E2. apply str_contains_app_left, str_contains_app_right, H.
Qed.

Lemma expand_sref_no_range s c outs :
  str_contains range_sign s = false -> last_char s = Some c ->
  c <> "?"%char -> c <> "."%char -> c <> ";"%char ->
  expand_sref s = Some outs -> exists init o, outs = init ++ [o] /\ last_char o = Some c /\
    forall x, x ∈ init -> last_char x = Some c -> str_contains (String c (String ";" "")) s = true.
Proof.
  intros Hr Hc Hq Hd Hs. unfold expand_sref. cbv zeta.
  rewrite (py_split_no_sep _ _ Hr). change ((1 <? length [s])%nat) with false. cbn iota.
  destruct (str_contains ";" s) eqn:Hsc.
  - destruct (py_split1 "." s) as [|mainid [|subids [|]]] eqn:E1; try discriminate.
    intros [= <-]. apply py_split1_app in E1. subst s.
    rewrite last_char_app, last_char_cons in Hc.
    destruct (last_char subids) as [c'|] eqn:Els; [|by injection Hc as <-].
    injection Hc as ->.
    pose proof (py_split_concat ";" subids ltac:(done)) as Hcat.
    destruct (exists_last (py_split_nonnil ";" subids)) as [init [w Hw]].
    rewrite Hw in Hcat |- *. rewrite map_app. eexists _, _. split; [reflexivity|]. split.
    { apply last_char_dot. rewrite concat_snoc in Hcat.
      destruct init as [|x xs]; [by subst|].
      rewrite <- Hcat, last_char_app in Els.
      change (";" ++ w)%string with (String ";" w) in Els. rewrite last_char_cons in Els.
      destruct (last_char w); [done|]. by injection Els as <-. }
    intros x Hx Hxc. apply list_elem_of_fmap in Hx as [p [-> Hp]].
    change ("." ++ p)%string with (String "." p) in Hxc. rewrite last_char_app, last_char_cons in Hxc.
    destruct (last_char p) as [c'|] eqn:Ep; [|by injection Hxc as <-].
    injection Hxc as ->. apply str_contains_app_left.
    change (String "." subids) with ("." ++ subids)%string.
    apply str_contains_app_left. rewrite <- Hcat. by apply (concat_semi_piece _ _ _ p).
  - destruct (ends_with_char "?" s) eqn:Eq.
    + unfold ends_with_char in Eq. rewrite Hc in Eq. by apply Ascii.eqb_eq in Eq.
    + intros [= <-]. exists [], s. split; [done|]. split; [done|]. by intros x ?%elem_of_nil.
Qed.

Lemma expand_sref_range s outs :
  str_contains range_sign s = true -> expand_sref s = Some outs ->
  forall o, o ∈ outs -> exists a, last_char o = Some a /\ is_digit a = true.
Proof.
  intros Hr. pose proof (py_split_has_sep range_sign s ltac:(done) Hr) as Hl.
  unfold expand_sref. cbv zeta.
  destruct (1 <? length (py_split range_sign s))%nat eqn:E; [|apply Nat.ltb_ge in E; lia].
  set (first0 := hd "" (py_rsplit1 "." (hd "" (py_split range_sign s)))).
  set (idfirst := py_rsplit1 "." (hd "" (py_split range_sign s))).
  set (lastid0 := List.last (py_rsplit1 "." (List.last (py_split range_sign s) "")) "").
  assert (Hextra : forall ps o,
    o ∈ omap (M:=list) (fun p => (fun d => first0 ++ "." ++ d)%string <$> match_digits p) ps ->
    exists a, last_char o = Some a /\ is_digit a = true).
  { intros ps o Ho. apply list_elem_of_omap in Ho as [p [_ Hp]].
    apply fmap_Some in Hp as [d [Hd ->]]. apply match_digits_spec in Hd as [Hd Hne].
    destruct (digit_string_last d Hd Hne) as [a [Ha Hda]]. exists a. split; [|done].
    by apply last_char_dot. }
  assert (Hrange : forall lastid o,
    o ∈ match match_digits (List.last idfirst ""), match_digits lastid with
        | Some nf, Some nl =>
          match digits_value nf, digits_value nl with
          | Some f, Some l => map (fun x => first0 ++ "." ++ Z_to_string x)%string (z_range f l)
          | _, _ => []
          end
        | _, _ => []
        end ->
    exists a, last_char o = Some a /\ is_digit a = true).
  { intros lastid o Ho.
    destruct (match_digits (List.last idfirst "")) as [nf|], (match_digits lastid) as [nl|];
      try by apply elem_of_nil in Ho.
    destruct (digits_value nf), (digits_value nl); try by apply elem_of_nil in Ho.
    apply list_elem_of_fmap in Ho as [x [-> _]].
    destruct (Z_to_string_last x) as [a [Ha Hda]]. exists a. split; [|done].
    by apply last_char_dot. }
  destruct (str_contains ";" lastid0); intros [= <-] o Ho.
  - apply elem_of_app in Ho as [Ho|Ho]; [exact (Hextra _ o Ho)|exact (Hrange _ o Ho)].
  - exact (Hrange _ o Ho).
Qed.

Lemma relation_suffix_chars c :
  (c = "-" \/ c = ">" \/ c = "<" \/ c = "!")%char ->
  is_letter c = false /\ c <> ":"%char /\ c <> "?"%char /\ c <> "."%char /\ c <> ";"%char.
Proof. intros [-> | [-> | [-> | ->]]]; repeat split; done. Qed.

Lemma str_contains_range_letters u s :
  str_forallb is_letter u = true ->
  str_contains range_sign (u ++ s) = str_contains range_sign s.
Proof. intros Hu. apply (str_contains_app_l is_letter); [done|by vm_compute]. Qed.

Lemma py_strip_letter_head a s : is_letter a = true -> py_strip (String a s) <> EmptyString.
Proof.
  intros Ha. unfold py_strip, strip_by. simpl. rewrite (letter_not_space a Ha).
  by apply rstrip_by_head, letter_not_space.
Qed.

Module C7.

(** C7 (corrected): a sub-token ending in a relation suffix [c] among
    [-], [>], [<] and [!] is not given that suffix on every ID it expands
    to. Without "÷" it yields no ID, or IDs whose last one ends in [c];
    an earlier ID of a semicolon sub-list ends in [c] only when the
    sub-token itself has [c] right before a ";" (["44.1;2>"] gives
    ["NFPL44.1 NFPL44.2>"], ["44.1>;2>"] gives ["NFPL44.1> NFPL44.2>"]).
    With "÷" every ID it yields ends in a digit, so the suffix is dropped
    from all of them. The namespace prefixes are letters. *)
Theorem relation_suffix_on_last_id (pd pnf : string) (langs : list string) (pother sref : string)
    (c : ascii) (outs : list string) :
  str_forallb is_letter pd = true -> str_forallb is_letter pnf = true ->
  str_forallb is_letter pother = true ->
  (c = "-" \/ c = ">" \/ c = "<" \/ c = "!")%char ->
  last_char sref = Some c ->
  process_sref pd pnf langs pother sref = Some outs ->
  (str_contains range_sign sref = false ->
     outs = [] \/
     exists init o, outs = init ++ [o] /\ last_char o = Some c /\
       forall x, x ∈ init -> last_char x = Some c ->
         str_contains (String c (String ";" EmptyString)) sref = true) /\
  (str_contains range_sign sref = true ->
     forall o, o ∈ outs -> exists a, last_char o = Some a /\ is_digit a = true).
Proof.
  intros Hd Hn Ho Hc Hl Hp.
  destruct (relation_suffix_chars c Hc) as (Hcl & Hcc & Hcq & Hcd & Hcs).
  unfold process_sref in Hp.
  destruct (String.eqb (py_strip sref) "").
  { injection Hp as <-. split; [by left|]. intros _ o Ho'. by apply elem_of_nil in Ho'. }
  destruct (prefix_sref pd pnf langs pother sref) as [[sref'|]|] eqn:Ep; [|
    injection Hp as <-; split; [by left|]; intros _ o Ho'; by apply elem_of_nil in Ho'|done].
  destruct (prefix_sref_shape pd pnf langs pother sref sref' Hd Hn Ho Ep)
    as (pre & body & Esr & Hpre & Hrs & Hlast).
  specialize (Hlast c Hl Hcl Hcc).
  assert (Hr : str_contains range_sign sref' = str_contains range_sign sref).
  { subst sref'. by rewrite str_contains_range_letters. }
  assert (Hl' : last_char sref' = Some c) by (subst sref'; by rewrite last_char_app, Hlast).
  split.
  - intros Hn'. right.
    destruct (expand_sref_no_range sref' c outs) as (init & o & -> & Hlo & Hinit);
      [congruence|done..|].
    exists init, o. split; [done|]. split; [done|].
    intros x Hx Hxc.
    exact (prefix_sref_contains pd pnf langs pother sref sref' (String c (String ";" EmptyString)) Hd Hn Ho Hcl Ep (Hinit x Hx Hxc)).
  - intros Hy. apply (expand_sref_range sref'); [congruence|done].
Qed.

Lemma relation_suffix_on_last_id_witness :
  normalize_ref "44.1>;2>" "PL" "NF" ["PL"] "OTH" = Some "NFPL44.1> NFPL44.2>" /\
  process_sref "PL" "NF" ["PL"] "OTH" "44.1;2>" = Some ["NFPL44.1"; "NFPL44.2>"] /\
  ((str_contains range_sign "44.1;2>" = false ->
     ["NFPL44.1"; "NFPL44.2>"] = [] \/
     exists init o, ["NFPL44.1"; "NFPL44.2>"] = init ++ [o] /\ last_char o = Some ">"%char /\
       forall x, x ∈ init -> last_char x = Some ">"%char ->
         str_contains (String ">" (String ";" EmptyString)) "44.1;2>" = true) /\
   (str_contains range_sign "44.1;2>" = true ->
     forall o, o ∈ ["NFPL44.1"; "NFPL44.2>"] -> exists a, last_char o = Some a /\ is_digit a = true)).
Proof.
  split; [vm_compute; reflexivity|].
  split; [vm_compute; reflexivity|].
  apply (relation_suffix_on_last_id "PL" "NF" ["PL"] "OTH" "44.1;2>" ">"%char ["NFPL44.1"; "NFPL44.2>"]).
  - reflexivity.
  - reflexivity.
  - reflexivity.
  - right; left; reflexivity.
  - reflexivity.
  - vm_compute; reflexivity.
Defined.

(** C7 (counterexample): the suffix is lost on every ID of a range, and
    on the earlier IDs of a semicolon sub-list that does not repeat it. *)
Lemma range_and_sublist_drop_suffix :
  normalize_ref "9.1÷9.2>" "PL" "NF" ["PL"] "OTH" = Some "NFPL9.1 NFPL9.2" /\
  normalize_ref "44.1;2>" "PL" "NF" ["PL"] "OTH" = Some "NFPL44.1 NFPL44.2>".
Proof. split; vm_compute; reflexivity. Qed.

End C7.

Module C8.

(** C8 (corrected): a sub-token whose leading letters are not a known
    prefix is dropped: the loop body appends no ID at all for it, so
    nothing prefixed with [prefix_other] reaches the output. *)
Theorem unknown_prefix_dropped (pd pnf : string) (langs : list string) (pother letters rest : string) :
  letters <> EmptyString -> str_forallb is_letter letters = true ->
  match rest with String b _ => is_letter b = false | EmptyString => True end ->
  str_in letters langs = false ->
  process_sref pd pnf langs pother (letters ++ rest) = Some [].
Proof.
  intros Hne Hlet Hrest Hin. destruct letters as [|l ls]; [done|].
  pose proof Hlet as Hl. cbn [str_forallb] in Hl. apply andb_true_iff in Hl as [Hl _].
  unfold process_sref. rewrite str_app_cons.
  destruct (String.eqb_spec (py_strip (String l (ls ++ rest))) "") as [E|_];
    [by apply py_strip_letter_head in E|].
  unfold prefix_sref. rewrite (letter_not_digit l Hl), <- str_app_cons.
  unfold match_letters. rewrite (span_by_letters is_letter _ rest Hlet Hrest). cbn [fst].
  by rewrite Hin.
Qed.

Lemma unknown_prefix_dropped_witness :
  process_sref "PL" "NF" ["PL"] "OTH" ("DE" ++ "12.3") = Some [].
Proof.
  apply (unknown_prefix_dropped "PL" "NF" ["PL"] "OTH" "DE" "12.3").
  - discriminate.
  - reflexivity.
  - reflexivity.
  - reflexivity.
Defined.

(** C8 (counterexample): a reference with an unknown prefix does not
    appear in the output. *)
Lemma unknown_prefix_not_in_output :
  normalize_ref "DE12.3" "PL" "NF" ["PL"] "OTH" = Some "".
Proof. vm_compute. reflexivity. Qed.

End C8.

Module C6.

(** C6 (counterexample): the [?] marker is honoured only for a plain
    sub-token: a semicolon sub-list keeps its IDs (the last one with the
    [?]), a range keeps all of its IDs, and only the plain ["44.2?"] is
    excluded. *)
Lemma uncertain_sublist_and_range_kept :
  normalize_ref "44.1;2?" "PL" "NF" ["PL"] "OTH" = Some "NFPL44.1 NFPL44.2?" /\
  normalize_ref "9.1÷9.2?" "PL" "NF" ["PL"] "OTH" = Some "NFPL9.1 NFPL9.2" /\
  normalize_ref "44.2?" "PL" "NF" ["PL"] "OTH" = Some "".
Proof. split; [|split]; vm_compute; reflexivity. Qed.

End C6.

(* ===================================================================== *)
(** ** Lemmas on derivative inference *)
(* ===================================================================== *)

Section DerivativeLemmas.
Context {V : Type} `{EqDecision V}.
Variables (R5 R5i : V) (drels : list V).
Implicit Types (g : graph V) (s p o : V).

Lemma elem_of_predicates g s p o : p ∈ predicates g s o <-> (s, p, o) ∈ g.
Proof.
  unfold predicates. rewrite list_elem_of_omap. split.
  - intros [[[s' p'] o'] [Hin Heq]]. case_bool_decide as Hc; [|done].
    destruct Hc as [-> ->]. by injection Heq as ->.
  - intros Hin. exists (s, p, o). split; [done|]. by rewrite bool_decide_true.
Qed.

Lemma elem_of_deriv_objects g s o :
  o ∈ deriv_objects drels g s <-> exists d, d ∈ drels /\ (s, d, o) ∈ g.
Proof.
  unfold deriv_objects. rewrite elem_of_remove_dups, list_elem_of_omap. split.
  - intros [[[s' p'] o'] [Hin Heq]]. case_bool_decide as Hc; [|done].
    destruct Hc as [-> Hd]. injection Heq as ->. by exists p'.
  - intros (d & Hd & Hin). exists (s, d, o). split; [done|]. by rewrite bool_decide_true.
Qed.

Lemma elem_of_add_all g ts u : u ∈ add_all g ts <-> u ∈ g \/ u ∈ ts.
Proof.
  unfold add_all. revert g. induction ts as [|t ts IH]; intros g; simpl.
  - rewrite elem_of_nil. tauto.
  - rewrite IH, elem_of_add, elem_of_cons. tauto.
Qed.

Lemma elem_of_intersect_all ps pss p :
  p ∈ intersect_all (ps :: pss) <-> p ∈ ps /\ Forall (fun qs => p ∈ qs) pss.
Proof. simpl. rewrite list_elem_of_filter. tauto. Qed.

Section WithInput.
Variable g0 : graph V.
Hypothesis Hcons : hierarchy_consistent R5 R5i g0.
Hypothesis Hirr : deriv_irreflexive drels g0.

Lemma infer_children_inv (rec : graph V -> V -> option (derivinfo * graph V)) cs gc dis g1 :
  (forall gc c di gc', c ∈ cs -> deriv_inv R5 R5i g0 gc -> rec gc c = Some (di, gc') ->
     deriv_inv R5 R5i g0 gc' /\ info_ok R5 R5i g0 c di) ->
  deriv_inv R5 R5i g0 gc -> infer_children rec gc cs = Some (dis, g1) ->
  deriv_inv R5 R5i g0 g1 /\ Forall2 (info_ok R5 R5i g0) cs dis.
Proof.
  intros Hrec. revert gc dis. induction cs as [|c cs IH]; intros gc dis Hinv; simpl.
  - intros [= <- <-]. done.
  - destruct (rec gc c) as [[di gc1]|] eqn:Ec; [|done].
    destruct (Hrec gc c di gc1 ltac:(left) Hinv Ec) as [Hinv1 Hok].
    destruct (infer_children rec gc1 cs) as [[dis' g2]|] eqn:Er; [|done].
    intros [= <- <-].
    assert (Hrec' : forall gc c di gc', c ∈ cs -> deriv_inv R5 R5i g0 gc -> rec gc c = Some (di, gc') ->
                      deriv_inv R5 R5i g0 gc' /\ info_ok R5 R5i g0 c di).
    { intros ? ? ? ? Hc. apply Hrec. by right. }
    destruct (IH Hrec' gc1 dis' Hinv1 Er) as [Hinv2 Hall].
    split; [done|]. by constructor.
Qed.

Lemma infer_derivative_inv fuel gc s di gc' :
  deriv_inv R5 R5i g0 gc -> infer_derivative R5 R5i drels fuel gc s = Some (di, gc') ->
  deriv_inv R5 R5i g0 gc' /\ info_ok R5 R5i g0 s di.
Proof.
  revert gc s di gc'. induction fuel as [|f IH]; intros gc s di gc' Hinv; [done|].
  pose proof Hinv as (Hsub & H5 & H5i & Hne).
  cbn [infer_derivative].
  destruct (objects gc s R5) as [|c0 cs] eqn:Ech.
  - (* a leaf *)
    destruct (deriv_objects drels gc s) as [|t [|]] eqn:Ed; try (intros [= <- <-]; done).
    intros [= <- <-]. split; [done|].
    assert (Ht : t ∈ deriv_objects drels gc s) by (rewrite Ed; left).
    apply elem_of_deriv_objects in Ht as (d & Hd & Ht).
    split; [|split].
    + intros ->. destruct (decide ((s, d, s) ∈ g0)) as [Hin|Hnin].
      * by apply (Hirr s d).
      * by apply (Hne s d s).
    + rewrite elem_of_remove_dups, elem_of_predicates. intros H.
      apply elem_of_objects in H. rewrite Ech in H. by apply elem_of_nil in H.
    + rewrite elem_of_remove_dups, elem_of_predicates. by intros ?%H5i.
  - (* a composite *)
    destruct (infer_children (infer_derivative R5 R5i drels f) gc (c0 :: cs))
      as [[dis g1]|] eqn:Ec; [|done].
    destruct (infer_children_inv _ (c0 :: cs) gc dis g1
                ltac:(intros; by eapply IH) Hinv Ec) as [Hinv1 Hok].
    destruct Hinv1 as (Hsub1 & H51 & H5i1 & Hne1).
    match goal with |- context [mapM ?h dis] =>
      destruct (mapM h dis) as [[|[ps0 t0] rest]|] eqn:Em end;
      try (intros [= <- <-]; done).
    apply mapM_Some in Em.
    case_bool_decide as Hsame; [|intros [= <- <-]; done].
    destruct (value g1 t0 R5i) as [ref|] eqn:Ev; [|intros [= <- <-]; done].
    intros [= <- <-].
    apply value_elem, H5i1 in Ev.
    (* every component returned the target [t0] *)
    assert (Hinfo : forall c, c ∈ c0 :: cs -> exists ps, info_ok R5 R5i g0 c (Some (ps, t0)) /\
               (forall p, p ∈ intersect_all (ps0 :: map fst rest) -> p ∈ ps)).
    { intros c Hc. apply list_elem_of_lookup in Hc as [i Hi].
      destruct (Forall2_lookup_l _ _ _ i c Hok Hi) as [dic [Hdic Hokc]].
      destruct (Forall2_lookup_l _ _ _ i dic Em Hdic) as [[psc tc] [Hpt ->]].
      exists psc.
      destruct i as [|i].
      - injection Hpt as <- <-. split; [done|]. by intros p [? _]%elem_of_intersect_all.
      - simpl in Hpt. rewrite Forall_forall in Hsame.
        pose proof (Hsame (psc, tc) ltac:(by eapply list_elem_of_lookup_2)) as Htc.
        simpl in Htc. subst tc. split; [done|].
        intros p [_ Hp]%elem_of_intersect_all. rewrite Forall_forall in Hp.
        apply Hp, list_elem_of_fmap. exists (psc, t0). split; [done|].
        by eapply list_elem_of_lookup_2. }
    destruct (Hinfo c0 ltac:(left)) as [ps0' [(Hne0 & H50 & H5i0) Hsub0]].
    assert (Hc0 : (s, R5, c0) ∈ g0).
    { apply H5, elem_of_objects. rewrite Ech. left. }
    assert (Href : ref <> s).
    { intros ->. apply (proj1 Hcons) in Ev. apply H5, elem_of_objects in Ev.
      rewrite Ech in Ev. destruct (Hinfo t0 Ev) as [? [[? _] _]]. done. }
    assert (HR5 : R5 ∉ intersect_all (ps0 :: map fst rest)) by (intros H; by apply H50, Hsub0).
    assert (HR5i : R5i ∈ intersect_all (ps0 :: map fst rest) -> (s, R5i, ref) ∈ g0).
    { intros H. apply Hsub0, H5i0 in H.
      assert (Hp : (c0, R5i, s) ∈ g0) by (by apply (proj1 Hcons)).
      rewrite <- ((proj2 Hcons) c0 t0 s H Hp). done. }
    split; [|done].
    split; [|split; [|split]].
    + etransitivity; [done|]. intros u Hu. apply elem_of_add_all. by left.
    + intros x y. rewrite elem_of_add_all, list_elem_of_fmap. split.
      * intros [Hx|(p & [= -> Hp -> ] & Hin)]; [by apply H51|]. by subst.
      * intros Hx. left. by apply H51.
    + intros x y. rewrite elem_of_add_all, list_elem_of_fmap. split.
      * intros [Hx|(p & [= -> Hp -> ] & Hin)]; [by apply H5i1|]. subst p. by apply HR5i.
      * intros Hx. left. by apply H5i1.
    + intros x p y. rewrite elem_of_add_all, list_elem_of_fmap.
      intros [Hx|(p' & [= -> -> ->] & _)] Hn; [by apply (Hne1 x p y)|]. done.
Qed.
End WithInput.
End DerivativeLemmas.

Lemma foldl_bind_inv {A B} (P : A -> Prop) (f : A -> B -> option A) (l : list B) a a' :
  P a -> (forall x b r, P x -> f x b = Some r -> P r) ->
  foldl (fun acc b => x ← acc; f x b) (Some a) l = Some a' -> P a'.
Proof.
  intros Ha Hf. revert a Ha. induction l as [|b l IH]; intros a Ha; simpl.
  - by intros [= <-].
  - destruct (f a b) as [r|] eqn:E.
    + apply IH. by eapply Hf.
    + clear. intros H. exfalso. induction l as [|c l IHl]; simpl in H; [done|]. by apply IHl.
Qed.

Lemma forallb_elem_of {A} (f : A -> bool) (l : list A) :
  forallb f l = true <-> forall x, x ∈ l -> f x = true.
Proof. rewrite forallb_forall. by setoid_rewrite list_elem_of_In. Qed.

Section DerivativeRun.
Context {V : Type} `{EqDecision V}.
Variables (R5 R5i : V) (drels : list V).

Lemma infer_derivatives_inv fuel g g' :
  hierarchy_consistent R5 R5i g -> deriv_irreflexive drels g ->
  infer_derivatives R5 R5i drels fuel g = Some g' -> deriv_inv R5 R5i g g'.
Proof.
  intros Hc Hi. unfold infer_derivatives.
  apply (foldl_bind_inv (deriv_inv R5 R5i g)).
  - split; [done|]. split; [done|]. split; [done|]. intros x p y Hin Hn. done.
  - intros gc s r Hinv. destruct (value gc s R5i) as [?|].
    + by intros [= <-].
    + destruct (infer_derivative R5 R5i drels fuel gc s) as [[di gc']|] eqn:E; [|done].
      intros [= <-]. by destruct (infer_derivative_inv R5 R5i drels g Hc Hi fuel gc s di gc' Hinv E).
Qed.

Lemma hierarchy_consistentb_spec g :
  hierarchy_consistentb R5 R5i g = true -> hierarchy_consistent R5 R5i g.
Proof.
  unfold hierarchy_consistentb. rewrite forallb_elem_of. intros Hb. split.
  - intros x y. split.
    + intros Hin. specialize (Hb _ Hin). simpl in Hb.
      apply andb_prop in Hb as [[H1 _]%andb_prop _]. by apply bool_decide_eq_true in H1; apply H1.
    + intros Hin. specialize (Hb _ Hin). simpl in Hb.
      apply andb_prop in Hb as [[_ H2]%andb_prop _]. by apply bool_decide_eq_true in H2; apply H2.
  - intros x y y' H1 H2. specialize (Hb _ H1). simpl in Hb.
    apply andb_prop in Hb as [_ H3]. rewrite forallb_elem_of in H3.
    specialize (H3 _ H2). simpl in H3. apply bool_decide_eq_true in H3. symmetry. by apply H3.
Qed.

Lemma deriv_irreflexiveb_spec g :
  deriv_irreflexiveb drels g = true -> deriv_irreflexive drels g.
Proof.
  unfold deriv_irreflexiveb. rewrite forallb_elem_of. intros Hb x p Hp Hin.
  specialize (Hb _ Hin). simpl in Hb. apply bool_decide_eq_true in Hb. by apply Hb.
Qed.

Lemma deriv_asymmetricb_spec g :
  deriv_asymmetricb drels g = true -> deriv_asymmetric drels g.
Proof.
  unfold deriv_asymmetricb. rewrite forallb_elem_of. intros Hb x y p Hp Hin.
  specialize (Hb _ Hin). simpl in Hb. apply bool_decide_eq_true in Hb. by apply Hb.
Qed.
End DerivativeRun.

Module C1.

(** C1 (counterexample).  [A = {a1, a2}] and [B = {b1, b2}] form a
    consistent hierarchy, [a1] is a translation of [b1] and [a2] of [b2];
    the pass ends (with fuel to spare) and leaves the graph as it was: no
    [A S761_is_translation_of B] is asserted, because the two components
    return different targets [b1] and [b2]. *)
Lemma parallel_translations_not_lifted :
  hierarchy_consistentb R5_has_component R5i_is_component_of parallel_parents = true /\
  infer_derivatives_lkg 10 parallel_parents = Some parallel_parents /\
  ("A", S761_is_translation_of, "B")%string ∉ parallel_parents.
Proof.
  split; [vm_compute; reflexivity|]. split; [vm_compute; reflexivity|].
  unfold parallel_parents. rewrite !elem_of_cons, elem_of_nil. intros H.
  repeat destruct H as [H|H]; try done; injection H; intros; done.
Qed.

End C1.

Module C3.

(** C3 (amended).  On an input whose component hierarchy is consistent
    ([R5i_is_component_of] the converse of [R5_has_component], one parent
    per node) and whose derivative relations are irreflexive, the pass
    only adds triples, every added triple joins two distinct entities, and
    the resulting graph has no self-derivative.  Asymmetry is not kept. *)
Theorem derived_relations_irreflexive (fuel : nat) (g g' : graph string) :
  hierarchy_consistent R5_has_component R5i_is_component_of g ->
  deriv_irreflexive derivrels g ->
  infer_derivatives_lkg fuel g = Some g' ->
  g ⊆ g' /\
  (forall x p y, (x, p, y) ∈ g' -> (x, p, y) ∉ g -> x <> y) /\
  deriv_irreflexive derivrels g'.
Proof.
  intros Hc Hi Hrun.
  destruct (infer_derivatives_inv _ _ _ fuel g g' Hc Hi Hrun) as (Hsub & _ & _ & Hne).
  split; [done|]. split; [done|].
  intros x p Hp Hin. destruct (decide ((x, p, x) ∈ g)) as [Hg|Hg].
  - by apply (Hi x p).
  - by apply (Hne x p x).
Qed.

Lemma derived_relations_irreflexive_witness :
  hierarchy_consistent R5_has_component R5i_is_component_of reverse_parents /\
  deriv_irreflexive derivrels reverse_parents /\
  infer_derivatives_lkg 10 reverse_parents =
    Some (reverse_parents ++ [("A", S761_is_translation_of, "B")%string]) /\
  (reverse_parents ⊆ reverse_parents ++ [("A", S761_is_translation_of, "B")%string] /\
   (forall x p y, (x, p, y) ∈ reverse_parents ++ [("A", S761_is_translation_of, "B")%string] ->
      (x, p, y) ∉ reverse_parents -> x <> y) /\
   deriv_irreflexive derivrels (reverse_parents ++ [("A", S761_is_translation_of, "B")%string])).
Proof.
  assert (Hc : hierarchy_consistent R5_has_component R5i_is_component_of reverse_parents)
    by (apply hierarchy_consistentb_spec; vm_compute; reflexivity).
  assert (Hi : deriv_irreflexive derivrels reverse_parents)
    by (apply deriv_irreflexiveb_spec; vm_compute; reflexivity).
  assert (Hr : infer_derivatives_lkg 10 reverse_parents =
    Some (reverse_parents ++ [("A", S761_is_translation_of, "B")%string]))
    by (vm_compute; reflexivity).
  split; [exact Hc|]. split; [exact Hi|]. split; [exact Hr|].
  exact (derived_relations_irreflexive 10 _ _ Hc Hi Hr).
Defined.

(** C3 (counterexample).  [reverse_parents] is consistent, irreflexive and
    asymmetric, and the pass adds [A S761 B] while [B S761 A] holds: a
    two-cycle.  [stray_parent] is irreflexive and asymmetric (its
    hierarchy is not consistent: [t] names [S] as parent, [S] does not list
    [t]), and the pass adds the self-derivative [S S761 S]. *)
Lemma derivative_cycles_synthesized :
  hierarchy_consistentb R5_has_component R5i_is_component_of reverse_parents = true /\
  deriv_irreflexiveb derivrels reverse_parents = true /\
  deriv_asymmetricb derivrels reverse_parents = true /\
  infer_derivatives_lkg 10 reverse_parents =
    Some (reverse_parents ++ [("A", S761_is_translation_of, "B")%string]) /\
  ("B", S761_is_translation_of, "A")%string ∈ reverse_parents /\
  deriv_irreflexiveb derivrels stray_parent = true /\
  deriv_asymmetricb derivrels stray_parent = true /\
  infer_derivatives_lkg 10 stray_parent =
    Some (stray_parent ++ [("S", S761_is_translation_of, "S")%string]).
Proof.
  repeat split; try (vm_compute; reflexivity).
  unfold reverse_parents. rewrite !elem_of_cons. right; right; right; right; right. by left.
Qed.

End C3.

(* ===================================================================== *)
(** ** Lemmas on the heap actions of [infer_works] *)
(* ===================================================================== *)

Section HeapActions.
Variable lout : nat.
Abbreviation W := (writes_only lout).

Lemma writes_only_refl st : W st st.
Proof. split; [done|]. split; [done|]. split; [done|]. by left. Qed.

Lemma writes_only_trans s1 s2 s3 : W s1 s2 -> W s2 s3 -> W s1 s3.
Proof.
  intros (Hl1 & Ho1 & Hs1 & Hn1) (Hl2 & Ho2 & Hs2 & Hn2).
  split; [lia|]. split; [intros l Hl; by rewrite Ho2, Ho1|].
  split; [set_solver|]. intros t Ht. destruct (Hn2 t Ht) as [H|H]; [|by right]. by apply Hn1.
Qed.

Lemma spec_ret {A} (a : A) : spec_M W (mret a).
Proof. intros st st' r [= <- _]. apply writes_only_refl. Qed.

Lemma spec_raise {A} : spec_M W (@raise A).
Proof. intros st st' r [= <- _]. apply writes_only_refl. Qed.

Lemma spec_bind {A B} (m : M A) (k : A -> M B) :
  spec_M W m -> (forall a, spec_M W (k a)) -> spec_M W (m ≫= k).
Proof.
  intros Hm Hk st st' r. unfold mbind, M_bind.
  destruct (m st) as [st1 [a|]] eqn:E.
  - intros H. eapply writes_only_trans; [by eapply Hm|]. by eapply Hk.
  - intros [= <- _]. by eapply Hm.
Qed.

Lemma spec_get_graph l : spec_M W (get_graph l).
Proof. intros st st' r [= <- _]. apply writes_only_refl. Qed.

Lemma spec_autoinc_id p : spec_M W (autoinc_id p).
Proof.
  intros st st' r. unfold autoinc_id. destruct (make_autoinc_id p (autoinc st)).
  intros [= <- _]. split; [done|]. split; [done|]. split; [done|]. by left.
Qed.

Lemma spec_dict_get ps k : spec_M W (dict_get ps k).
Proof. unfold dict_get. destruct (dict_of ps k); [apply spec_ret|apply spec_raise]. Qed.

Lemma spec_gadd t : not_f2_type t -> spec_M W (gadd lout t).
Proof.
  intros Ht st st' r [= <- _]. unfold writes_only. cbn [heap].
  destruct (decide (lout < length (heap st))) as [Hlt|Hge].
  - split; [by rewrite length_insert|].
    split; [intros l Hl; by rewrite list_lookup_insert_ne|].
    rewrite list_lookup_total_insert_eq by done.
    split; [apply add_subseteq|].
    intros u [Hu| ->]%elem_of_add; [by left|by right].
  - rewrite list_insert_ge by lia. apply writes_only_refl.
Qed.

Lemma spec_mfor {A} (l : list A) (f : A -> M unit) :
  (forall x, x ∈ l -> spec_M W (f x)) -> spec_M W (mfor l f).
Proof.
  induction l as [|x l IH]; intros Hf; simpl; [apply spec_ret|].
  apply spec_bind; [apply Hf; left|]. intros _. apply IH. intros y Hy. apply Hf. by right.
Qed.

Lemma writes_only_lookup st st' l : W st st' -> l <> lout -> heap st' !!! l = heap st !!! l.
Proof. intros (_ & Ho & _) Hl. by rewrite !list_lookup_total_alt, Ho. Qed.

Lemma writes_only_keep st st' t : W st st' -> t ∈ heap st !!! lout -> t ∈ heap st' !!! lout.
Proof. intros (_ & _ & Hs & _) Ht. by apply Hs. Qed.

Lemma hoare_bind {A B} P R Q (m : M A) (k : A -> M B) :
  hoare P m R -> (forall a, hoare R (k a) Q) -> hoare P (m ≫= k) Q.
Proof.
  intros Hm Hk st st' b HP. unfold mbind, M_bind.
  destruct (m st) as [st1 [a|]] eqn:E; [|done].
  intros H. eapply Hk; [|exact H]. by eapply Hm.
Qed.

Lemma hoare_spec {A} (m : M A) (Q : wstate -> Prop) :
  spec_M W m -> (forall s s', Q s -> W s s' -> Q s') -> hoare Q m Q.
Proof. intros Hm HQ st st' a Hs H. eapply HQ; [done|]. by eapply Hm. Qed.

Lemma hoare_gadd t :
  hoare (fun s => lout < length (heap s)) (gadd lout t)
        (fun s => lout < length (heap s) /\ t ∈ heap s !!! lout).
Proof.
  intros st st' a Hlt [= <- _]. cbn [heap]. rewrite length_insert.
  split; [done|]. rewrite list_lookup_total_insert_eq by done. apply elem_of_add. by right.
Qed.

Lemma hoare_weaken {A} (P P' Q : wstate -> Prop) (m : M A) :
  (forall s, P s -> P' s) -> hoare P' m Q -> hoare P m Q.
Proof. intros HP Hm st st' a Hs. apply Hm. by apply HP. Qed.

Lemma hoare_get_graph_bind {B} (P Q : wstate -> Prop) l (k : graph term -> M B) :
  (forall s, P s -> hoare P (k (heap s !!! l)) Q) -> hoare P (get_graph l ≫= k) Q.
Proof. intros Hk st st' a Hs. unfold mbind, M_bind, get_graph. by apply (Hk st). Qed.

Lemma mfor_each {A} (l : list A) (f : A -> M unit) st st' :
  (forall x, spec_M W (f x)) -> mfor l f st = (st', Some tt) ->
  forall x, x ∈ l -> exists s1 s2, W st s1 /\ f x s1 = (s2, Some tt) /\ W s2 st'.
Proof.
  intros Hf. revert st. induction l as [|y l IH]; intros st Hrun x Hx; [by apply elem_of_nil in Hx|].
  simpl in Hrun. cbv [mbind M_bind] in Hrun.
  destruct (f y st) as [s1 [[]|]] eqn:E; [|done].
  apply elem_of_cons in Hx as [->|Hx].
  - exists st, s1. split; [apply writes_only_refl|]. split; [done|].
    eapply (spec_mfor l f); [intros; apply Hf|exact Hrun].
  - destruct (IH s1 Hrun x Hx) as (s2 & s3 & H1 & H2 & H3).
    exists s2, s3. split; [|done]. eapply writes_only_trans; [|exact H1]. by eapply Hf.
Qed.
End HeapActions.

Lemma mfor_noop {A} (l : list A) (f : A -> M unit) st :
  (forall x, x ∈ l -> f x st = (st, Some tt)) -> mfor l f st = (st, Some tt).
Proof.
  induction l as [|x l IH]; intros Hf; [done|]. simpl. cbv [mbind M_bind].
  rewrite (Hf x ltac:(left)). apply IH. intros y Hy. apply Hf. by right.
Qed.

(** The triples written by [infer_work] type no node as an Expression. *)
Ltac not_f2 :=
  unfold not_f2_type; cbn [fst snd]; intros Hty;
  first
  [ exfalso; revert Hty; vm_compute; intros Hty; discriminate Hty
  | subst; match goal with Hin : RDF_type ∈ _ |- _ =>
      exfalso; revert Hin; apply (proj1 (bool_decide_eq_false _)); vm_compute; reflexivity end
  | vm_compute; intros Hbad; discriminate Hbad ].

(** [spec_M (writes_only lout)] for an action built from the primitives. *)
Ltac wo :=
  repeat match goal with
  | |- spec_M _ (mbind _ _) => apply spec_bind; [|intros ?]
  | |- spec_M _ (mret _) => apply spec_ret
  | |- spec_M _ raise => apply spec_raise
  | |- spec_M _ (get_graph _) => apply spec_get_graph
  | |- spec_M _ (autoinc_id _) => apply spec_autoinc_id
  | |- spec_M _ (dict_get _ _) => apply spec_dict_get
  | |- spec_M _ (gadd _ _) => apply spec_gadd; not_f2
  | |- spec_M _ (mfor _ _) => apply spec_mfor; intros [[? ?] ?] ?
  | |- spec_M _ (mfor _ _) => apply spec_mfor; intros [? ?] ?
  | |- spec_M _ (mfor _ _) => apply spec_mfor; intros ? ?
  | |- spec_M _ (if bool_decide _ then _ else _) => case_bool_decide
  | |- spec_M _ (if _ then _ else _) => case_match
  | |- spec_M _ (match ?x with _ => _ end) => destruct x
  | |- spec_M _ _ => progress cbv beta iota zeta
  end.

Lemma spec_infer_work lin lout e : spec_M (writes_only lout) (infer_work lin lout e).
Proof. unfold infer_work. wo. Qed.

Lemma reach_nonnil fuel step todo seen : seen <> [] -> reach fuel step todo seen <> [].
Proof.
  revert todo seen. induction fuel as [|f IH]; intros todo seen Hs; [done|].
  destruct todo as [|x rest]; [done|]. cbn [reach].
  case_bool_decide; apply IH; [done|]. by destruct seen.
Qed.

Lemma path_objects_nil g e : path_objects g e = [] <-> deriv_step_fwd g e = [].
Proof.
  unfold path_objects, path_fuel. destruct (deriv_step_fwd g e) as [|x rest]; [done|].
  split; [|done]. cbn [reach]. rewrite bool_decide_false by apply not_elem_of_nil.
  intros H. exfalso. revert H. apply reach_nonnil. done.
Qed.

Lemma elem_of_deriv_step_fwd g e o :
  o ∈ deriv_step_fwd g e <-> exists p, p ∈ derivpath_rels /\ (e, p, o) ∈ g.
Proof.
  unfold deriv_step_fwd. rewrite list_elem_of_omap. split.
  - intros [[[s p] o'] [Hin Heq]]. case_bool_decide as Hc; [|done].
    destruct Hc as [-> Hp]. injection Heq as ->. by exists p.
  - intros (p & Hp & Hin). exists (e, p, o). split; [done|]. by rewrite bool_decide_true.
Qed.

Lemma nonnil_elem {A} (l : list A) : l <> [] <-> exists x, x ∈ l.
Proof.
  destruct l as [|x l]; split.
  - done.
  - intros [x Hx]. by apply elem_of_nil in Hx.
  - intros _. exists x. left.
  - done.
Qed.

Lemma value_not_None {V} `{EqDecision V} (g : graph V) s p :
  value g s p <> None <-> exists o, (s, p, o) ∈ g.
Proof.
  unfold value. setoid_rewrite <- elem_of_objects.
  destruct (objects g s p) as [|x l]; simpl; split.
  - done.
  - intros [o Ho]. by apply elem_of_nil in Ho.
  - intros _. exists x. left.
  - done.
Qed.

Lemma work_skipped_mono g g' e : g ⊆ g' -> work_skipped g e -> work_skipped g' e.
Proof.
  intros Hsub [Hp|[Hv|Hs]]; unfold work_skipped.
  - left. intros Hp'. apply Hp. apply path_objects_nil in Hp'. apply path_objects_nil.
    destruct (deriv_step_fwd g e) as [|o l] eqn:E; [done|]. exfalso.
    assert (Ho : o ∈ deriv_step_fwd g e) by (rewrite E; left).
    apply elem_of_deriv_step_fwd in Ho as (p & Hp0 & Hin).
    assert (Ho' : o ∈ deriv_step_fwd g' e) by (apply elem_of_deriv_step_fwd; exists p; split; [done|]; by apply Hsub).
    rewrite Hp' in Ho'. by apply elem_of_nil in Ho'.
  - right; left. apply value_not_None in Hv as [o Ho]. apply value_not_None. exists o. by apply Hsub.
  - right; right. apply nonnil_elem in Hs as [o Ho]. apply nonnil_elem. exists o.
    apply elem_of_objects. apply Hsub. by apply elem_of_objects.
Qed.

Lemma infer_work_skip lin lout e st :
  work_skipped (heap st !!! lin) e -> infer_work lin lout e st = (st, Some tt).
Proof.
  intros Hsk. unfold infer_work. cbv [mbind M_bind get_graph]. cbv zeta.
  destruct (decide (path_objects (heap st !!! lin) e = [])) as [Hp|Hp];
    [|rewrite (bool_decide_false _ Hp); reflexivity].
  destruct (decide (value (heap st !!! lin) e R3i_realises = None)) as [Hv|Hv];
    [|rewrite (bool_decide_true _ Hp), (bool_decide_false _ Hv); reflexivity].
  rewrite (bool_decide_true _ Hp), (bool_decide_true _ Hv). cbn [andb].
  destruct Hsk as [?|[?|Hs]]; [done|done|].
  rewrite (bool_decide_true _ Hs). reflexivity.
Qed.

(** When [infer_work] does not skip [e] and returns, the new graph says
    that [e], read back through [get_id_from_uri] and [LKG], realises the
    new Work. *)
Lemma infer_work_realises lin lout e st st' :
  lout < length (heap st) ->
  infer_work lin lout e st = (st', Some tt) ->
  work_skipped (heap st !!! lin) e \/
  (Iri (lkg (get_id_from_uri (term_str e))), R3i_realises,
   Iri (lkg (replace1 "F2_" "F1_" (get_id_from_uri (term_str e))))) ∈ heap st' !!! lout.
Proof.
  intros Hlt Hrun.
  destruct (decide (work_skipped (heap st !!! lin) e)) as [|Hns]; [by left|right].
  assert (Hp : path_objects (heap st !!! lin) e = []).
  { destruct (decide (path_objects (heap st !!! lin) e = [])); [done|]. exfalso. apply Hns. by left. }
  assert (Hv : value (heap st !!! lin) e R3i_realises = None).
  { destruct (decide (value (heap st !!! lin) e R3i_realises = None)); [done|].
    exfalso. apply Hns. by right; left. }
  assert (Hs : ~ objects (heap st !!! lin) e SKIP <> []).
  { intros Hs. apply Hns. by right; right. }
  assert (H : hoare (fun s => s = st /\ lout < length (heap s)) (infer_work lin lout e)
    (fun s => lout < length (heap s) /\
       (Iri (lkg (get_id_from_uri (term_str e))), R3i_realises,
        Iri (lkg (replace1 "F2_" "F1_" (get_id_from_uri (term_str e))))) ∈ heap s !!! lout)).
  { unfold infer_work. apply hoare_get_graph_bind. intros s [-> _].
    apply (hoare_weaken _ (fun s => lout < length (heap s))); [by intros ? [_ ?]|].
    cbv zeta. rewrite (bool_decide_true _ Hp), (bool_decide_true _ Hv), (bool_decide_false _ Hs).
    cbn [andb].
    repeat lazymatch goal with
    | |- hoare _ (mbind _ (gadd _ (_, R3i_realises, _))) _ => fail
    | |- hoare _ (mbind _ _) _ =>
        eapply hoare_bind;
        [apply (hoare_spec lout); [wo|intros ? ? ? [? _]; lia] | intros ?; cbv beta]
    end.
    eapply hoare_bind; [apply (hoare_gadd lout)|intros ?; cbv beta].
    apply (hoare_spec lout); [wo|].
    intros s s' [Hl Ht] Hw. split; [by destruct Hw; lia|]. by eapply writes_only_keep. }
  exact (proj2 (H st st' tt (conj eq_refl Hlt) Hrun)).
Qed.

Lemma infer_works_unfold lin st :
  infer_works lin st =
  match mfor (subjects ((heap st ++ [[]]) !!! lin) RDF_type F2_Expression)
             (infer_work lin (length (heap st))) (mk_wstate (heap st ++ [[]]) (autoinc st)) with
  | (s1, Some _) => (s1, Some (length (heap st)))
  | (s1, None) => (s1, None)
  end.
Proof. reflexivity. Qed.

Lemma elem_of_subjects {V} `{EqDecision V} (g : graph V) s p o : s ∈ subjects g p o <-> (s, p, o) ∈ g.
Proof.
  unfold subjects. rewrite list_elem_of_omap. split.
  - intros [[[s' p'] o'] [Hin Heq]]. case_bool_decide as Hc; [|done].
    destruct Hc as [-> ->]. by injection Heq as ->.
  - intros Hin. exists (s, p, o). split; [done|]. by rewrite bool_decide_true.
Qed.

(** The run of the loop of [infer_works] on the fresh graph [lout]. *)
Lemma infer_works_loop_frame lin st s1 r :
  mfor (subjects ((heap st ++ [[]]) !!! lin) RDF_type F2_Expression)
       (infer_work lin (length (heap st))) (mk_wstate (heap st ++ [[]]) (autoinc st)) = (s1, r) ->
  heap s1 = heap st ++ [heap s1 !!! length (heap st)].
Proof.
  intros E.
  assert (Hw : writes_only (length (heap st)) (mk_wstate (heap st ++ [[]]) (autoinc st)) s1).
  { eapply spec_mfor; [intros; apply spec_infer_work|exact E]. }
  destruct Hw as (Hl & Ho & _). cbn [heap] in Hl, Ho. rewrite length_app in Hl. simpl in Hl.
  apply list_eq. intros i.
  destruct (decide (i = length (heap st))) as [->|Hi].
  - rewrite list_lookup_lookup_total_lt by lia.
    rewrite lookup_app_r by lia. by rewrite Nat.sub_diag.
  - rewrite Ho by done. destruct (decide (i < length (heap st))).
    + by rewrite !lookup_app_l.
    + rewrite !lookup_ge_None_2; [done| |]; rewrite length_app; simpl; lia.
Qed.

Lemma lkg_expressionsb_spec g :
  lkg_expressionsb g = true ->
  forall e, e ∈ subjects g RDF_type F2_Expression -> exists u, e = Iri u /\ lkg (get_id_from_uri u) = u.
Proof.
  unfold lkg_expressionsb. rewrite forallb_elem_of. intros Hb e He. specialize (Hb e He).
  destruct e as [u|u|u dt]; try done. exists u. split; [done|]. by apply bool_decide_eq_true in Hb.
Qed.

Lemma remove_fold_spec (L g : graph term) t : t ∈ foldl remove g L <-> t ∈ g /\ t ∉ L.
Proof.
  revert g. induction L as [|x L IH]; intros g; simpl.
  - rewrite elem_of_nil. tauto.
  - rewrite IH. unfold remove. rewrite list_elem_of_filter, elem_of_cons. tauto.
Qed.

Module C9.

(** C9.  [remove_tempflags] leaves no triple whose predicate is [SKIP]
    and keeps every other triple: its result is exactly the triples of the
    input whose predicate is not [SKIP].  In [build_graph] it runs after
    [graph += gw], the last write before the graph is serialised. *)
Theorem no_skip_marker_left (g : graph term) :
  (forall s o, (s, SKIP, o) ∉ remove_tempflags g) /\
  (forall t, t ∈ remove_tempflags g <-> t ∈ g /\ t.1.2 <> SKIP).
Proof.
  assert (Hiff : forall t, t ∈ remove_tempflags g <-> t ∈ g /\ t.1.2 <> SKIP).
  { intros t. unfold remove_tempflags. rewrite remove_fold_spec, list_elem_of_filter. tauto. }
  split; [|exact Hiff]. intros s o H. apply Hiff in H as [_ H]. by apply H.
Qed.

End C9.

Module C10.

(** C10.  [infer_works] writes only to the graph it creates: after a run,
    raising or returning, the heap is the heap before the run with one new
    graph appended, so the input graph and every other graph are the same
    as before, and a returning run returns the new graph's location. *)
Theorem infer_works_leaves_input (lin : nat) (st : wstate) :
  (exists gw, heap (infer_works lin st).1 = heap st ++ [gw]) /\
  ((infer_works lin st).2 = None \/ (infer_works lin st).2 = Some (length (heap st))).
Proof.
  rewrite infer_works_unfold.
  destruct (mfor _ _ _) as [s1 r] eqn:E.
  pose proof (infer_works_loop_frame lin st s1 r E) as Hf.
  destruct r as [[]|]; cbn [fst snd]; (split; [by eexists|]); [right|left]; done.
Qed.

End C10.

Module C2.

(** C2 (amended).  On an input whose Expressions are IRIs that
    [LKG[get_id_from_uri(e)]] gives back, after [gw = infer_works(graph)]
    and [graph += gw], a second run of [infer_works] on the merged graph
    creates no Work: it returns a new, empty graph and leaves the
    [make_autoinc_id] counters as they were. *)
Theorem second_run_creates_no_work (lin lout : nat) (st st1 : wstate) :
  lin < length (heap st) ->
  (forall e, e ∈ subjects (heap st !!! lin) RDF_type F2_Expression ->
     exists u, e = Iri u /\ lkg (get_id_from_uri u) = u) ->
  infer_and_merge lin st = (st1, Some lout) ->
  infer_works lin st1 = (mk_wstate (heap st1 ++ [[]]) (autoinc st1), Some (length (heap st1))).
Proof.
  intros Hlin Hiri Hrun.
  unfold infer_and_merge in Hrun. cbv [mbind M_bind] in Hrun.
  rewrite infer_works_unfold in Hrun.
  set (lo := length (heap st)) in *.
  set (s0 := mk_wstate (heap st ++ [[]]) (autoinc st)) in *.
  assert (HG0 : (heap st ++ [[]]) !!! lin = heap st !!! lin) by (by rewrite lookup_total_app_l).
  rewrite HG0 in Hrun.
  set (G := heap st !!! lin) in *.
  destruct (mfor _ _ s0) as [sA [[]|]] eqn:E1; [|done].
  cbv [graph_iadd mret M_ret] in Hrun. injection Hrun as <- <-.
  assert (Hw : writes_only lo s0 sA) by (eapply spec_mfor; [intros; apply spec_infer_work|exact E1]).
  assert (Hlo : lin <> lo) by (subst lo; lia).
  assert (HGA : heap sA !!! lin = G).
  { rewrite (writes_only_lookup lo s0 sA lin Hw Hlo). subst s0. cbn [heap]. done. }
  rewrite HGA.
  set (Wg := heap sA !!! lo).
  assert (HWnf : forall t, t ∈ Wg -> not_f2_type t).
  { intros t Ht. destruct Hw as (_ & _ & _ & Hn). destruct (Hn t Ht) as [H|H]; [|done].
    subst s0. cbn [heap] in H. rewrite lookup_total_app_r in H by (subst lo; lia).
    rewrite Nat.sub_diag in H. by apply elem_of_nil in H. }
  assert (Hfirst : forall e, e ∈ subjects G RDF_type F2_Expression ->
    work_skipped G e \/
    (Iri (lkg (get_id_from_uri (term_str e))), R3i_realises,
     Iri (lkg (replace1 "F2_" "F1_" (get_id_from_uri (term_str e))))) ∈ Wg).
  { intros e He.
    destruct (mfor_each lo _ _ _ _ (spec_infer_work lin lo) E1 e He) as (s1 & s2 & Hw1 & Hr & Hw2).
    assert (Hlen : lo < length (heap s1)).
    { destruct Hw1 as (Hl & _). rewrite Hl. subst s0. cbn [heap]. rewrite length_app. simpl. lia. }
    destruct (infer_work_realises lin lo e s1 s2 Hlen Hr) as [Hs|Ht].
    - left. rewrite (writes_only_lookup lo s0 s1 lin Hw1 Hlo) in Hs. subst s0. cbn [heap] in Hs.
      by rewrite HG0 in Hs.
    - right. by eapply writes_only_keep. }
  assert (Hlen1 : lin < length (heap sA)).
  { destruct Hw as (Hl & _). rewrite Hl. subst s0. cbn [heap]. rewrite length_app. simpl. lia. }
  rewrite infer_works_unfold. cbn [heap autoinc].
  rewrite mfor_noop; [reflexivity|].
  intros e He. apply infer_work_skip. cbn [heap].
  rewrite lookup_total_app_l by (rewrite length_insert; lia).
  rewrite list_lookup_total_insert_eq by done.
  rewrite lookup_total_app_l, list_lookup_total_insert_eq in He by (try rewrite length_insert; lia).
  apply elem_of_subjects, elem_of_add_all in He as [He|He].
  - apply elem_of_subjects in He. destruct (Hfirst e He) as [Hs|Ht].
    + eapply work_skipped_mono; [|exact Hs]. intros u Hu. apply elem_of_add_all. by left.
    + destruct (Hiri e He) as (u & -> & Hu). cbn [term_str] in Ht. rewrite Hu in Ht.
      right; left. apply value_not_None. eexists. apply elem_of_add_all. right. exact Ht.
  - exfalso. by apply (HWnf _ He).
Qed.

Lemma second_run_creates_no_work_witness :
  exists st1,
    infer_and_merge 0 two_sources_state = (st1, Some 1) /\
    infer_works 0 st1 = (mk_wstate (heap st1 ++ [[]]) (autoinc st1), Some (length (heap st1))).
Proof.
  exists (infer_and_merge 0 two_sources_state).1.
  assert (Hrun : infer_and_merge 0 two_sources_state = ((infer_and_merge 0 two_sources_state).1, Some 1))
    by (vm_compute; reflexivity).
  split; [exact Hrun|].
  apply (second_run_creates_no_work 0 1 two_sources_state); [vm_compute; lia| |exact Hrun].
  apply lkg_expressionsb_spec. vm_compute. reflexivity.
Defined.

(** C2 (counterexample).  [F2_3] is a translation of the root [F2_1] and
    a derivative of the root [F2_2]: one run of [infer_works] creates the
    Works [F1_1] and [F1_2], and [F2_3] realises both. *)
Lemma derivative_of_two_roots_realises_two_works :
  (infer_works 0 two_sources_state).2 = Some 1 /\
  (Iri (lkg "F1_1"), RDF_type, F1_Work) ∈ heap (infer_works 0 two_sources_state).1 !!! 1 /\
  (Iri (lkg "F1_2"), RDF_type, F1_Work) ∈ heap (infer_works 0 two_sources_state).1 !!! 1 /\
  (expr "3", R3i_realises, Iri (lkg "F1_1")) ∈ heap (infer_works 0 two_sources_state).1 !!! 1 /\
  (expr "3", R3i_realises, Iri (lkg "F1_2")) ∈ heap (infer_works 0 two_sources_state).1 !!! 1.
Proof.
  split; [vm_compute; reflexivity|].
  repeat split; apply (bool_decide_unpack _); vm_compute; reflexivity.
Qed.

End C2.



Lemma split_fuel_enough f f' sep s :
  sep <> EmptyString -> String.length s < f -> String.length s < f' ->
  split_fuel f sep s = split_fuel f' sep s.
Proof.
  intros Hsep. revert f' s. induction f as [|f IH]; intros [|f'] s Hf Hf'; try lia.
  destruct s as [|a s]; [done|].
  change (split_fuel (S f) sep (String a s)) with
    (if negb (String.eqb sep "") && String.prefix sep (String a s)
     then "" :: split_fuel f sep (substring (String.length sep) (String.length (String a s)) (String a s))
     else match split_fuel f sep s with w :: ws => String a w :: ws | [] => [String a ""] end).
  change (split_fuel (S f') sep (String a s)) with
    (if negb (String.eqb sep "") && String.prefix sep (String a s)
     then "" :: split_fuel f' sep (substring (String.length sep) (String.length (String a s)) (String a s))
     else match split_fuel f' sep s with w :: ws => String a w :: ws | [] => [String a ""] end).
  simpl String.length at 1 in Hf. simpl String.length at 1 in Hf'.
  destruct (negb (String.eqb sep "") && String.prefix sep (String a s)).
  - pose proof (length_substring_le (String.length sep) (String.length (String a s)) (String a s)) as Hle.
    assert (1 <= String.length sep) by (destruct sep; [done|simpl; lia]).
    simpl String.length at 2 4 in Hle. rewrite (IH f'); [done|lia|lia].
  - rewrite (IH f'); [done|lia|lia].
Qed.

Lemma prefix_char c a s :
  String.prefix (String c "") (String a s) = if ascii_dec c a then true else false.
Proof. simpl. destruct (ascii_dec c a); [by destruct s|done]. Qed.

Lemma py_split_char_cons c a s :
  py_split (String c "") (String a s) =
  if Ascii.eqb a c then "" :: py_split (String c "") s
  else match py_split (String c "") s with w :: ws => String a w :: ws | [] => [String a ""] end.
Proof.
  unfold py_split. cbn [String.length].
  change (split_fuel (S (S (String.length s))) (String c "") (String a s)) with
    (if negb (String.eqb (String c "") "") && String.prefix (String c "") (String a s)
     then "" :: split_fuel (S (String.length s)) (String c "")
                 (substring (String.length (String c "")) (String.length (String a s)) (String a s))
     else match split_fuel (S (String.length s)) (String c "") s with
          | w :: ws => String a w :: ws | [] => [String a ""] end).
  rewrite prefix_char. cbn [String.eqb negb andb].
  destruct (ascii_dec c a) as [->|Hne]; cbn [andb].
  - rewrite Ascii.eqb_refl. cbn [String.length substring].
    rewrite substring_0_ge by lia.
    reflexivity.
  - destruct (Ascii.eqb_spec a c) as [->|_]; [done|].
    reflexivity.
Qed.

Lemma py_split_empty sep : py_split sep "" = [""].
Proof. done. Qed.

Lemma no_char_cons c a s : no_char c (String a s) = negb (Ascii.eqb a c) && no_char c s.
Proof. done. Qed.

Lemma no_char_app c u v : no_char c (u ++ v) = no_char c u && no_char c v.
Proof. apply str_forallb_app. Qed.

Lemma py_split_no_char c s : no_char c s = true -> py_split (String c "") s = [s].
Proof.
  induction s as [|a s IH]; [done|]. rewrite no_char_cons. intros [Ha Hs]%andb_true_iff.
  rewrite py_split_char_cons. apply negb_true_iff in Ha. rewrite Ha, IH by done. done.
Qed.

Lemma py_split_char_app c u v :
  py_split (String c "") (u ++ String c v) = py_split (String c "") u ++ py_split (String c "") v.
Proof.
  induction u as [|a u IH].
  - rewrite str_app_nil_l, py_split_char_cons, Ascii.eqb_refl. done.
  - rewrite str_app_cons, !py_split_char_cons, IH.
    destruct (Ascii.eqb a c); [done|].
    pose proof (py_split_nonnil (String c "") u) as Hn.
    destruct (py_split (String c "") u) as [|w ws]; [done|]. done.
Qed.

Lemma py_rsplit1_app c u v :
  no_char c v = true -> py_rsplit1 c (u ++ String c v) = [u; v].
Proof.
  intros Hv. unfold py_rsplit1. rewrite py_split_char_app, (py_split_no_char c v Hv).
  pose proof (py_split_nonnil (String c "") u) as Hn.
  pose proof (py_split_concat (String c "") u ltac:(done)) as Hc.
  destruct (py_split (String c "") u) as [|w ws] eqn:E; [done|].
  cbn [app]. destruct (ws ++ [v]) as [|x xs] eqn:E2; [by destruct ws|].
  rewrite <- E2. change (w :: ws ++ [v]) with ((w :: ws) ++ [v]).
  rewrite removelast_last, last_last. by rewrite Hc.
Qed.

Lemma py_rsplit1_no_char c s : no_char c s = true -> py_rsplit1 c s = [s].
Proof. intros H. unfold py_rsplit1. by rewrite py_split_no_char. Qed.

Lemma str_forallb_impl f f' s :
  (forall a, f a = true -> f' a = true) -> str_forallb f s = true -> str_forallb f' s = true.
Proof.
  intros Hf. induction s as [|a s IH]; [done|]. cbn [str_forallb].
  intros [Ha Hs]%andb_true_iff. by rewrite Hf, IH.
Qed.

Lemma no_char_forallb f c s : str_forallb f s = true -> f c = false -> no_char c s = true.
Proof.
  intros Hs Hc. apply (str_forallb_impl f); [|done].
  intros a Ha. apply negb_true_iff. destruct (Ascii.eqb_spec a c) as [->|]; [congruence|done].
Qed.

(** [str(n)] is made of digits and minus signs. *)
Lemma Z_to_string_chars z : str_forallb (fun a => is_digit a || Ascii.eqb a "-") (Z_to_string z) = true.
Proof.
  assert (Hu : forall d, str_forallb (fun a => is_digit a || Ascii.eqb a "-") (NilZero.string_of_uint d) = true).
  { intros d. apply (str_forallb_impl is_digit); [intros a Ha; cbv beta; by rewrite Ha|].
    destruct d; simpl; rewrite ?string_of_uint_digits; done. }
  unfold Z_to_string. destruct (Z.to_int z) as [d|d]; unfold NilZero.string_of_int; [apply Hu|].
  cbn [str_forallb]. rewrite Hu. done.
Qed.

Lemma Z_to_string_no_char c z : is_digit c = false -> Ascii.eqb c "-" = false -> no_char c (Z_to_string z) = true.
Proof. intros H1 H2. apply (no_char_forallb _ c (Z_to_string z) (Z_to_string_chars z)). by rewrite H1, H2. Qed.

Lemma prefix_app_self u v : String.prefix u (u ++ v) = true.
Proof.
  induction u as [|a u IH]; [by destruct v|]. rewrite str_app_cons. simpl.
  destruct (ascii_dec a a); [done|congruence].
Qed.

Lemma split_fuel_S f sep a s :
  split_fuel (S f) sep (String a s) =
  if negb (String.eqb sep "") && String.prefix sep (String a s)
  then "" :: split_fuel f sep (substring (String.length sep) (String.length (String a s)) (String a s))
  else match split_fuel f sep s with w :: ws => String a w :: ws | [] => [String a ""] end.
Proof. reflexivity. Qed.

(** Splitting at the first occurrence of a separator whose first
    character is not in the text before it. *)
Lemma py_split_first c sep' u v :
  no_char c u = true ->
  py_split (String c sep') (u ++ String c sep' ++ v) = u :: py_split (String c sep') v.
Proof.
  intros Hu. unfold py_split.
  induction u as [|a u IH].
  - rewrite str_app_nil_l. change (String c sep' ++ v)%string with (String c (sep' ++ v)).
    rewrite split_fuel_S. change (String c (sep' ++ v)) with (String c sep' ++ v)%string.
    rewrite prefix_app_self. cbn [String.eqb negb andb].
    rewrite substring_app by (rewrite ?str_length_app; simpl; rewrite ?str_length_app; lia).
    f_equal. apply split_fuel_enough; [done| |lia]. rewrite str_length_app. simpl. lia.
  - rewrite no_char_cons in Hu. apply andb_true_iff in Hu as [Ha Hu]. apply negb_true_iff in Ha.
    rewrite str_app_cons. cbn [String.length]. rewrite split_fuel_S.
    replace (String.prefix (String c sep') (String a (u ++ String c sep' ++ v))) with false
      by (simpl; destruct (ascii_dec c a) as [->|]; [by rewrite Ascii.eqb_refl in Ha|done]).
    rewrite andb_false_r, IH by done.
    done.
Qed.

Lemma py_split_once_first c sep' u v :
  no_char c u = true -> py_split_once (String c sep') (u ++ String c sep' ++ v) = [u; v].
Proof.
  intros Hu. unfold py_split_once. rewrite py_split_first by done.
  pose proof (py_split_nonnil (String c sep') v).
  pose proof (py_split_concat (String c sep') v ltac:(done)) as Hc.
  destruct (py_split (String c sep') v); [done|]. by rewrite Hc.
Qed.

Lemma str_contains_suffix sub u v : str_contains sub v = true -> str_contains sub (u ++ v) = true.
Proof.
  intros H. induction u as [|a u IH]; [done|]. rewrite str_app_cons. simpl. by rewrite IH, orb_true_r.
Qed.

Lemma str_contains_prefix sub s : String.prefix sub s = true -> str_contains sub s = true.
Proof. intros H. destruct s; cbn [str_contains]; by rewrite H. Qed.

Lemma str_contains_self sub v : str_contains sub (sub ++ v) = true.
Proof. apply str_contains_prefix, prefix_app_self. Qed.



Lemma ends_with_char_snoc c s : ends_with_char c s = true -> exists p, s = (p ++ String c "")%string.
Proof.
  unfold ends_with_char. destruct (last_char s) as [a|] eqn:E; [|done].
  intros Ha. apply Ascii.eqb_eq in Ha as ->. by apply last_char_snoc.
Qed.

Lemma substring_prefix p w : substring 0 (String.length p) (p ++ w) = p.
Proof. induction p as [|a p IH]; [by destruct w|]. simpl. by rewrite IH. Qed.

Lemma substring_split n s :
  n <= String.length s -> s = (substring 0 n s ++ substring n (String.length s - n) s)%string.
Proof.
  revert n. induction s as [|a s IH]; intros [|n] Hn; simpl in *; try lia.
  - done.
  - rewrite str_app_nil_l, substring_0_ge by lia. done.
  - rewrite str_app_cons. f_equal. apply IH. lia.
Qed.

Lemma length_substring_0 n s : n <= String.length s -> String.length (substring 0 n s) = n.
Proof.
  revert n. induction s as [|a s IH]; intros [|n] Hn; simpl in *; try lia. rewrite IH; lia.
Qed.

Lemma digits_value_acc_forallb acc s z : digits_value_acc acc s = Some z -> str_forallb is_digit s = true.
Proof.
  revert acc. induction s as [|a s IH]; intros acc; [done|]. simpl.
  destruct (is_digit a); [|done]. apply IH.
Qed.

Lemma digits_value_forallb s z : digits_value s = Some z -> str_forallb is_digit s = true /\ s <> EmptyString.
Proof. destruct s as [|a s]; [done|]. intros H. split; [|done]. by apply (digits_value_acc_forallb 0%Z _ z). Qed.

Lemma lstrip_by_keep f a s : f a = false -> lstrip_by f (String a s) = String a s.
Proof. intros H. simpl. by rewrite H. Qed.

Lemma digit_not_space a : is_digit a = true -> is_space a = false.
Proof.
  unfold is_digit, is_space. intros H. apply andb_true_iff in H as [H1 H2].
  apply Nat.leb_le in H1, H2.
  repeat (apply orb_false_iff; split); try apply andb_false_iff;
    rewrite ?Nat.eqb_neq, ?Nat.leb_gt; lia.
Qed.

(** [int(s)] of a string of decimal digits is its value. *)
Lemma py_int_digits s z : digits_value s = Some z -> py_int s = Some z.
Proof.
  intros H. destruct (digits_value_forallb s z H) as [Hd Hne].
  destruct s as [|a r]; [done|]. unfold py_int, py_strip, strip_by.
  pose proof Hd as Hd'. cbn [str_forallb] in Hd'. apply andb_true_iff in Hd' as [Ha _].
  rewrite lstrip_by_keep by (by apply digit_not_space).
  destruct (digit_string_last _ Hd Hne) as [b [Hb Hbd]].
  rewrite (rstrip_by_last _ _ b Hb) by (by apply digit_not_space).
  revert Ha H. destruct a as [[] [] [] [] [] [] [] []]; intros Ha H;
    try (vm_compute in Ha; discriminate Ha); exact H.
Qed.

Lemma range_sign_bytes : range_sign = String "195"%char (String "183"%char "").
Proof. reflexivity. Qed.








Lemma str_app_inj_r u v w : (u ++ w)%string = (v ++ w)%string -> u = v.
Proof.
  intros H. assert (Hl : String.length u = String.length v).
  { apply (f_equal String.length) in H. rewrite !str_length_app in H. lia. }
  rewrite <- (substring_prefix u w), <- (substring_prefix v w), H, Hl. done.
Qed.

Lemma abbrev_check I F :
  ends_with_char "." I = true ->
  ((String.length F <? String.length I)%nat = false /\
   String.eqb (substring 0 (String.length I - 1) I) (substring 0 (String.length I - 1) F) = true) <->
  exists p c r, I = (p ++ ".")%string /\ F = (p ++ String c r)%string.
Proof.
  intros HI. destruct (ends_with_char_snoc _ _ HI) as [p ->].
  rewrite str_length_app. cbn [String.length]. replace (String.length p + 1 - 1) with (String.length p) by lia.
  rewrite substring_prefix. split.
  - intros [Hlt Heq]. apply Nat.ltb_ge in Hlt. apply String.eqb_eq in Heq.
    rewrite (substring_split (String.length p) F) by lia. rewrite <- Heq.
    destruct (substring (String.length p) (String.length F - String.length p) F) as [|c r] eqn:E.
    + exfalso. pose proof (substring_split (String.length p) F ltac:(lia)) as HF.
      rewrite E, <- Heq, str_app_nil_r in HF. rewrite HF in Hlt. lia.
    + by exists p, c, r.
  - intros (p' & c & r & Hp & ->). apply str_app_inj_r in Hp as ->.
    split.
    + apply Nat.ltb_ge. rewrite !str_length_app. simpl. lia.
    + apply String.eqb_eq. by rewrite substring_prefix.
Qed.

Lemma ends_with_dot p : ends_with_char "." (p ++ ".") = true.
Proof. unfold ends_with_char. by rewrite last_char_app. Qed.



Lemma fold_opt_None_iff {A B} (f : A -> B -> option A) (P : B -> Prop) a l :
  (forall a x, f a x = None <-> P x) ->
  fold_opt f a l = None <-> exists x, x ∈ l /\ P x.
Proof.
  intros Hf. revert a. induction l as [|x l IH]; intros a; simpl.
  - split; [done|]. intros (x & Hx & _). by apply elem_of_nil in Hx.
  - destruct (f a x) as [a'|] eqn:E.
    + rewrite IH. split.
      * intros (y & Hy & Py). exists y. split; [by apply elem_of_cons; right|done].
      * intros (y & Hy & Py). apply elem_of_cons in Hy as [->|Hy]; [|by exists y].
        apply (Hf a) in Py. congruence.
    + split; [|done]. intros _. exists x. split; [apply elem_of_cons; by left|]. by apply (Hf a).
Qed.


Lemma nd_find_upd r k x k' :
  nd_find ((fun '(k1, v) => if bool_decide (k1 = k) then (k1, v ++ [x]) else (k1, v)) <$> r) k' =
  (fun v => if bool_decide (k = k') then v ++ [x] else v) <$> nd_find r k'.
Proof.
  unfold nd_find. induction r as [|[k1 v1] r IH]; [done|].
  cbn [fmap list_fmap List.find].
  destruct (decide (k1 = k)) as [->|Hne].
  - rewrite (bool_decide_true (k = k)) by done. cbn [List.find].
    destruct (decide (k = k')) as [->|Hne']; [by rewrite !bool_decide_true|].
    rewrite !bool_decide_false in IH |- * by done. exact IH.
  - rewrite (bool_decide_false (k1 = k)) by done. cbn [List.find].
    destruct (decide (k1 = k')) as [->|Hne']; [|rewrite !bool_decide_false by done; exact IH].
    rewrite !bool_decide_true by done. simpl. by rewrite bool_decide_false.
Qed.

Lemma nd_find_Some r k : k ∈ r.*1 -> is_Some (nd_find r k).
Proof.
  unfold nd_find. induction r as [|[k1 v1] r IH]; [by intros ?%elem_of_nil|].
  cbn [fmap list_fmap fst]. intros [->|Hk]%elem_of_cons; cbn [List.find].
  - rewrite bool_decide_true by done. by eexists.
  - case_bool_decide; [by eexists|]. by apply IH.
Qed.

Lemma nd_find_None r k : nd_find r k = None -> k ∉ r.*1.
Proof. intros H Hk. destruct (nd_find_Some r k Hk) as [v Hv]. congruence. Qed.

Lemma nd_find_app r r' k :
  nd_find (r ++ r') k = match nd_find r k with Some v => Some v | None => nd_find r' k end.
Proof.
  unfold nd_find. induction r as [|[k1 v1] r IH]; [done|]. cbn [app List.find].
  case_bool_decide; [done|]. exact IH.
Qed.

Lemma nd_find_key r k v : nd_find r k = Some v -> k ∈ r.*1.
Proof.
  unfold nd_find. induction r as [|[k1 v1] r IH]; [done|]. cbn [List.find fmap list_fmap fst].
  case_bool_decide; [subst; intros; apply elem_of_cons; by left|].
  intros H1. apply elem_of_cons. right. by apply IH.
Qed.

Lemma nd_lookup_add r k x k' :
  nd_lookup (nd_add r k x) k' = nd_lookup r k' ++ (if bool_decide (k = k') then [x] else []).
Proof.
  change (nd_lookup ?r ?k) with (default [] (nd_find r k)).
  unfold nd_add. case_bool_decide as Hk.
  - rewrite nd_find_upd. case_bool_decide as Hkk; [subst k'|by destruct (nd_find r k'); rewrite ?app_nil_r].
    destruct (nd_find_Some r k Hk) as [v ->]. done.
  - rewrite nd_find_app. destruct (nd_find r k') as [v|] eqn:E.
    + rewrite bool_decide_false; [by rewrite app_nil_r|]. intros ->. by apply Hk, (nd_find_key r k' v).
    + unfold nd_find. cbn [List.find]. case_bool_decide as Hkk.
      * done.
      * done.
Qed.

Lemma nd_add_keys r k x k' : k' ∈ r.*1 -> k' ∈ (nd_add r k x).*1.
Proof.
  intros H. unfold nd_add. case_bool_decide.
  - clear -H. induction r as [|[k1 v1] r IH]; [by apply elem_of_nil in H|].
    cbn [fmap list_fmap fst] in H |- *. apply elem_of_cons in H as [->|H].
    + case_bool_decide; apply elem_of_cons; by left.
    + case_bool_decide; apply elem_of_cons; right; by apply IH.
  - rewrite fmap_app. apply elem_of_app. by left.
Qed.

Section NameDict.
Variable lm : langmap.

Lemma namedict_langs_step langs alias r0 r1 :
  fold_opt (fun result l => l' ← verify_lang l lm; Some (nd_add result l' [alias])) r0 langs = Some r1 ->
  (forall k, nd_lookup r1 k = nd_lookup r0 k ++ ((fun _ => [alias]) <$> filter (fun l => lm !! l = Some k) langs)) /\
  (forall k', k' ∈ r0.*1 -> k' ∈ r1.*1).
Proof.
  revert r0. induction langs as [|l langs IH]; intros r0; simpl.
  - intros [= <-]. split; [intros; by rewrite app_nil_r|done].
  - unfold verify_lang. destruct (lm !! l) as [l'|] eqn:El; [|done]. simpl.
    intros H. destruct (IH _ H) as [IH1 IH2]. split.
    + intros k. rewrite IH1, nd_lookup_add, <- app_assoc. f_equal.
      rewrite filter_cons, El. case_bool_decide as E1; case_decide as E2; try congruence; done.
    + intros k' Hk. apply IH2, nd_add_keys, Hk.
Qed.

Lemma namedict_names_step names r0 r1 :
  fold_opt (fun result y =>
      let alias := name_alias y in
      let langs := name_langs y in
      result ← fold_opt (fun result l =>
                 l' ← verify_lang l lm; Some (nd_add result l' [alias])) result langs;
      Some (if bool_decide (langs = []) then nd_add result (Some "NOLANG"%string) [alias] else result))
      r0 names = Some r1 ->
  (forall k, nd_lookup r1 k = nd_lookup r0 k ++
     flat_map (fun y => if bool_decide (name_langs y = []) then
                          (if bool_decide (k = Some "NOLANG"%string) then [[name_alias y]] else [])
                        else (fun _ => [name_alias y]) <$> filter (fun l => lm !! l = Some k) (name_langs y))
       names) /\
  (forall k', k' ∈ r0.*1 -> k' ∈ r1.*1).
Proof.
  revert r0. induction names as [|y names IH]; intros r0; simpl.
  - intros [= <-]. split; [intros; by rewrite app_nil_r|done].
  - destruct (fold_opt _ r0 (name_langs y)) as [r'|] eqn:E; [|done]. simpl.
    destruct (namedict_langs_step _ _ _ _ E) as [H1 H2].
    intros H. destruct (IH _ H) as [IH1 IH2]. split.
    + intros k. rewrite IH1, app_assoc. f_equal.
      case_bool_decide as Hl.
      * rewrite nd_lookup_add, H1, Hl. simpl. rewrite app_nil_r.
        destruct (decide (k = Some "NOLANG"%string)) as [->|Hk].
        -- by rewrite !bool_decide_true.
        -- rewrite !bool_decide_false by congruence. done.
      * by rewrite H1.
    + intros k' Hk. apply IH2. case_bool_decide; [apply nd_add_keys|]; by apply H2.
Qed.

End NameDict.






Lemma drop_last_snoc u a : drop_last (u ++ String a "") = u.
Proof.
  unfold drop_last. rewrite str_length_app. simpl. replace (String.length u + 1 - 1) with (String.length u) by lia.
  apply substring_prefix.
Qed.

Lemma last_char_snoc_eq u a : last_char (u ++ String a "") = Some a.
Proof. rewrite last_char_app. done. Qed.

Lemma REFCHARS_rel a :
  Ascii.eqb a "-" = false ->
  match REFCHARS a with
  | Some RSkip => False
  | Some (RRel p) => p ∈ refchar_rels
  | None => True
  end.
Proof.
  intros H. unfold REFCHARS. rewrite H.
  repeat match goal with |- context [if ?b then _ else _] => destruct b end; try done;
    unfold refchar_rels; rewrite !elem_of_cons; tauto.
Qed.

Lemma strip_refchars_suffix f u t rels :
  str_forallb ref_suffix_char t = true -> String.length t <= f ->
  exists rels', strip_refchars (S f) (u ++ t) rels = strip_refchars (S f - String.length t) u rels' /\
    forall p, p ∈ rels' -> p ∈ rels \/ p ∈ refchar_rels.
Proof.
  revert u rels. induction t as [|a t IH]; intros u rels Ht Hf.
  - rewrite str_app_nil_r. exists rels. split; [f_equal; simpl; lia|tauto].
  - cbn [str_forallb] in Ht. apply andb_true_iff in Ht as [Ha Ht].
    unfold ref_suffix_char in Ha. apply andb_true_iff in Ha as [Hd Hm]. apply negb_true_iff in Hd, Hm.
    cbn [String.length] in Hf.
    replace (u ++ String a t)%string with ((u ++ String a "") ++ t)%string
      by (rewrite str_app_assoc; done).
    destruct (IH (u ++ String a "")%string rels Ht ltac:(lia)) as (rels1 & E1 & H1).
    rewrite E1. cbn [String.length].
    replace (S f - String.length t) with (S (f - String.length t)) by lia.
    replace (S f - S (String.length t)) with (f - String.length t) by lia.
    cbn [strip_refchars]. rewrite last_char_snoc_eq, Hd, drop_last_snoc.
    pose proof (REFCHARS_rel a Hm) as Hr.
    destruct (REFCHARS a) as [[|p]|]; [done| |].
    + exists (rels1 ++ [p]). split; [done|]. intros q [Hq|Hq%list_elem_of_singleton]%elem_of_app; [by apply H1|subst; by right].
    + by exists rels1.
Qed.

Lemma strip_refchars_skip f u t :
  str_forallb ref_suffix_char t = true -> String.length t < f ->
  strip_refchars f (u ++ "-" ++ t) [] = Some None.
Proof.
  intros Ht Hf. destruct f as [|f]; [lia|].
  replace (u ++ "-" ++ t)%string with ((u ++ "-") ++ t)%string by (rewrite str_app_assoc; done).
  destruct (strip_refchars_suffix f (u ++ "-") t [] Ht ltac:(lia)) as (rels & -> & _).
  replace (S f - String.length t) with (S (f - String.length t)) by lia.
  cbn [strip_refchars]. rewrite last_char_snoc_eq. done.
Qed.



Lemma elem_of_map {A B} (f : A -> B) (l : list A) y : y ∈ map f l <-> exists x, y = f x /\ x ∈ l.
Proof.
  induction l as [|x l IH]; simpl.
  - split; [by intros ?%elem_of_nil|]. intros (x & _ & ?%elem_of_nil). done.
  - rewrite elem_of_cons, IH. split.
    + intros [->|(z & -> & Hz)]; [exists x; split; [done|apply elem_of_cons; by left]|].
      exists z. split; [done|apply elem_of_cons; by right].
    + intros (z & -> & [->|Hz]%elem_of_cons); [by left|right; by exists z].
Qed.

Lemma strip_refchars_core f core t d :
  last_char core = Some d -> is_digit d = true ->
  str_forallb ref_suffix_char t = true -> String.length t < f ->
  exists rels, strip_refchars f (core ++ t) [] = Some (Some (rels, core)) /\
    forall p, p ∈ rels -> p ∈ refchar_rels.
Proof.
  intros Hl Hd Ht Hf. destruct f as [|f]; [lia|].
  destruct (strip_refchars_suffix f core t [] Ht ltac:(lia)) as (rels & -> & Hr).
  replace (S f - String.length t) with (S (f - String.length t)) by lia.
  cbn [strip_refchars]. rewrite Hl, Hd. exists rels. split; [done|].
  intros p Hp. destruct (Hr p Hp) as [?%elem_of_nil|]; done.
Qed.



Lemma bind_inv {A B} (m : M A) (k : A -> M B) st st2 r :
  (m ≫= k) st = (st2, r) ->
  exists st1 o, m st = (st1, o) /\
    match o with Some a => k a st1 = (st2, r) | None => st2 = st1 /\ r = None end.
Proof.
  unfold mbind, M_bind. destruct (m st) as [st1 [a|]]; intros H; exists st1; eexists; split; eauto.
  simpl. by injection H as -> <-.
Qed.

Lemma run_autoinc p st st1 o :
  autoinc_id p st = (st1, o) ->
  st1 = mk_wstate (heap st) (<[p := (default 0%Z (autoinc st !! p) + 1)%Z]> (autoinc st)) /\
  o = Some (p ++ "_" ++ Z_to_string (default 0%Z (autoinc st !! p)))%string.
Proof. unfold autoinc_id, make_autoinc_id. by intros [= <- <-]. Qed.

Lemma run_get_graph l st st1 o : get_graph l st = (st1, o) -> st1 = st /\ o = Some (heap st !!! l).
Proof. by intros [= <- <-]. Qed.

Lemma run_mret {A} (a : A) st st1 o : (mret a : M A) st = (st1, o) -> st1 = st /\ o = Some a.
Proof. by intros [= <- <-]. Qed.


Lemma run_gadd lg t st st1 o :
  gadd lg t st = (st1, o) -> adds lg [t] st st1 /\ o = Some tt.
Proof. by intros [= <- <-]. Qed.

Lemma adds_nil lg st : lg < length (heap st) -> adds lg [] st st.
Proof.
  intros Hlt. split; [|done]. simpl. by rewrite list_insert_id by (by apply list_lookup_lookup_total_lt).
Qed.

Lemma adds_trans lg ts1 ts2 s1 s2 s3 :
  lg < length (heap s1) -> adds lg ts1 s1 s2 -> adds lg ts2 s2 s3 -> adds lg (ts1 ++ ts2) s1 s3.
Proof.
  intros Hlt [H1 A1] [H2 A2]. split; [|congruence].
  rewrite H2, H1, list_lookup_total_insert_eq, list_insert_insert_eq, foldl_app by done. done.
Qed.

Lemma adds_length lg ts st st' : adds lg ts st st' -> length (heap st') = length (heap st).
Proof. intros [-> _]. apply length_insert. Qed.

Lemma adds_graph lg ts st st' : lg < length (heap st) -> adds lg ts st st' -> heap st' !!! lg = foldl add (heap st !!! lg) ts.
Proof. intros Hlt [-> _]. by apply list_lookup_total_insert_eq. Qed.

Lemma adds_other lg ts st st' l : adds lg ts st st' -> l <> lg -> heap st' !! l = heap st !! l.
Proof. intros [-> _] Hl. by apply list_lookup_insert_ne. Qed.

Lemma adds_lookup_other lg ts st st' l : adds lg ts st st' -> l <> lg -> heap st' !!! l = heap st !!! l.
Proof. intros H Hl. rewrite !list_lookup_total_alt. by rewrite (adds_other _ _ _ _ _ H Hl). Qed.

Lemma elem_of_foldl_add (g : graph term) ts t : t ∈ foldl add g ts <-> t ∈ g \/ t ∈ ts.
Proof.
  revert g. induction ts as [|u ts IH]; intros g; simpl.
  - split; [by left|]. intros [?|?%elem_of_nil]; done.
  - rewrite IH, elem_of_add, elem_of_cons. tauto.
Qed.

Lemma run_mfor_gadd {A} lg (f : A -> triple term) l st st1 o :
  mfor l (fun i => gadd lg (f i)) st = (st1, o) -> lg < length (heap st) ->
  adds lg (f <$> l) st st1 /\ o = Some tt.
Proof.
  revert st. induction l as [|x l IH]; intros st H Hlt; cbn [mfor] in H.
  - apply run_mret in H as [-> ->]. split; [by apply adds_nil|done].
  - apply bind_inv in H as (s1 & o1 & E & H). apply run_gadd in E as [E ->].
    destruct (IH s1 H) as [E2 ->]; [by rewrite (adds_length _ _ _ _ E)|].
    split; [|done]. exact (adds_trans _ [f x] _ _ _ _ Hlt E E2).
Qed.

Lemma run_lang lg u (o : option uref) st st1 r :
  lg < length (heap st) ->
  (match o with
   | Some l => if uref_truthy l then gadd lg (u, P72_has_language, uref_term l) else mret tt
   | None => mret tt
   end) st = (st1, r) ->
  r = Some tt /\ exists ts, adds lg ts st st1 /\ forall t, t ∈ ts -> t.1.1 = u.
Proof.
  intros Hlt H. destruct o as [l|]; [destruct (uref_truthy l)|].
  - apply run_gadd in H as [H ->]. split; [done|]. exists [(u, P72_has_language, uref_term l)].
    split; [done|]. intros t ->%list_elem_of_singleton. done.
  - apply run_mret in H as [-> ->]. split; [done|]. exists []. split; [by apply adds_nil|]. by intros t ?%elem_of_nil.
  - apply run_mret in H as [-> ->]. split; [done|]. exists []. split; [by apply adds_nil|]. by intros t ?%elem_of_nil.
Qed.

Lemma run_of_option_Some {A} (a : A) st st1 o : of_option (Some a) st = (st1, o) -> st1 = st /\ o = Some a.
Proof. by intros [= <- <-]. Qed.

Lemma run_of_option_None {A} st st1 (o : option A) : of_option None st = (st1, o) -> st1 = st /\ o = None.
Proof. by intros [= <- <-]. Qed.

Ltac step H := apply bind_inv in H as (?s & ?o & ?E & H).

Lemma add_appellation_run lg subject appel_value appel_type appel_label appel_class has_types
    has_language lang_detector refgraph pred inv st st' r :
  lg < length (heap st) ->
  APPMAP_PREDICATE appel_class = Some pred -> APPMAP_INVERSE_PREDICATE appel_class = Some inv ->
  add_appellation lg subject appel_value appel_type appel_label appel_class has_types
    has_language lang_detector refgraph st = (st', r) ->
  let p := get_class_prefix (get_id_from_uri (term_str appel_class)) in
  let n := default 0%Z (autoinc st !! p) in
  let u := Iri (lkg (p ++ "_" ++ Z_to_string n)) in
  let g := heap st !!! lg in
  let g' := heap st' !!! lg in
  r = Some (p ++ "_" ++ Z_to_string n)%string /\
  autoinc st' = <[p := (n + 1)%Z]> (autoinc st) /\
  length (heap st') = length (heap st) /\
  (forall l, l <> lg -> heap st' !! l = heap st !! l) /\
  g ⊆ g' /\
  (u, RDF_type, appel_class) ∈ g' /\
  (u, inv, Iri (lkg subject)) ∈ g' /\
  (Iri (lkg subject), pred, u) ∈ g' /\
  (u, P190_has_symbolic_content,
     match appel_type with Some dt => TypedLit appel_value dt | None => Lit appel_value end) ∈ g' /\
  (forall h, h ∈ has_types -> (u, P2_has_type, uref_term h) ∈ g') /\
  (forall t, t ∈ g' -> t ∈ g \/ t.1.1 = u \/ t = (Iri (lkg subject), pred, u)).
Proof.
  intros Hlt Hpred Hinv H p n u g g'.
  unfold add_appellation in H.
  step H. apply run_autoinc in E as [-> ->]. cbv beta iota zeta in H.
  step H. apply run_get_graph in E as [-> ->]. cbv beta iota zeta in H.
  step H. destruct refgraph as [lr|];
    [apply run_get_graph in E as [-> ->]|apply run_mret in E as [-> ->]]; cbv beta iota zeta in H.
  all: step H; apply run_gadd in E as [A1 ->]; cbv beta iota zeta in H.
  all: pose proof (adds_length _ _ _ _ A1) as L1; cbn [heap] in L1.
  all: step H; apply run_gadd in E as [A2 ->]; cbv beta iota zeta in H.
  all: pose proof (adds_length _ _ _ _ A2) as L2.
  all: rewrite Hinv in H; step H; apply run_of_option_Some in E as [-> ->]; cbv beta iota zeta in H.
  all: step H; apply run_gadd in E as [A3 ->]; cbv beta iota zeta in H.
  all: pose proof (adds_length _ _ _ _ A3) as L3.
  all: step H; apply run_gadd in E as [A4 ->]; cbv beta iota zeta in H.
  all: pose proof (adds_length _ _ _ _ A4) as L4.
  all: rewrite Hpred in H; step H; apply run_of_option_Some in E as [-> ->]; cbv beta iota zeta in H.
  all: step H; apply run_gadd in E as [A5 ->]; cbv beta iota zeta in H.
  all: pose proof (adds_length _ _ _ _ A5) as L5.
  all: step H; apply run_mfor_gadd in E as [A6 ->]; [|lia]; cbv beta iota zeta in H.
  all: pose proof (adds_length _ _ _ _ A6) as L6.
  all: step H; apply run_lang in E as [-> (ts & A7 & Hts)]; [|lia]; cbv beta iota zeta in H.
  all: apply run_mret in H as [-> ->].
  all: apply (fun H => adds_trans _ _ _ _ _ _ H A6) in A7; [|lia].
  all: apply (fun H => adds_trans _ _ _ _ _ _ H A5) in A7; [|lia].
  all: apply (fun H => adds_trans _ _ _ _ _ _ H A4) in A7; [|lia].
  all: apply (fun H => adds_trans _ _ _ _ _ _ H A3) in A7; [|lia].
  all: apply (fun H => adds_trans _ _ _ _ _ _ H A2) in A7; [|lia].
  all: apply (fun H => adds_trans _ _ _ _ _ _ H A1) in A7; [|simpl; lia].
  all: destruct A7 as [Hh Ha]; cbn [heap autoinc app] in Hh, Ha.
  all: assert (Hg : g' = foldl add g ((Iri (lkg (p ++ "_" ++ Z_to_string n)), RDF_type, appel_class) :: _))
         by (unfold g'; rewrite Hh; apply list_lookup_total_insert_eq; lia).
  all: clearbody g'; subst g'.
  all: split; [done|]; split; [done|]; split; [by rewrite Hh, length_insert|].
  all: split; [intros l Hl; rewrite Hh; by apply list_lookup_insert_ne|].
  all: split; [intros t Ht; apply elem_of_foldl_add; by left|].
  all: rewrite !elem_of_foldl_add.
  all: split; [right; apply elem_of_cons; by left|].
  all: split; [right; do 2 (apply elem_of_cons; right); apply elem_of_cons; by left|].
  all: split; [right; do 4 (apply elem_of_cons; right); apply elem_of_cons; by left|].
  all: split; [right; do 3 (apply elem_of_cons; right); apply elem_of_cons; by left|].
  all: split; [intros h Hh'; apply elem_of_foldl_add; right; do 5 (apply elem_of_cons; right); apply elem_of_app; left;
               apply list_elem_of_fmap; exists (uref_term h); split; [done|]; by apply list_elem_of_fmap_2|].
  all: intros t Ht; apply elem_of_foldl_add in Ht; destruct Ht as [Ht|Ht]; [by left|right].
  all: rewrite !elem_of_cons, elem_of_app, list_elem_of_fmap in Ht.
  all: destruct Ht as [->|[->|[->|[->|[->|[(x & -> & _)|Ht]]]]]]; try (by left); try (by right).
  all: left; by apply Hts.
Qed.



Lemma grows_refl lg st : grows lg st st.
Proof. done. Qed.

Lemma grows_trans lg s1 s2 s3 : grows lg s1 s2 -> grows lg s2 s3 -> grows lg s1 s3.
Proof.
  intros (L1 & O1 & G1) (L2 & O2 & G2). split; [congruence|]. split.
  - intros l Hl. rewrite O2, O1; done.
  - by trans (heap s2 !!! lg).
Qed.

Lemma adds_grows lg ts st st' : lg < length (heap st) -> adds lg ts st st' -> grows lg st st'.
Proof.
  intros Hlt A. split; [by eapply adds_length|]. split; [intros l; by eapply adds_other|].
  rewrite (adds_graph _ _ _ _ Hlt A). intros t Ht. apply elem_of_foldl_add. by left.
Qed.

Lemma run_mfor_adds {A} lg (f : A -> M unit) (h : A -> list (triple term)) l st st1 o :
  (forall x s s1 o1, x ∈ l -> f x s = (s1, o1) -> lg < length (heap s) -> adds lg (h x) s s1 /\ o1 = Some tt) ->
  mfor l f st = (st1, o) -> lg < length (heap st) ->
  adds lg (List.concat (h <$> l)) st st1 /\ o = Some tt.
Proof.
  revert st. induction l as [|x l IH]; intros st Hf H Hlt; cbn [mfor] in H.
  - apply run_mret in H as [-> ->]. split; [by apply adds_nil|done].
  - apply bind_inv in H as (s1 & o1 & E & H). apply Hf in E as [E ->]; [|by left|done].
    destruct (IH s1) as [E2 ->]; [intros; apply Hf; [by right|..]; done|done|by rewrite (adds_length _ _ _ _ E)|].
    split; [|done]. exact (adds_trans _ (h x) _ _ _ _ Hlt E E2).
Qed.

Lemma elem_of_zip_seq {A} (l : list A) k i a :
  (i, a) ∈ zip (seq k (length l)) l <-> k <= i /\ l !! (i - k) = Some a.
Proof.
  revert k. induction l as [|b l IH]; intros k; simpl.
  - split; [intros ?%elem_of_nil; done|]. intros [_ ?]. by rewrite lookup_nil in *.
  - rewrite elem_of_cons, IH. split.
    + intros [[= -> ->]|[Hk Hl]]; [by rewrite Nat.sub_diag|].
      split; [lia|]. replace (i - k) with (S (i - S k)) by lia. done.
    + intros [Hk Hl]. destruct (decide (i = k)) as [->|Hne].
      * rewrite Nat.sub_diag in Hl. injection Hl as ->. by left.
      * right. split; [lia|]. replace (i - k) with (S (i - S k)) in Hl by lia. done.
Qed.

Lemma elem_of_enumerate {A} (l : list A) i a : (i, a) ∈ enumerate l <-> l !! i = Some a.
Proof. unfold enumerate. rewrite elem_of_zip_seq, Nat.sub_0_r. split; [by intros []|intros; split; [lia|done]]. Qed.

Lemma E41_prefix : get_class_prefix (get_id_from_uri (term_str E41_Appellation)) = "E41"%string.
Proof. reflexivity. Qed.

Section Variants.
Variables (lg : nat) (uri yid : string) (lang_uri : option string)
  (lang_detector : option (string -> option string)).


Lemma run_variants variants st st' r :
  lg < length (heap st) ->
  mmap (variant_step lg uri yid lang_uri lang_detector) variants st = (st', r) ->
  let n := default 0%Z (autoinc st !! "E41"%string) in
  exists apps, r = Some apps /\ length apps = length variants /\
    (forall k a, apps !! k = Some a -> a = ("E41_" ++ Z_to_string (n + Z.of_nat k))%string) /\
    grows lg st st' /\
    (forall v, v ∈ variants -> (Iri (lkg uri), SEARCHLABEL, Lit v) ∈ heap st' !!! lg).
Proof.
  revert st st' r. induction variants as [|v vs IH]; intros st st' r Hlt H n; cbn [mmap] in H.
  - apply run_mret in H as [-> ->]. exists []. split; [done|]. split; [done|].
    split; [intros k a; by rewrite lookup_nil|]. split; [apply grows_refl|]. by intros ? ?%elem_of_nil.
  - apply bind_inv in H as (s2 & o2 & E & H). unfold variant_step in E.
    apply bind_inv in E as (s1 & o1 & E1 & E). apply run_gadd in E1 as [A1 ->]. cbv beta iota in E.
    pose proof (adds_grows _ _ _ _ Hlt A1) as G1. pose proof (adds_graph _ _ _ _ Hlt A1) as HG1.
    destruct A1 as [_ Ha1].
    assert (Hlt1 : lg < length (heap s1)) by (destruct G1; lia).
    destruct (add_appellation_run lg uri v None _ E41_Appellation [] _ _ None P1_is_identified_by P1i_identifies _ _ _ Hlt1
      eq_refl eq_refl E) as (Ea & Hai & L2 & O2 & G2 & _).
    rewrite E41_prefix, Ha1 in Ea, Hai. fold n in Ea, Hai. subst o2.
    apply bind_inv in H as (s3 & o3 & E3 & H).
    assert (Hlt2 : lg < length (heap s2)) by lia.
    destruct (IH s2 s3 o3 Hlt2 E3) as (apps & -> & Hlen & Happs & G3 & Hs3).
    apply run_mret in H as [-> ->].
    rewrite Hai, lookup_insert_eq in Happs. cbn [default] in Happs.
    exists (("E41_" ++ Z_to_string n)%string :: apps). split; [done|]. split; [simpl; lia|].
    split; [|split].
    + intros [|k] a; simpl; [intros [= <-]; by rewrite Z.add_0_r|].
      intros Hk. rewrite (Happs k a Hk). by replace (n + Z.of_nat (S k))%Z with (n + 1 + Z.of_nat k)%Z by lia.
    + apply (grows_trans _ _ _ _ G1). apply (grows_trans _ _ s2); [|done]. done.
    + intros w [->|Hw]%elem_of_cons; [|by apply Hs3].
      destruct G3 as (_ & _ & G3). apply G3, G2. rewrite HG1. apply elem_of_foldl_add. right. by left.
Qed.
End Variants.


Lemma elem_of_list_concat {A} (t : A) (ls : list (list A)) : t ∈ List.concat ls <-> exists l, l ∈ ls /\ t ∈ l.
Proof.
  induction ls as [|l ls IH]; simpl.
  - split; [by intros ?%elem_of_nil|]. by intros (l & ?%elem_of_nil & _).
  - rewrite elem_of_app, IH. split.
    + intros [Ht|(l' & H1 & H2)]; [exists l; split; [left|]; done|exists l'; split; [by right|done]].
    + intros (l' & [->|H1]%elem_of_cons & H2); [by left|right; by exists l'].
Qed.




Lemma add_app_shape {V} `{EqDecision V} (g : graph V) t : exists Y, add g t = g ++ Y /\ forall u, u ∈ Y -> u = t.
Proof.
  unfold add, has. case_bool_decide.
  - exists []. rewrite app_nil_r. split; [done|]. by intros u ?%elem_of_nil.
  - exists [t]. split; [done|]. by intros u ->%list_elem_of_singleton.
Qed.

Lemma appended_shape {V} (pred obj : V) g g' :
  appended pred obj g g' -> exists Y, g' = g ++ Y /\ forall t, t ∈ Y -> t.1.2 = pred /\ t.2 = obj.
Proof. intros (Y & -> & _ & HY). exists Y. split; [done|]. intros t Ht. by destruct (HY t Ht) as (_ & ? & ?). Qed.


Section PropagateNoRaise.
Context {V : Type} `{EqDecision V}.
Variables (hp pred obj : V) (nb : option V).

Lemma has_any_subject_true (g : graph V) x : (x, pred, obj) ∈ g -> has_any_subject g pred obj = true.
Proof.
  intros H. unfold has_any_subject. apply existsb_exists. exists (x, pred, obj).
  split; [by apply list_elem_of_In|]. by rewrite bool_decide_true.
Qed.

(** Once some [(x, pred, obj)] is in the graph, the wildcard test
    [(None, pred, obj) in graph] holds, so the loop never adds a triple
    with subject [None]. *)
Lemma propagate_loop_no_raise (rec : graph V -> V -> option (outcome V)) :
  (forall g s, (exists x, (x, pred, obj) ∈ g) -> rec g s <> Some Raised) ->
  (forall g s g', rec g s = Some (Done g') -> appended pred obj g g') ->
  forall linked g, (exists x, (x, pred, obj) ∈ g) ->
    propagate_loop pred obj nb rec g linked <> Some Raised.
Proof.
  intros Hr Ha linked. induction linked as [|node rest IH]; intros g [x Hx]; simpl; [done|].
  destruct (match nb with None => Some node | Some np => value g node np end) as [o|].
  - unfold has at 1. case_bool_decide as Hin; [by apply IH; exists x|].
    assert (Hx' : (x, pred, obj) ∈ add g (o, pred, obj)) by (apply elem_of_add; by left).
    destruct (rec (add g (o, pred, obj)) node) as [[g1|]|] eqn:E.
    + apply IH. exists x. destruct (Ha _ _ _ E) as (Y & -> & _). apply elem_of_app. by left.
    + exfalso. apply (Hr (add g (o, pred, obj)) node); [by exists x|exact E].
    + done.
  - rewrite (has_any_subject_true g x Hx). apply IH. by exists x.
Qed.

Lemma propagate_no_raise (n : nat) (g : graph V) (s : V) :
  (exists x, (x, pred, obj) ∈ g) -> propagate_through_prop hp pred obj nb n g s <> Some Raised.
Proof.
  revert g s. induction n as [|n IH]; intros g s Hx; simpl; [done|].
  apply propagate_loop_no_raise; [exact IH| |exact Hx].
  intros g1 s1 g1' E. by eapply propagate_appends.
Qed.
End PropagateNoRaise.

Lemma add_authorship_appends g uri ref :
  exists g', add_authorship g uri ref = Some (Done g') /\
    exists Y, g' = g ++ Y /\ forall t, t ∈ Y -> authorship_triple (Iri (lkg uri)) t.
Proof.
  unfold add_authorship. cbv zeta.
  match goal with |- context [if ?b then S143_translated_by else S142_written_by] =>
    set (prop := if b then S143_translated_by else S142_written_by) end.
  assert (Hprop : prop = S142_written_by \/ prop = S143_translated_by)
    by (unfold prop; destruct (_ && _); auto).
  set (g1 := add g (Iri (lkg ("F28_" ++ ref)), prop, Iri (lkg uri))).
  destruct (add_app_shape g (Iri (lkg ("F28_" ++ ref)), prop, Iri (lkg uri))) as (Y0 & HY0 & HY0t).
  fold g1 in HY0.
  assert (Hin : (Iri (lkg ("F28_" ++ ref)), prop, Iri (lkg uri)) ∈ g1) by (apply elem_of_add; by right).
  destruct (propagate_through_prop R5i_is_component_of_t prop (Iri (lkg uri)) (Some R17i_was_created_by)
              (propagate_fuel g1) g1 (Iri (lkg ("F2_" ++ ref)))) as [[g2|]|] eqn:E1.
  - cbv beta iota.
    pose proof (propagate_appends _ _ _ _ _ _ _ _ E1) as Ha1.
    destruct (propagate_through_prop R5_has_component_t prop (Iri (lkg uri)) (Some R17i_was_created_by)
                (propagate_fuel g2) g2 (Iri (lkg ("F2_" ++ ref)))) as [[g3|]|] eqn:E2.
    + exists g3. split; [done|].
      apply appended_shape in Ha1 as (Y1 & -> & HY1).
      apply propagate_appends, appended_shape in E2 as (Y2 & -> & HY2).
      exists (Y0 ++ Y1 ++ Y2). rewrite HY0, !app_assoc. split; [done|].
      intros t Ht. unfold authorship_triple. rewrite !elem_of_app in Ht. destruct Ht as [[Ht|Ht]|Ht].
      * apply HY0t in Ht as ->. done.
      * destruct (HY1 t Ht) as [-> ->]. done.
      * destruct (HY2 t Ht) as [-> ->]. done.
    + exfalso. apply (propagate_no_raise R5_has_component_t prop (Iri (lkg uri)) (Some R17i_was_created_by)
        (propagate_fuel g2) g2 (Iri (lkg ("F2_" ++ ref)))); [|exact E2].
      destruct Ha1 as (Y1 & -> & _). exists (Iri (lkg ("F28_" ++ ref))). apply elem_of_app. by left.
    + exfalso. by apply (propagate_terminates R5_has_component_t prop (Iri (lkg uri))
                     (Some R17i_was_created_by) g2 (Iri (lkg ("F2_" ++ ref)))).
  - exfalso. apply (propagate_no_raise R5i_is_component_of_t prop (Iri (lkg uri)) (Some R17i_was_created_by)
      (propagate_fuel g1) g1 (Iri (lkg ("F2_" ++ ref)))); [by eexists|exact E1].
  - exfalso. by apply (propagate_terminates R5i_is_component_of_t prop (Iri (lkg uri))
                   (Some R17i_was_created_by) g1 (Iri (lkg ("F2_" ++ ref)))).
Qed.

Section AuthorshipRun.
Variables (g : graph term) (rows : list (string * list string)).


Lemma authorships_refs yid refs : (yid, refs) ∈ rows ->
  forall rs acc, (forall r, r ∈ rs -> r ∈ refs) -> authorships_inv g rows acc ->
  authorships_inv g rows (foldl (fun acc ref =>
      match acc with
      | Some (Done g) => add_authorship g ("E21_" ++ yid) ref
      | r => r
      end) acc rs).
Proof.
  intros Hrow rs. induction rs as [|ref rs IH]; intros acc Hrs Hacc; simpl; [done|].
  apply IH; [intros r Hr; apply Hrs; by right|].
  destruct Hacc as (g1 & -> & Y1 & -> & HY1).
  destruct (add_authorship_appends (g ++ Y1) ("E21_" ++ yid) ref) as (g' & E & Y2 & -> & HY2).
  exists ((g ++ Y1) ++ Y2). split; [exact E|].
  exists (Y1 ++ Y2). rewrite app_assoc. split; [done|].
  intros t [Ht|Ht]%elem_of_app; [by apply HY1|].
  exists yid, refs, ref. split; [done|]. split; [apply Hrs; by left|]. by apply HY2.
Qed.

Lemma authorships_rows rs acc : (forall r, r ∈ rs -> r ∈ rows) -> authorships_inv g rows acc ->
  authorships_inv g rows (foldl (fun acc '(yid, refs) =>
    foldl (fun acc ref =>
      match acc with
      | Some (Done g) => add_authorship g ("E21_" ++ yid) ref
      | r => r
      end) acc refs) acc rs).
Proof.
  revert acc. induction rs as [|[yid refs] rs IH]; intros acc Hrs Hacc; simpl; [done|].
  apply IH; [intros r Hr; apply Hrs; by right|].
  apply (authorships_refs yid refs); [apply Hrs; by left|done|done].
Qed.
End AuthorshipRun.



Lemma reach_seen fuel step todo seen x : x ∈ seen -> x ∈ reach fuel step todo seen.
Proof.
  revert todo seen. induction fuel as [|f IH]; intros todo seen Hx; [done|].
  destruct todo as [|y rest]; [done|]. cbn [reach].
  case_bool_decide; apply IH; [done|]. apply elem_of_app. by left.
Qed.

Lemma reach_sound fuel step todo seen x :
  x ∈ reach fuel step todo seen ->
  x ∈ seen \/ exists y, y ∈ todo /\ rtc (fun a b => b ∈ step a) y x.
Proof.
  revert todo seen. induction fuel as [|f IH]; intros todo seen Hx; [by left|].
  destruct todo as [|y rest]; [by left|]. cbn [reach] in Hx.
  case_bool_decide.
  - apply IH in Hx as [Hx|(z & Hz & Hr)]; [by left|right]. exists z. split; [by right|done].
  - apply IH in Hx as [[Hx| ->%list_elem_of_singleton]%elem_of_app|(z & Hz & Hr)].
    + by left.
    + right. exists y. split; [by left|apply rtc_refl].
    + apply elem_of_app in Hz as [Hz|Hz].
      * right. exists z. split; [by right|done].
      * right. exists y. split; [by left|]. by eapply rtc_l.
Qed.

Lemma reach_todo fuel step todo seen x i :
  todo !! i = Some x -> i < fuel -> x ∈ reach fuel step todo seen.
Proof.
  revert todo seen i. induction fuel as [|f IH]; intros todo seen i Hi Hf; [lia|].
  destruct todo as [|y rest]; [done|]. cbn [reach].
  destruct i as [|i].
  - injection Hi as ->. case_bool_decide; [by apply reach_seen|].
    apply reach_seen, elem_of_app. right. by left.
  - simpl in Hi. case_bool_decide.
    + apply (IH _ _ i); [done|lia].
    + apply (IH _ _ i); [|lia]. rewrite lookup_app_l; [done|]. by eapply lookup_lt_Some.
Qed.

Lemma length_omap_le {A B} (f : A -> option B) (l : list A) : length (omap f l) <= length l.
Proof. induction l as [|x l IH]; [simpl; lia|]. cbn [omap list_omap]. destruct (f x); cbn [length]; lia. Qed.

Lemma elem_of_foldl_gen {A} (F : graph term -> A -> graph term) (P : A -> triple term -> Prop) :
  (forall rg x t, t ∈ F rg x <-> t ∈ rg \/ P x t) ->
  forall l rg t, t ∈ foldl F rg l <-> t ∈ rg \/ exists x, x ∈ l /\ P x t.
Proof.
  intros HF l. induction l as [|x l IH]; intros rg t; simpl.
  - split; [by left|]. by intros [?|(? & ?%elem_of_nil & _)].
  - rewrite IH, HF. split.
    + intros [[Ht|Ht]|(y & Hy & Ht)]; [by left|right; exists x; split; [left|]; done|].
      right. exists y. split; [by right|done].
    + intros [Ht|(y & [->|Hy]%elem_of_cons & Ht)]; [by left; left|by left; right|].
      right. by exists y.
Qed.

Lemma elem_of_subject_objects g p s o : (s, o) ∈ subject_objects g p <-> (s, p, o) ∈ g.
Proof.
  unfold subject_objects. rewrite elem_of_remove_dups, list_elem_of_omap. split.
  - intros [[[s' p'] o'] [Hin Heq]]. case_bool_decide; [|done]. subst. by injection Heq as -> ->.
  - intros Hin. exists (s, p, o). split; [done|]. by rewrite bool_decide_true.
Qed.


Lemma component_descendants_sound g s c :
  c ∈ component_descendants g s ->
  exists c0, (s, R5_has_component_t, c0) ∈ g /\ rtc (component_edge g) c0 c.
Proof.
  unfold component_descendants. intros H.
  apply reach_sound in H as [H%elem_of_nil|(c0 & Hc0 & Hr)]; [done|].
  exists c0. split; [by apply elem_of_objects|].
  eapply rtc_subrel; [|exact Hr]. intros a b Hb. by apply elem_of_objects in Hb.
Qed.

Lemma component_descendants_child g s c :
  (s, R5_has_component_t, c) ∈ g -> c ∈ component_descendants g s.
Proof.
  intros Hc. apply elem_of_objects, list_elem_of_lookup in Hc as [i Hi].
  unfold component_descendants. apply (reach_todo _ _ _ _ _ i Hi).
  pose proof (lookup_lt_Some _ _ _ Hi).
  assert (length (objects g s R5_has_component_t) <= length g) by apply length_omap_le.
  unfold path_fuel. lia.
Qed.

Lemma elem_of_gather_down g t :
  t ∈ gather_down_derivatives g <->
  exists drel s o c, drel ∈ derivpath_rels /\ (s, drel, o) ∈ g /\ c ∈ component_descendants g s /\
    (t = (c, drel, o) \/ t = (c, Iri S763_is_reduced_form_of, o)).
Proof.
  unfold gather_down_derivatives.
  rewrite (elem_of_foldl_gen _ (fun drel t => exists s o c, (s, drel, o) ∈ g /\ c ∈ component_descendants g s /\
      (t = (c, drel, o) \/ t = (c, Iri S763_is_reduced_form_of, o)))).
  - split.
    + intros [Ht%elem_of_nil|(drel & Hd & s & o & c & H1 & H2 & H3)]; [done|]. by exists drel, s, o, c.
    + intros (drel & s & o & c & Hd & H1 & H2 & H3). right. exists drel. split; [done|]. by exists s, o, c.
  - intros rg drel t'.
    rewrite (elem_of_foldl_gen _ (fun '(s, o) t => exists c, c ∈ component_descendants g s /\
      (t = (c, drel, o) \/ t = (c, Iri S763_is_reduced_form_of, o)))).
    + split.
      * intros [Ht|([s o] & Hso & c & Hc & Ht)]; [by left|right].
        apply elem_of_subject_objects in Hso. by exists s, o, c.
      * intros [Ht|(s & o & c & Hso & Hc & Ht)]; [by left|right].
        exists (s, o). split; [by apply elem_of_subject_objects|]. by exists c.
    + intros rg' [s o] t''.
      rewrite (elem_of_foldl_gen _ (fun c t => t = (c, drel, o) \/ t = (c, Iri S763_is_reduced_form_of, o))).
      * split.
        -- intros [Ht|(c & Hc & Ht)]; [by left|right]. by exists c.
        -- intros [Ht|(c & Hc & Ht)]; [by left|right]. by exists c.
      * intros rg'' c u. rewrite !elem_of_add. tauto.
Qed.







Lemma up_frame_refl g rg : up_frame g rg rg.
Proof. intros t Ht. by left. Qed.

Lemma up_frame_trans g r1 r2 r3 : up_frame g r1 r2 -> up_frame g r2 r3 -> up_frame g r1 r3.
Proof. intros H1 H2 t Ht. destruct (H2 t Ht) as [H|H]; [by apply H1|by right]. Qed.

Lemma gather_up_rec_sound fuel g s rg rels rg' :
  gather_up_rec fuel g s rg = Some (rels, rg') ->
  (forall t, t ∈ rels -> t.1.1 = s /\ t.1.2 ∈ derivpath_rels /\ t ∈ g) /\ up_frame g rg rg'.
Proof.
  revert s rg rels rg'. induction fuel as [|f IH]; intros s rg rels rg' H; [done|].
  cbn [gather_up_rec] in H.
  destruct (fold_opt _ rg (objects g s R5_has_component_t)) as [rg1|] eqn:Hf; [|done].
  remember derivpath_rels as R eqn:HR in H.
  injection H as <- <-. split.
  - intros t (l & Hl & Ht)%elem_of_list_concat. apply list_elem_of_fmap in Hl as (drel & -> & Hd).
    apply list_elem_of_filter in Ht as [[Hs Hp] Ht]. subst R. rewrite Hp. done.
  - eapply (fold_opt_frame _ (up_frame g)); [apply up_frame_refl|apply up_frame_trans| |exact Hf].
    intros x child y Hchild Hstep.
    cbv beta in Hstep. destruct (gather_up_rec f g child x) as [[crels x1]|] eqn:Hrec; [|discriminate].
    cbn in Hstep. injection Hstep as <-.
    destruct (IH _ _ _ _ Hrec) as [Hcr Hx1].
    intros t Ht.
    rewrite (elem_of_foldl_gen _ (fun ct t => t = (s, ct.1.2, default ct.2 (value g ct.2 R5i_is_component_of_t))))
      in Ht.
    + destruct Ht as [Ht|(ct & Hct & ->)]; [by apply Hx1|right].
      destruct (Hcr ct Hct) as (Hc1 & Hc2 & Hc3).
      exists child, ct.2. split; [by apply elem_of_objects|]. split; [done|].
      split; [|done]. destruct ct as [[c p] o]. simpl in *. by subst.
    + intros rg2 [[c p] o] u. rewrite elem_of_add. cbn.
      by destruct (value g o R5i_is_component_of_t).
Qed.

Module Uris.

(** X1. For a URI [base/id] whose last segment [id] has no '/', [get_id_from_uri] returns [id]. *)
Theorem get_id_from_uri_slash base id :
  no_char "/" id = true -> get_id_from_uri (base ++ "/" ++ id) = id.
Proof.
  intros H. unfold get_id_from_uri. change ("/" ++ id)%string with (String "/" id).
  by rewrite py_rsplit1_app.
Qed.

Lemma get_id_from_uri_slash_witness :
  get_id_from_uri "http://lkg.org.pl/ns/lkg-core/F2_12" = "F2_12"%string.
Proof. apply (get_id_from_uri_slash "http://lkg.org.pl/ns/lkg-core" "F2_12"). reflexivity. Defined.

(** X2. For a URI [u#v] with no '/' anywhere and no '#' in [v], [get_id_from_uri] returns the fragment [v]. *)
Theorem get_id_from_uri_hash u v :
  no_char "/" u = true -> no_char "/" v = true -> no_char "#" v = true ->
  get_id_from_uri (u ++ "#" ++ v) = v.
Proof.
  intros Hu Hv Hv'. unfold get_id_from_uri.
  rewrite py_rsplit1_no_char by (change ("#" ++ v)%string with (String "#" v);
    rewrite no_char_app, no_char_cons, Hu, Hv; done).
  change ("#" ++ v)%string with (String "#" v). by rewrite py_rsplit1_app.
Qed.

Lemma get_id_from_uri_hash_witness :
  get_id_from_uri "urn:x#E41_3" = "E41_3"%string.
Proof. apply (get_id_from_uri_hash "urn:x" "E41_3"); reflexivity. Defined.

(** X3. A string with neither '/' nor '#' is returned unchanged by [get_id_from_uri]. *)
Theorem get_id_from_uri_plain s :
  no_char "/" s = true -> no_char "#" s = true -> get_id_from_uri s = s.
Proof. intros H1 H2. unfold get_id_from_uri. by rewrite !py_rsplit1_no_char. Qed.

Lemma get_id_from_uri_plain_witness : get_id_from_uri "E21_P7" = "E21_P7"%string.
Proof. apply get_id_from_uri_plain; reflexivity. Defined.

(** X4. For a prefix with no '_' and no '/', the identifier issued by [make_autoinc_id] splits at '_' into the prefix and the decimal counter value; [get_class_prefix] recovers the prefix and [get_id_from_uri] recovers the identifier from its URI. *)
Theorem make_autoinc_id_parse p c base :
  no_char "_" p = true -> no_char "/" p = true ->
  let id := fst (make_autoinc_id p c) in
  py_split "_" id = [p; Z_to_string (default 0%Z (c !! p))] /\
  get_class_prefix id = p /\
  get_id_from_uri (base ++ "/" ++ id) = id.
Proof.
  intros H1 H2 id. simpl in id.
  assert (Hs : py_split "_" id = [p; Z_to_string (default 0%Z (c !! p))]).
  { subst id. change ("_" ++ Z_to_string (default 0%Z (c !! p)))%string
      with (String "_" (Z_to_string (default 0%Z (c !! p)))).
    rewrite py_split_char_app, py_split_no_char, (py_split_no_char "_" (Z_to_string _)); [done| |done].
    by apply Z_to_string_no_char. }
  split; [done|]. split; [unfold get_class_prefix; by rewrite Hs|].
  unfold get_id_from_uri. change ("/" ++ id)%string with (String "/" id).
  rewrite py_rsplit1_app; [done|]. subst id.
  change ("_" ++ Z_to_string (default 0%Z (c !! p)))%string
      with (String "_" (Z_to_string (default 0%Z (c !! p)))).
  rewrite no_char_app, no_char_cons, H2, Z_to_string_no_char; done.
Qed.

Lemma make_autoinc_id_parse_witness :
  py_split "_" (fst (make_autoinc_id "E52" {[ "E52" := 4%Z ]})) = ["E52"; "4"]%string /\
  get_class_prefix (fst (make_autoinc_id "E52" {[ "E52" := 4%Z ]})) = "E52"%string.
Proof.
  destruct (make_autoinc_id_parse "E52" {[ "E52" := 4%Z ]} "http://lkg.org.pl/ns/lkg-core")
    as (H1 & H2 & _); [reflexivity|reflexivity|].
  split; [exact H1|exact H2].
Defined.

End Uris.

Module Ranges.

(** X5. A range [m.a÷x.b] with decimal bounds [a] = f and [b] = l expands to [m.f], ..., [m.l]; the main part [x] of the upper bound is ignored. *)
Theorem expand_range_spec m a x b f l :
  no_char "195"%char m = true -> digits_value a = Some f -> digits_value b = Some l ->
  expand_range (m ++ "." ++ a ++ range_sign ++ x ++ "." ++ b) =
  Some (map (fun subid => (m ++ "." ++ Z_to_string subid)%string) (z_range f l)).
Proof.
  intros Hm Ha Hb.
  destruct (digits_value_forallb a f Ha) as [Had _]. destruct (digits_value_forallb b l Hb) as [Hbd _].
  assert (Hdot : forall s, str_forallb is_digit s = true -> no_char "." s = true)
    by (intros s Hs; by apply (no_char_forallb is_digit)).
  assert (Hsrc : (m ++ "." ++ a ++ range_sign ++ x ++ "." ++ b)%string =
                 ((m ++ String "." a) ++ String "195" (String "183" "") ++ (x ++ String "." b))%string)
    by (rewrite !str_app_assoc; done).
  unfold expand_range. rewrite Hsrc.
  rewrite range_sign_bytes, str_contains_suffix by apply str_contains_self. cbn [negb].
  rewrite py_split_once_first.
  2:{ rewrite no_char_app, no_char_cons, Hm. simpl. by apply (no_char_forallb is_digit). }
  cbn [hd nth]. rewrite !py_rsplit1_app by auto.
  rewrite (py_int_digits a f Ha), (py_int_digits b l Hb). done.
Qed.

Lemma expand_range_spec_witness :
  expand_range ("F2_3.1" ++ range_sign ++ "F2_3.3") = Some ["F2_3.1"; "F2_3.2"; "F2_3.3"]%string.
Proof.
  exact (expand_range_spec "F2_3" "1" "F2_3" "3" 1 3 eq_refl eq_refl eq_refl).
Defined.

(** X6. A range whose lower bound has no '.' makes [expand_range] raise (the two-name unpacking of [rsplit] fails). *)
Theorem expand_range_no_dot u v :
  no_char "195"%char u = true -> no_char "." u = true ->
  expand_range (u ++ range_sign ++ v) = None.
Proof.
  intros H1 H2. unfold expand_range.
  rewrite range_sign_bytes, str_contains_suffix by apply str_contains_self. cbn [negb].
  rewrite py_split_once_first by done. cbn [hd]. by rewrite py_rsplit1_no_char.
Qed.

Lemma expand_range_no_dot_witness : expand_range ("F2_3" ++ range_sign ++ "F2_5") = None.
Proof. apply expand_range_no_dot; reflexivity. Defined.

End Ranges.

Module SameName.

(** X7. [is_same_name] is symmetric. *)
Theorem is_same_name_sym a b : is_same_name a b = is_same_name b a.
Proof.
  unfold is_same_name.
  set (A := py_strip (py_upper a)). set (B := py_strip (py_upper b)).
  rewrite String.eqb_sym. destruct (String.eqb B A); [done|].
  destruct (ends_with_char "." A), (ends_with_char "." B); done.
Qed.

(** X8. After upper-casing and stripping, two names match iff they are equal, or exactly one ends with '.' and, without that dot, is a proper prefix of the other. *)
Theorem is_same_name_spec a b :
  let A := py_strip (py_upper a) in
  let B := py_strip (py_upper b) in
  is_same_name a b = true <->
  A = B \/
  (exists p c r, A = (p ++ ".")%string /\ B = (p ++ String c r)%string /\ ends_with_char "." B = false) \/
  (exists p c r, B = (p ++ ".")%string /\ A = (p ++ String c r)%string /\ ends_with_char "." A = false).
Proof.
  intros A B. unfold is_same_name. fold A B.
  destruct (String.eqb_spec A B) as [E|E]; [split; [by left|done]|].
  destruct (ends_with_char "." A) eqn:EA, (ends_with_char "." B) eqn:EB; cbv beta iota zeta delta [negb xorb].
  - split; [done|]. intros [?|[(p&c&r&_&_&?)|(p&c&r&_&_&?)]]; congruence.
  - transitivity ((String.length B <? String.length A)%nat = false /\
      String.eqb (substring 0 (String.length A - 1) A) (substring 0 (String.length A - 1) B) = true).
    { destruct (_ <? _)%nat; cbn iota; intuition congruence. }
    rewrite abbrev_check by done. split.
    + intros (p&c&r&H1&H2). right; left. by exists p, c, r.
    + intros [?|[(p&c&r&H1&H2&_)|(p&c&r&H1&H2&H3)]]; [congruence|by exists p, c, r|].
      by rewrite H1, ends_with_dot in EB.
  - transitivity ((String.length A <? String.length B)%nat = false /\
      String.eqb (substring 0 (String.length B - 1) B) (substring 0 (String.length B - 1) A) = true).
    { destruct (_ <? _)%nat; cbn iota; intuition congruence. }
    rewrite abbrev_check by done. split.
    + intros (p&c&r&H1&H2). right; right. by exists p, c, r.
    + intros [?|[(p&c&r&H1&H2&H3)|(p&c&r&H1&H2&_)]]; [congruence| |by exists p, c, r].
      by rewrite H1, ends_with_dot in EA.
  - split; [done|]. intros [?|[(p&c&r&HA&_&_)|(p&c&r&HB&_&_)]]; [congruence| |].
    + by rewrite HA, ends_with_dot in EA.
    + by rewrite HB, ends_with_dot in EB.
Qed.

End SameName.

Module NameDicts.

(** X9. When [make_namedict] succeeds, its result has a NOLANG key, and the list under each key collects, in input order, [[alias]] once per listed language code mapped to that key, and once under NOLANG for each name without language codes. *)
Theorem make_namedict_lookup names lm r :
  make_namedict names lm = Some r ->
  Some "NOLANG"%string ∈ r.*1 /\
  forall k, nd_lookup r k =
    flat_map (fun y => if bool_decide (name_langs y = []) then
                         (if bool_decide (k = Some "NOLANG"%string) then [[name_alias y]] else [])
                       else (fun _ => [name_alias y]) <$> filter (fun l => lm !! l = Some k) (name_langs y))
      names.
Proof.
  unfold make_namedict. destruct names as [|y0 names0] eqn:En.
  - intros [= <-]. split; [by apply list_elem_of_singleton|]. intros k. simpl.
    unfold nd_lookup. simpl. by case_bool_decide.
  - rewrite <- En. intros H. destruct (namedict_names_step lm _ _ _ H) as [H1 H2]. split.
    + apply H2. by apply list_elem_of_singleton.
    + intros k. rewrite H1. unfold nd_lookup at 1. simpl. by case_bool_decide.
Qed.

Lemma make_namedict_lookup_witness :
  exists r, make_namedict ["Jan Kowalski (pol,eng)"; "Johann"]%string
              {[ "pol" := Some "pl"; "eng" := Some "en" ]} = Some r /\
    nd_lookup r (Some "pl"%string) = [["Jan Kowalski"%string]] /\
    nd_lookup r (Some "NOLANG"%string) = [["Johann"%string]].
Proof.
  destruct (make_namedict ["Jan Kowalski (pol,eng)"; "Johann"]%string
      {[ "pol" := Some "pl"; "eng" := Some "en" ]}) as [r|] eqn:E; [|vm_compute in E; discriminate].
  exists r. split; [done|].
  destruct (make_namedict_lookup _ _ r E) as [_ Hk].
  rewrite !Hk. split; reflexivity.
Defined.

(** X10. [make_namedict] raises exactly when some name lists a language code that is not a key of the language map. *)
Theorem make_namedict_raises names lm :
  make_namedict names lm = None <->
  exists y l, y ∈ names /\ l ∈ name_langs y /\ lm !! l = None.
Proof.
  unfold make_namedict. destruct names as [|y0 names0] eqn:En.
  - split; [done|]. intros (y & l & Hy & _). by apply elem_of_nil in Hy.
  - rewrite <- En. rewrite (fold_opt_None_iff _ (fun y => exists l, l ∈ name_langs y /\ lm !! l = None)).
    + split; [intros (y & Hy & l & Hl & E); by exists y, l|intros (y & l & Hy & Hl & E); by exists y; eauto].
    + intros a y. cbv zeta.
      rewrite <- (fold_opt_None_iff (fun result l => l' ← verify_lang l lm; Some (nd_add result l' [name_alias y]))
                    (fun l => lm !! l = None) a (name_langs y)).
      * destruct (fold_opt _ a _); done.
      * intros a' l. unfold verify_lang. by destruct (lm !! l).
Qed.

End NameDicts.

Module RefLinks.

(** X11. A reference ending in '-' followed only by non-digit suffix characters makes the loop record the SKIP flag and no link. *)
Theorem ref_links_skip f2_uri nfprefix lang u t :
  str_forallb ref_suffix_char t = true ->
  ref_links f2_uri nfprefix lang (u ++ "-" ++ t) = Some [(Iri (lkg f2_uri), SKIP, Literal_true)].
Proof.
  intros Ht. unfold ref_links. rewrite strip_refchars_skip; [done|done|].
  rewrite !str_length_app. simpl. lia.
Qed.

Lemma ref_links_skip_witness :
  ref_links "F2_1" "P" "pl" "12-abc" = Some [(Iri (lkg "F2_1"), SKIP, Literal_true)].
Proof. apply (ref_links_skip "F2_1" "P" "pl" "12" "abc"). reflexivity. Defined.

(** X12. A reference with no digit and no '-' is stripped to the empty string, where [ref[-1]] raises. *)
Theorem ref_links_no_digit f2_uri nfprefix lang ref :
  str_forallb ref_suffix_char ref = true -> ref_links f2_uri nfprefix lang ref = None.
Proof.
  intros Ht. unfold ref_links.
  destruct (strip_refchars_suffix (String.length ref) "" ref [] Ht ltac:(lia)) as (rels & E & _).
  rewrite str_app_nil_l in E. rewrite E. replace (S (String.length ref) - String.length ref) with 1 by lia.
  done.
Qed.

Lemma ref_links_no_digit_witness : ref_links "F2_1" "P" "pl" "abc" = None.
Proof. apply ref_links_no_digit. reflexivity. Defined.

(** X13. For a reference [core ++ t] with [core] ending in a digit and [t] of suffix characters other than digits and '-': the loop raises exactly when [core] starts with the nonfiction prefix and no letters follow it; otherwise every triple links the chapter to [F2_core] by a derivative relation, at least one triple is produced, R76 only appears alone, and S761 appears exactly when [core] starts with the prefix and the following letters differ from the chapter's language. *)
Theorem ref_links_links f2_uri nfprefix lang core t d :
  last_char core = Some d -> is_digit d = true -> str_forallb ref_suffix_char t = true ->
  let nextprefix := match_letters (substring (String.length nfprefix) (String.length core) core) in
  let link pr := (Iri (lkg f2_uri), pr, Iri (lkg ("F2_" ++ core))) in
  (ref_links f2_uri nfprefix lang (core ++ t) = None <->
     String.prefix nfprefix core = true /\ nextprefix = None) /\
  forall ts, ref_links f2_uri nfprefix lang (core ++ t) = Some ts ->
    ts <> [] /\
    (forall tr, tr ∈ ts -> exists pr, tr = link pr /\ pr ∈ derivpath_rels) /\
    (link (Iri R76_is_derivative_of) ∈ ts -> ts = [link (Iri R76_is_derivative_of)]) /\
    (link (Iri S761_is_translation_of) ∈ ts <->
       String.prefix nfprefix core = true /\ nextprefix <> Some lang).
Proof.
  intros Hl Hd Ht nextprefix link.
  destruct (strip_refchars_core (S (String.length (core ++ t))) core t d Hl Hd Ht) as (rels & E & Hr);
    [rewrite str_length_app; lia|].
  assert (Hder : forall p, p ∈ refchar_rels -> p ∈ derivpath_rels).
  { unfold refchar_rels, derivpath_rels, derivrels. intros p. simpl. rewrite !elem_of_cons. tauto. }
  assert (HR76 : Iri R76_is_derivative_of ∉ refchar_rels) by (apply (bool_decide_unpack _); vm_compute; exact I).
  assert (HS761 : Iri S761_is_translation_of ∉ refchar_rels) by (apply (bool_decide_unpack _); vm_compute; exact I).
  assert (Hlink : forall p q, link p = link q -> p = q) by (intros p q [=]; done).
  unfold ref_links. rewrite E. fold nextprefix.
  (* the relations after the [nfprefix] test *)
  set (after := if String.prefix nfprefix core then
                  np ← nextprefix; Some (if String.eqb np lang then rels else rels ++ [Iri S761_is_translation_of])
                else Some rels).
  change (match after with Some x => _ | None => None end) with
    (after ≫= fun preciserels => Some (map (fun pr => link pr) preciserels ++
       if bool_decide (preciserels = []) then [link (Iri R76_is_derivative_of)] else [])).
  split.
  - subst after. destruct (String.prefix nfprefix core), nextprefix; simpl; intuition congruence.
  - intros ts Hts.
    destruct after as [rels'|] eqn:Ea; [|done]. simpl in Hts. injection Hts as <-.
    assert (Hrels' : forall p, p ∈ rels' -> p ∈ refchar_rels \/ p = Iri S761_is_translation_of).
    { subst after. intros p Hp. destruct (String.prefix nfprefix core), nextprefix as [np|];
        simpl in Ea; try discriminate; injection Ea as <-; [destruct (String.eqb np lang)| |];
        try (left; by apply Hr).
      apply elem_of_app in Hp as [Hp|Hp%list_elem_of_singleton]; [left; by apply Hr|by right]. }
    assert (HS : Iri S761_is_translation_of ∈ rels' <->
                 String.prefix nfprefix core = true /\ nextprefix <> Some lang).
    { subst after. destruct (String.prefix nfprefix core), nextprefix as [np|];
        simpl in Ea; try discriminate; injection Ea as <-.
      - destruct (String.eqb_spec np lang) as [->|Hne].
        + split; [intros H; by apply Hr in H|intros [_ []]; done].
        + split; [intros _; split; [done|congruence]|intros _; apply elem_of_app; right; by apply list_elem_of_singleton].
      - split; [intros H; by apply Hr in H|intros [[=] _]].
      - split; [intros H; by apply Hr in H|intros [[=] _]]. }
    split; [|split; [|split]].
    + case_bool_decide as Hn; [subst rels'; done|]. destruct rels'; [done|]. simpl. done.
    + intros tr [(pr & -> & Hp)%elem_of_map|Htr]%elem_of_app.
      * exists pr. split; [done|]. destruct (Hrels' pr Hp) as [? | ->]; [by apply Hder|].
        unfold derivpath_rels, derivrels. simpl. rewrite !elem_of_cons. tauto.
      * case_bool_decide; [|by apply elem_of_nil in Htr].
        apply list_elem_of_singleton in Htr as ->. exists (Iri R76_is_derivative_of). split; [done|].
        unfold derivpath_rels, derivrels. simpl. rewrite !elem_of_cons. tauto.
    + intros [(pr & Hpr & Hp)%elem_of_map|Htr]%elem_of_app.
      * apply Hlink in Hpr. subst pr. destruct (Hrels' _ Hp) as [? | [=]]. done.
      * case_bool_decide; [subst; done|by apply elem_of_nil in Htr].
    + rewrite <- HS. split.
      * intros [(pr & Hpr & Hp)%elem_of_map|Htr]%elem_of_app.
        -- apply Hlink in Hpr. by subst pr.
        -- case_bool_decide; [|by apply elem_of_nil in Htr]. apply list_elem_of_singleton, Hlink in Htr. done.
      * intros Hp. apply elem_of_app. left. apply elem_of_map. by exists (Iri S761_is_translation_of).
Qed.

Lemma ref_links_links_witness :
  exists ts, ref_links "F2_9" "P" "pl" "PA12a" = Some ts /\
    (Iri (lkg "F2_9"), Iri S761_is_translation_of, Iri (lkg "F2_PA12")) ∈ ts.
Proof.
  destruct (ref_links "F2_9" "P" "pl" "PA12a") as [ts|] eqn:E; [|vm_compute in E; discriminate].
  exists ts. split; [done|].
  destruct (ref_links_links "F2_9" "P" "pl" "PA12" "a" "2") as [_ Hts]; [reflexivity..|].
  destruct (Hts ts E) as (_ & _ & _ & H761).
  apply H761. split; [reflexivity|discriminate].
Defined.

End RefLinks.

Module Appellations.

(** X14. For a class with appellation predicates, [add_appellation] returns the next autoincrement identifier, increments that counter, changes only the target graph, only adds to it, and adds the type, inverse link, forward link, symbolic content and type triples; every new triple has the appellation as subject or is the forward link. *)
Theorem add_appellation_links lg subject appel_value appel_type appel_label appel_class has_types
    has_language lang_detector refgraph pred inv st st' r :
  lg < length (heap st) ->
  APPMAP_PREDICATE appel_class = Some pred -> APPMAP_INVERSE_PREDICATE appel_class = Some inv ->
  add_appellation lg subject appel_value appel_type appel_label appel_class has_types
    has_language lang_detector refgraph st = (st', r) ->
  let p := get_class_prefix (get_id_from_uri (term_str appel_class)) in
  let n := default 0%Z (autoinc st !! p) in
  let u := Iri (lkg (p ++ "_" ++ Z_to_string n)) in
  let g := heap st !!! lg in
  let g' := heap st' !!! lg in
  r = Some (p ++ "_" ++ Z_to_string n)%string /\
  autoinc st' = <[p := (n + 1)%Z]> (autoinc st) /\
  length (heap st') = length (heap st) /\
  (forall l, l <> lg -> heap st' !! l = heap st !! l) /\
  g ⊆ g' /\
  (u, RDF_type, appel_class) ∈ g' /\
  (u, inv, Iri (lkg subject)) ∈ g' /\
  (Iri (lkg subject), pred, u) ∈ g' /\
  (u, P190_has_symbolic_content,
     match appel_type with Some dt => TypedLit appel_value dt | None => Lit appel_value end) ∈ g' /\
  (forall h, h ∈ has_types -> (u, P2_has_type, uref_term h) ∈ g') /\
  (forall t, t ∈ g' -> t ∈ g \/ t.1.1 = u \/ t = (Iri (lkg subject), pred, u)).
Proof. apply add_appellation_run. Qed.

Lemma add_appellation_links_witness :
  exists st' r,
    add_appellation 0 "E21_P1" "Jan" None None E41_Appellation [] None None None one_graph_state = (st', r) /\
    r = Some "E41_0"%string /\
    (Iri (lkg "E21_P1"), P1_is_identified_by, Iri (lkg "E41_0")) ∈ heap st' !!! 0.
Proof.
  set (run := add_appellation 0 "E21_P1" "Jan" None None E41_Appellation [] None None None one_graph_state).
  exists run.1, run.2. split; [apply surjective_pairing|].
  destruct (add_appellation_links 0 "E21_P1" "Jan" None None E41_Appellation [] None None None
    P1_is_identified_by P1i_identifies one_graph_state run.1 run.2) as (Hr & _ & _ & _ & _ & _ & _ & Hp & _);
    [vm_compute; lia|reflexivity|reflexivity|apply surjective_pairing|].
  split; [exact Hr|exact Hp].
Defined.

(** X15. For a class without an inverse appellation predicate, [add_appellation] raises after issuing an identifier and adding only its type and label triples. *)
Theorem add_appellation_raise lg subject appel_value appel_type appel_label appel_class has_types
    has_language lang_detector refgraph st st' r :
  lg < length (heap st) ->
  APPMAP_INVERSE_PREDICATE appel_class = None ->
  add_appellation lg subject appel_value appel_type appel_label appel_class has_types
    has_language lang_detector refgraph st = (st', r) ->
  let p := get_class_prefix (get_id_from_uri (term_str appel_class)) in
  let n := default 0%Z (autoinc st !! p) in
  let u := Iri (lkg (p ++ "_" ++ Z_to_string n)) in
  r = None /\
  autoinc st' = <[p := (n + 1)%Z]> (autoinc st) /\
  exists lab, heap st' = <[lg := foldl add (heap st !!! lg)
                                 [(u, RDF_type, appel_class); (u, RDFS_label, Lit lab)]]> (heap st).
Proof.
  intros Hlt Hinv H p n u.
  unfold add_appellation in H.
  step H. apply run_autoinc in E as [-> ->]. cbv beta iota zeta in H.
  step H. apply run_get_graph in E as [-> ->]. cbv beta iota zeta in H.
  step H. destruct refgraph as [lr|];
    [apply run_get_graph in E as [-> ->]|apply run_mret in E as [-> ->]]; cbv beta iota zeta in H.
  all: step H; apply run_gadd in E as [A1 ->]; cbv beta iota zeta in H.
  all: step H; apply run_gadd in E as [A2 ->]; cbv beta iota zeta in H.
  all: rewrite Hinv in H; step H; apply run_of_option_None in E as [-> ->]; destruct H as [-> ->].
  all: apply (fun H => adds_trans _ _ _ _ _ _ H A1) in A2; [|simpl; lia].
  all: destruct A2 as [Hh Ha]; cbn [heap autoinc app] in Hh, Ha.
  all: split; [done|]; split; [done|]; eexists; exact Hh.
Qed.

Lemma add_appellation_raise_witness :
  exists st' r,
    add_appellation 0 "E21_P1" "Jan" None None E52_Time_Span [] None None None one_graph_state = (st', r) /\
    r = None.
Proof.
  set (run := add_appellation 0 "E21_P1" "Jan" None None E52_Time_Span [] None None None one_graph_state).
  exists run.1, run.2. split; [apply surjective_pairing|].
  destruct (add_appellation_raise 0 "E21_P1" "Jan" None None E52_Time_Span [] None None None
    one_graph_state run.1 run.2) as [Hr _]; [vm_compute; lia|reflexivity|apply surjective_pairing|exact Hr].
Defined.

(** X16. When [int(date)] succeeds with value y, [add_timespan] returns the next E52 identifier, increments the E52 counter and adds exactly the type, label, begin, end (as gYear y) and P4 triples to the target graph. *)
Theorem add_timespan_run lg subject subject_label date yid y st st' r :
  lg < length (heap st) ->
  py_int date = Some y ->
  add_timespan lg subject subject_label date yid st = (st', r) ->
  let n := default 0%Z (autoinc st !! "E52"%string) in
  let u := Iri (lkg ("E52_" ++ Z_to_string n)) in
  r = Some ("E52_" ++ Z_to_string n)%string /\
  autoinc st' = <[ "E52"%string := (n + 1)%Z]> (autoinc st) /\
  exists lab,
    heap st' = <[lg := foldl add (heap st !!! lg)
                   [(u, RDF_type, E52_Time_Span); (u, RDFS_label, Lit lab);
                    (u, P82a_begin_of_the_begin, TypedLit (Z_to_string y) XSD_gYear);
                    (u, P82b_end_of_the_end, TypedLit (Z_to_string y) XSD_gYear);
                    (Iri (lkg subject), P4_has_time_span, u)]]> (heap st).
Proof.
  intros Hlt Hy H n u.
  unfold add_timespan in H.
  step H. apply run_autoinc in E as [-> ->]. cbv beta iota zeta in H.
  rewrite Hy in H. step H. apply run_of_option_Some in E as [-> ->]. cbv beta iota zeta in H.
  step H; apply run_gadd in E as [A1 ->]; cbv beta iota zeta in H.
  pose proof (adds_length _ _ _ _ A1) as L1; cbn [heap] in L1.
  step H; apply run_gadd in E as [A2 ->]; cbv beta iota zeta in H.
  pose proof (adds_length _ _ _ _ A2) as L2.
  step H; apply run_gadd in E as [A3 ->]; cbv beta iota zeta in H.
  pose proof (adds_length _ _ _ _ A3) as L3.
  step H; apply run_gadd in E as [A4 ->]; cbv beta iota zeta in H.
  pose proof (adds_length _ _ _ _ A4) as L4.
  step H; apply run_gadd in E as [A5 ->]; cbv beta iota zeta in H.
  apply run_mret in H as [-> ->].
  apply (fun H => adds_trans _ _ _ _ _ _ H A4) in A5; [|lia].
  apply (fun H => adds_trans _ _ _ _ _ _ H A3) in A5; [|lia].
  apply (fun H => adds_trans _ _ _ _ _ _ H A2) in A5; [|lia].
  apply (fun H => adds_trans _ _ _ _ _ _ H A1) in A5; [|simpl; lia].
  destruct A5 as [Hh Ha]; cbn [heap autoinc app] in Hh, Ha.
  split; [done|]; split; [done|]; eexists; exact Hh.
Qed.

Lemma add_timespan_run_witness :
  exists st' r,
    add_timespan 0 "E21_P1" "Jan" " 1850 " None one_graph_state = (st', r) /\
    r = Some "E52_0"%string.
Proof.
  set (run := add_timespan 0 "E21_P1" "Jan" " 1850 " None one_graph_state).
  exists run.1, run.2. split; [apply surjective_pairing|].
  destruct (add_timespan_run 0 "E21_P1" "Jan" " 1850 " None 1850 one_graph_state run.1 run.2) as [Hr _];
    [vm_compute; lia|reflexivity|apply surjective_pairing|exact Hr].
Defined.

(** X17. When [int(date)] fails, [add_timespan] raises with every graph unchanged, the E52 counter having already been incremented. *)
Theorem add_timespan_raise lg subject subject_label date yid st st' r :
  py_int date = None ->
  add_timespan lg subject subject_label date yid st = (st', r) ->
  let n := default 0%Z (autoinc st !! "E52"%string) in
  r = None /\ heap st' = heap st /\ autoinc st' = <[ "E52"%string := (n + 1)%Z]> (autoinc st).
Proof.
  intros Hy H n.
  unfold add_timespan in H.
  step H. apply run_autoinc in E as [-> ->]. cbv beta iota zeta in H.
  rewrite Hy in H. step H. apply run_of_option_None in E as [-> ->]. destruct H as [-> ->].
  done.
Qed.

Lemma add_timespan_raise_witness :
  exists st' r,
    add_timespan 0 "E21_P1" "Jan" "ca. 1850" None one_graph_state = (st', r) /\
    r = None /\ heap st' = heap one_graph_state.
Proof.
  set (run := add_timespan 0 "E21_P1" "Jan" "ca. 1850" None one_graph_state).
  exists run.1, run.2. split; [apply surjective_pairing|].
  destruct (add_timespan_raise 0 "E21_P1" "Jan" "ca. 1850" None one_graph_state run.1 run.2) as (Hr & Hh & _);
    [reflexivity|apply surjective_pairing|].
  split; [exact Hr|exact Hh].
Defined.

(** X18. The variant loop of [add_people] creates one fresh, consecutively numbered E41 appellation per variant, only adds to the person's graph, adds a search label for each variant, and links every two distinct appellations by P139 in both directions. *)
Theorem add_variants_links lg uri yid lang_uri lang_detector variants st st' r :
  lg < length (heap st) ->
  add_variants lg uri yid lang_uri lang_detector variants st = (st', r) ->
  let n := default 0%Z (autoinc st !! "E41"%string) in
  exists apps, r = Some apps /\ length apps = length variants /\ NoDup apps /\
    (forall k a, apps !! k = Some a -> a = ("E41_" ++ Z_to_string (n + Z.of_nat k))%string) /\
    length (heap st') = length (heap st) /\
    (forall l, l <> lg -> heap st' !! l = heap st !! l) /\
    heap st !!! lg ⊆ heap st' !!! lg /\
    (forall v, v ∈ variants -> (Iri (lkg uri), SEARCHLABEL, Lit v) ∈ heap st' !!! lg) /\
    (forall i j ai aj, i <> j -> apps !! i = Some ai -> apps !! j = Some aj ->
       (Iri (lkg ai), P139_has_alternative_form, Iri (lkg aj)) ∈ heap st' !!! lg).
Proof.
  intros Hlt H n. unfold add_variants in H.
  apply bind_inv in H as (s1 & o1 & E & H).
  destruct (run_variants lg uri yid lang_uri lang_detector variants st s1 o1 Hlt E)
    as (apps & -> & Hlen & Happs & (L1 & O1 & G1) & Hs1).
  apply bind_inv in H as (s2 & o2 & E2 & H).
  apply (run_mfor_adds lg _ (p139_pairs apps)) in E2 as [A2 ->]; [| |lia].
  2:{ intros [i ai] s s' o' _ Hrun Hlts. cbn beta iota in Hrun.
      apply (run_mfor_adds lg _ (fun '(j, aj) =>
          if bool_decide (i <> j)
          then [(Iri (lkg ai), P139_has_alternative_form, Iri (lkg aj));
                (Iri (lkg aj), P139_has_alternative_form, Iri (lkg ai))]
          else [])) in Hrun as [A ->]; [done| |done].
      intros [j aj] s0 s0' o0 _ Hrun0 Hlt0. cbn beta iota in Hrun0 |- *.
      case_bool_decide.
      - apply bind_inv in Hrun0 as (s4 & o4 & E4 & Hrun0). apply run_gadd in E4 as [A4 ->].
        apply run_gadd in Hrun0 as [A5 ->]. split; [|done].
        exact (adds_trans _ [_] [_] _ _ _ Hlt0 A4 A5).
      - apply run_mret in Hrun0 as [-> ->]. split; [by apply adds_nil|done]. }
  apply run_mret in H as [-> ->].
  assert (Hlt1 : lg < length (heap s1)) by lia.
  pose proof (adds_graph _ _ _ _ Hlt1 A2) as HG2.
  exists apps. split; [done|]. split; [done|]. split.
  { apply NoDup_alt. intros i j a Hi Hj.
    rewrite (Happs i a Hi) in Hj. apply Happs in Hj. simpl in Hj. injection Hj as Hj.
    apply Z_to_string_inj in Hj. lia. }
  split; [done|]. split; [rewrite (adds_length _ _ _ _ A2); done|].
  split; [intros l Hl; rewrite (adds_other _ _ _ _ _ A2 Hl); by apply O1|].
  split; [intros t Ht; rewrite HG2; apply elem_of_foldl_add; left; by apply G1|].
  split; [intros v Hv; rewrite HG2; apply elem_of_foldl_add; left; by apply Hs1|].
  intros i j ai aj Hij Hi Hj. rewrite HG2. apply elem_of_foldl_add. right.
  apply elem_of_list_concat. exists (p139_pairs apps (i, ai)). split.
  { apply list_elem_of_fmap_2. by apply elem_of_enumerate. }
  unfold p139_pairs. apply elem_of_list_concat.
  exists [(Iri (lkg ai), P139_has_alternative_form, Iri (lkg aj));
           (Iri (lkg aj), P139_has_alternative_form, Iri (lkg ai))].
  split; [|by left].
  apply list_elem_of_fmap. exists (j, aj). split; [|by apply elem_of_enumerate].
  cbn beta iota. by rewrite bool_decide_true by done.
Qed.

Lemma add_variants_links_witness :
  exists st' r,
    add_variants 0 "E21_P1" "P1" None None ["Jan"; "Johann"]%string one_graph_state = (st', r) /\
    r = Some ["E41_0"; "E41_1"]%string /\
    (Iri (lkg "E41_1"), P139_has_alternative_form, Iri (lkg "E41_0")) ∈ heap st' !!! 0.
Proof.
  set (run := add_variants 0 "E21_P1" "P1" None None ["Jan"; "Johann"]%string one_graph_state).
  exists run.1, run.2. split; [apply surjective_pairing|].
  assert (Hr : run.2 = Some ["E41_0"; "E41_1"]%string) by (vm_compute; reflexivity).
  split; [exact Hr|].
  destruct (add_variants_links 0 "E21_P1" "P1" None None ["Jan"; "Johann"]%string one_graph_state run.1 run.2)
    as (apps & Ha & _ & _ & _ & _ & _ & _ & _ & Hlink); [vm_compute; lia|apply surjective_pairing|].
  rewrite Hr in Ha. injection Ha as <-.
  apply (Hlink 1 0); [lia|reflexivity|reflexivity].
Defined.

End Appellations.

Module AuthorshipExtras.

(** X19. [add_authorships] always ends normally: the first triple it adds
    for a reference, [(F28, prop, person)], makes rdflib's wildcard test
    [(None, prop, person) in graph] true, so [propagate_through_prop] never
    adds a triple with subject [None]. It returns the input graph with
    triples appended, each with predicate S142 or S143 and a listed person
    as object. *)
Theorem add_authorships_appends g rows :
  exists Y, add_authorships g rows = Some (Done (g ++ Y)) /\
    forall t, t ∈ Y -> exists yid refs ref, (yid, refs) ∈ rows /\ ref ∈ refs /\
      ((t.1.2 = S142_written_by \/ t.1.2 = S143_translated_by) /\ t.2 = Iri (lkg ("E21_" ++ yid))).
Proof.
  destruct (authorships_rows g rows rows (Some (Done g))) as (g' & E & Y & -> & HY); [done| |].
  { exists g. split; [done|]. exists []. rewrite app_nil_r. split; [done|]. by intros t ?%elem_of_nil. }
  exists Y. split; [exact E|exact HY].
Qed.

End AuthorshipExtras.

Module Gathering.

(** X20. Every triple of [gather_down_derivatives] links a transitive component of a derived node to that node's source, by the same relation or by S763. *)
Theorem gather_down_derivatives_sound g t :
  t ∈ gather_down_derivatives g ->
  exists drel s o c, drel ∈ derivpath_rels /\ (s, drel, o) ∈ g /\
    (exists c0, (s, R5_has_component_t, c0) ∈ g /\ rtc (component_edge g) c0 c) /\
    (t = (c, drel, o) \/ t = (c, Iri S763_is_reduced_form_of, o)).
Proof.
  intros (drel & s & o & c & Hd & H1 & H2 & H3)%elem_of_gather_down.
  exists drel, s, o, c. do 2 (split; [done|]). split; [|done]. by apply component_descendants_sound.
Qed.

Lemma gather_down_derivatives_sound_witness :
  exists drel s o c, drel ∈ derivpath_rels /\ (s, drel, o) ∈ component_test_graph /\
    (exists c0, (s, R5_has_component_t, c0) ∈ component_test_graph /\
                rtc (component_edge component_test_graph) c0 c) /\
    ((Iri (lkg "F2_A2"), Iri S763_is_reduced_form_of, Iri (lkg "F2_B")) = (c, drel, o) \/
     (Iri (lkg "F2_A2"), Iri S763_is_reduced_form_of, Iri (lkg "F2_B")) = (c, Iri S763_is_reduced_form_of, o)).
Proof.
  apply gather_down_derivatives_sound.
  apply (bool_decide_unpack _). vm_compute. exact I.
Defined.

(** X21. For a derivation triple [(s, drel, o)] and a direct component [c] of [s], [gather_down_derivatives] contains [(c, drel, o)] and [(c, S763, o)]. *)
Theorem gather_down_derivatives_child g drel s o c :
  drel ∈ derivpath_rels -> (s, drel, o) ∈ g -> (s, R5_has_component_t, c) ∈ g ->
  (c, drel, o) ∈ gather_down_derivatives g /\
  (c, Iri S763_is_reduced_form_of, o) ∈ gather_down_derivatives g.
Proof.
  intros Hd Hso Hc. apply component_descendants_child in Hc.
  split; apply elem_of_gather_down; exists drel, s, o, c; auto.
Qed.

Lemma gather_down_derivatives_child_witness :
  (Iri (lkg "F2_A1"), Iri R76_is_derivative_of, Iri (lkg "F2_B")) ∈ gather_down_derivatives component_test_graph /\
  (Iri (lkg "F2_A1"), Iri S763_is_reduced_form_of, Iri (lkg "F2_B")) ∈ gather_down_derivatives component_test_graph.
Proof.
  apply (gather_down_derivatives_child _ _ (Iri (lkg "F2_A"))); apply (bool_decide_unpack _); vm_compute; exact I.
Defined.

(** X22. Every triple of [gather_up_derivatives] gives a parent a derivation relation of one of its components, aimed at the parent of that relation's object when it has one. *)
Theorem gather_up_derivatives_sound fuel g rg t :
  gather_up_derivatives fuel g = Some rg -> t ∈ rg ->
  exists child o, (t.1.1, R5_has_component_t, child) ∈ g /\ t.1.2 ∈ derivpath_rels /\
    (child, t.1.2, o) ∈ g /\ t.2 = default o (value g o R5i_is_component_of_t).
Proof.
  intros H Ht. unfold gather_up_derivatives in H.
  apply (fold_opt_frame _ (up_frame g)) in H; [|apply up_frame_refl|apply up_frame_trans|].
  - destruct (H t Ht) as [?%elem_of_nil|Hs]; done.
  - intros x s y _ Hstep. destruct (value g s R5i_is_component_of_t).
    + injection Hstep as <-. apply up_frame_refl.
    + destruct (gather_up_rec fuel g s x) as [[rels x1]|] eqn:Hrec; [|discriminate].
      injection Hstep as <-. exact (proj2 (gather_up_rec_sound _ _ _ _ _ _ Hrec)).
Qed.

Lemma gather_up_derivatives_sound_witness :
  exists rg, gather_up_derivatives 4 component_test_graph = Some rg /\
    (Iri (lkg "F2_A"), Iri R76_is_derivative_of, Iri (lkg "F2_B")) ∈ rg /\
    exists child o, (Iri (lkg "F2_A"), R5_has_component_t, child) ∈ component_test_graph /\
      Iri R76_is_derivative_of ∈ derivpath_rels /\
      (child, Iri R76_is_derivative_of, o) ∈ component_test_graph /\
      Iri (lkg "F2_B") = default o (value component_test_graph o R5i_is_component_of_t).
Proof.
  destruct (gather_up_derivatives 4 component_test_graph) as [rg|] eqn:E; [|vm_compute in E; discriminate].
  assert (Ht : (Iri (lkg "F2_A"), Iri R76_is_derivative_of, Iri (lkg "F2_B")) ∈ rg).
  { assert (Hc : bool_decide ((Iri (lkg "F2_A"), Iri R76_is_derivative_of, Iri (lkg "F2_B"))
                  ∈ default [] (gather_up_derivatives 4 component_test_graph)) = true)
      by (vm_compute; reflexivity).
    rewrite E in Hc. by apply bool_decide_eq_true in Hc. }
  exists rg. split; [done|]. split; [done|].
  exact (gather_up_derivatives_sound 4 component_test_graph rg _ E Ht).
Defined.

End Gathering.
